(** * Harklemath: tolerance-aware comparison and plane geometry

    A shallow embedding of [src/src/Harklemath.c] (with the declarations and
    macros of [src/hdr/Harklemath.h]) and the proofs of the properties its
    specification states.

    Conventions of the embedding.
    - [int] is the 32-bit two's complement integer: a [Z] that every
      arithmetic operation brings back into range with [wrap].
    - [double] is IEEE 754 binary64 as Rocq's primitive [float]; arithmetic is
      evaluated in double precision in the default rounding direction
      (FLT_EVAL_METHOD 0, as on x86-64 with SSE2).
    - A conversion from [double] to [int] that C leaves undefined (NaN, or a
      value outside the range of [int]) yields the x86-64 "integer
      indefinite" value [INT_MIN].
    - The C library functions the source calls ([round], [ceil], [floor],
      [pow], [sprintf], [atof], [fesetround], [calloc]) are modelled in the
      modules [Libm], [Libc] and [World] below.
    - Static variables, the floating-point environment, the reports sent
      through HARKLE_ERROR and to stderr, and the objects reached through
      pointers make up the [world] every function is run in; a function is a
      computation [M A] that yields a result and a new world, or nothing when
      it runs into undefined behaviour (a store through an invalid pointer, a
      write beyond a buffer) or exhausts the iteration budget of a loop. *)

From Stdlib Require Import ZArith QArith Qabs Floats String Ascii List Lia Bool.
From stdpp Require Import base option list gmap.

Local Open Scope Z_scope.

(* ------------------------------------------------------------------------- *)
(** ** The type [int] *)

Module CInt.

Definition INT_MAX : Z := 2147483647.
Definition INT_MIN : Z := -2147483648.

(** Two's complement reduction to 32 bits. *)
Definition wrap (z : Z) : Z := (z + 2147483648) mod 4294967296 - 2147483648.

Definition add (a b : Z) : Z := wrap (a + b).
Definition sub (a b : Z) : Z := wrap (a - b).
Definition mul (a b : Z) : Z := wrap (a * b).
(** [/] and [%] truncate toward zero. *)
Definition div (a b : Z) : Z := wrap (Z.quot a b).
Definition rem (a b : Z) : Z := Z.rem a b.
(** [abs] from <stdlib.h>. *)
Definition abs (a : Z) : Z := wrap (Z.abs a).

Definition in_range (z : Z) : bool := (INT_MIN <=? z) && (z <=? INT_MAX).

End CInt.

(* ------------------------------------------------------------------------- *)
(** ** The type [double] and <math.h> *)

Module Libm.

Definition double := float.

(** The value of a nonzero finite double is [±m·2^e], with the sign, the
    mantissa [m] and the exponent [e] that [Prim2SF] gives. *)
Definition two_pow (n : Z) : Z := Z.pow 2 n.

(** [(double)z] for an [int] (exact: every [int] is a double). *)
Definition of_int (z : Z) : double :=
  if z <? 0 then PrimFloat.opp (PrimFloat.of_uint63 (Uint63.of_Z (- z)))
  else PrimFloat.of_uint63 (Uint63.of_Z z).

(** An integral double of sign [s] and magnitude [n < 2^63]. *)
Definition integral (s : bool) (n : Z) : double :=
  let v := PrimFloat.of_uint63 (Uint63.of_Z n) in
  if s then PrimFloat.opp v else v.

(** [floor], [ceil] and [round] (halfway cases away from zero, whatever the
    rounding direction of the environment). Zeros, infinities and NaN are
    returned as they are, and so is a double whose exponent is not
    negative: it is integral already. *)
Definition floor (x : double) : double :=
  match Prim2SF x with
  | S754_finite s m e =>
      if 0 <=? e then x
      else let d := two_pow (- e) in
           let q := Z.pos m / d in
           let r := Z.pos m mod d in
           if s then integral true (if r =? 0 then q else q + 1)
           else integral false q
  | _ => x
  end.

Definition ceil (x : double) : double :=
  match Prim2SF x with
  | S754_finite s m e =>
      if 0 <=? e then x
      else let d := two_pow (- e) in
           let q := Z.pos m / d in
           let r := Z.pos m mod d in
           if s then integral true q
           else integral false (if r =? 0 then q else q + 1)
  | _ => x
  end.

Definition round (x : double) : double :=
  match Prim2SF x with
  | S754_finite s m e =>
      if 0 <=? e then x
      else let d := two_pow (- e) in
           let q := Z.pos m / d in
           let r := Z.pos m mod d in
           integral s (if d <=? 2 * r then q + 1 else q)
  | _ => x
  end.

(** [(int)x]: truncation toward zero; [INT_MIN] where C leaves the
    conversion undefined. *)
Definition to_int (x : double) : Z :=
  match Prim2SF x with
  | S754_zero _ => 0
  | S754_finite s m e =>
      let mag := if 0 <=? e then Z.pos m * two_pow e
                 else Z.pos m / two_pow (- e) in
      let v := if s then - mag else mag in
      if CInt.in_range v then v else CInt.INT_MIN
  | _ => CInt.INT_MIN
  end.

(** [pow(x, 2)], as the correctly rounded square: it is exact whenever the
    square is a double, which is all the claims below rely on. (Where the
    square is not a double, the [pow] of a libm may return the neighbouring
    double.) *)
Definition pow2 (x : double) : double := PrimFloat.mul x x.

(** The exact value of a finite double as a fraction [num / 2^k] or
    [num·2^k / 1]: numerator and denominator. *)
Definition exact (x : double) : option (Z * Z) :=
  match Prim2SF x with
  | S754_zero _ => Some (0, 1)
  | S754_finite s m e =>
      let n := if s then Z.neg m else Z.pos m in
      Some (if 0 <=? e then (n * two_pow e, 1) else (n, two_pow (- e)))
  | _ => None
  end.

(** The double nearest to [±n/d] ([0 <= n], [0 < d]), ties to even;
    infinity when the quotient is beyond the largest double. *)
Definition nearest (s : bool) (n d : Z) : double :=
  if n =? 0 then (if s then PrimFloat.neg_zero else PrimFloat.zero)
  else
    let l0 := Z.log2 n - Z.log2 d in
    (* l = floor (log2 (n/d)) *)
    let below := if 0 <=? l0 then n <? d * two_pow l0
                 else n * two_pow (- l0) <? d in
    let l := if below then l0 - 1 else l0 in
    let e := Z.max (l - 52) (-1074) in
    let num := if 0 <=? e then n else n * two_pow (- e) in
    let den := if 0 <=? e then d * two_pow e else d in
    let q := num / den in
    let r := num mod den in
    let q' := if (den <? 2 * r) || ((den =? 2 * r) && Z.odd q)
              then q + 1 else q in
    let v := Z.ldexp (PrimFloat.of_uint63 (Uint63.of_Z q')) e in
    if s then PrimFloat.opp v else v.

End Libm.

(* ------------------------------------------------------------------------- *)
(** ** <stdio.h> and <stdlib.h>: [sprintf] with [%d] and [%.Nf], [atof] *)

Module Libc.
Import Libm.
Local Open Scope string_scope.
Local Open Scope Z_scope.

Definition digit_char (d : Z) : ascii := ascii_of_nat (48 + Z.to_nat d).

Fixpoint decimal_go (fuel : nat) (n : Z) (acc : string) : string :=
  match fuel with
  | O => acc
  | S fuel' =>
      let acc' := String (digit_char (n mod 10)) acc in
      if n <? 10 then acc' else decimal_go fuel' (n / 10) acc'
  end.

(** The decimal digits of [n >= 0] (a number has no more decimal digits
    than binary ones). *)
Definition decimal (n : Z) : string :=
  decimal_go (S (Z.to_nat (Z.log2 n))) n "".

(** [%d] *)
Definition format_d (n : Z) : string :=
  if n <? 0 then "-" ++ decimal (- n) else decimal n.

Fixpoint zeros (n : nat) : string :=
  match n with O => "" | S n' => String "0" (zeros n') end.

Definition pad_zeros (width : nat) (s : string) : string :=
  zeros (width - String.length s) ++ s.

(** [n / 10^prec] printed with [prec] digits after the point. *)
Definition fixed (prec : Z) (n : Z) : string :=
  let p := Z.pow 10 prec in
  decimal (n / p) ++
  (if prec =? 0 then ""
   else "." ++ pad_zeros (Z.to_nat prec) (decimal (n mod p))).

Definition sign_string (s : bool) : string := if s then "-" else "".

(** [%.<prec>f]: the exact value rounded to [prec] decimals, ties to even
    (glibc rounds the exact binary value in the current rounding
    direction). *)
Definition format_f (prec : Z) (x : double) : string :=
  match Prim2SF x with
  | S754_nan => "nan"
  | S754_infinity s => sign_string s ++ "inf"
  | S754_zero s => sign_string s ++ fixed prec 0
  | S754_finite s m e =>
      let num := Z.pos m * Z.pow 10 prec in
      let n :=
        if 0 <=? e then num * two_pow e
        else let d := two_pow (- e) in
             let q := num / d in
             let r := num mod d in
             if (d <? 2 * r) || ((d =? 2 * r) && Z.odd q) then q + 1 else q in
      sign_string s ++ fixed prec n
  end.

Definition is_digit (c : ascii) : bool :=
  let n := nat_of_ascii c in (48 <=? n)%nat && (n <=? 57)%nat.

Definition digit_val (c : ascii) : Z := Z.of_nat (nat_of_ascii c) - 48.

(** Reads a run of decimal digits: its value, its length, and what
    follows. *)
Fixpoint read_digits (s : string) (acc : Z) (len : Z) : Z * Z * string :=
  match s with
  | String c rest =>
      if is_digit c then read_digits rest (10 * acc + digit_val c) (len + 1)
      else (acc, len, s)
  | EmptyString => (acc, len, s)
  end.

(** [sprintf(format, "%%.%df", digits)] *)
Definition sprintf_format (digits : Z) : string :=
  "%." ++ format_d digits ++ "f".

(** The precision of a format of the shape [%.<n>f]. *)
Definition parse_format (format : string) : option Z :=
  match format with
  | String "%" (String "." rest) =>
      match read_digits rest 0 0 with
      | (prec, _, "f") => Some prec
      | _ => None
      end
  | _ => None
  end.

(** [sprintf(buf, format, val)] for a format of the shape [%.<n>f]; any
    other text is copied as it is. *)
Definition sprintf_double (format : string) (val : double) : string :=
  match parse_format format with
  | Some prec => format_f prec val
  | None => format
  end.

Definition is_space (c : ascii) : bool :=
  let n := nat_of_ascii c in (n =? 32)%nat || ((9 <=? n)%nat && (n <=? 13)%nat).

Fixpoint skip_spaces (s : string) : string :=
  match s with
  | String c rest => if is_space c then skip_spaces rest else s
  | EmptyString => s
  end.

Definition lower (c : ascii) : ascii :=
  let n := nat_of_ascii c in
  if (65 <=? n)%nat && (n <=? 90)%nat then ascii_of_nat (n + 32) else c.

Fixpoint starts_with_ci (p s : string) : bool :=
  match p, s with
  | EmptyString, _ => true
  | String a p', String b s' => Ascii.eqb a (lower b) && starts_with_ci p' s'
  | _, _ => false
  end.

(** [atof]: [strtod] on optional blanks, an optional sign, then [inf],
    [nan], or decimal digits with an optional point and an optional
    exponent; the result is the nearest double; [0] when nothing is
    converted. (Hexadecimal input is not modelled: [%f] never prints it.) *)
Definition atof (s : string) : double :=
  let s0 := skip_spaces s in
  let '(neg, s1) :=
    match s0 with
    | String "-" t => (true, t)
    | String "+" t => (false, t)
    | _ => (false, s0)
    end in
  if starts_with_ci "inf" s1
  then (if neg then PrimFloat.neg_infinity else PrimFloat.infinity)
  else if starts_with_ci "nan" s1 then PrimFloat.nan
  else
    let '(ip, ni, s2) := read_digits s1 0 0 in
    let '(fp, nf, s3) :=
      match s2 with
      | String "." t => read_digits t 0 0
      | _ => (0, 0, s2)
      end in
    if ni + nf =? 0 then PrimFloat.zero
    else
      let mant := ip * Z.pow 10 nf + fp in
      let ex :=
        match s3 with
        | String c t =>
            if Ascii.eqb (lower c) "e" then
              let '(eneg, t') :=
                match t with
                | String "-" u => (true, u)
                | String "+" u => (false, u)
                | _ => (false, t)
                end in
              match read_digits t' 0 0 with
              | (v, len, _) => if len =? 0 then 0 else if eneg then - v else v
              end
            else 0
        | EmptyString => 0
        end in
      let sh := ex - nf in
      if 0 <=? sh then nearest neg (mant * Z.pow 10 sh) 1
      else nearest neg mant (Z.pow 10 (- sh)).

End Libc.

(* ------------------------------------------------------------------------- *)
(** ** The run-time state and the monad of C functions *)

Module World.
Import Libm.

(** A pointer is NULL ([None]) or the address of an object. *)
Definition addr := positive.
Definition pointer := option addr.
Definition NULL : pointer := None.

(** [hmLineLen] of Harklemath.h *)
Record hmLineLen := mk_hmLineLen {
  xCoord : Z;       (* Absolute x coordinate *)
  yCoord : Z;       (* Absolute y coordinate *)
  dist : double     (* Distance from the current point *)
}.

(** Modelled from the spec: the macro HARKLE_ERROR of Harklerror.h, which is
    not among the sources. The specification treats it as the capability to
    report a failure with a tag, a triple (component, operation, reason),
    advisory only: it never throws and never aborts the caller. A report is
    an event, and so is a line of text sent to stderr. *)
Inductive event :=
| HARKLE_ERROR (library function reason : string)
| to_stderr (text : string).

Record world := mk_world {
  maxPrec_static : Z;               (* [static int maxPrec] of calc_precision *)
  retVal_static : Z;                (* [static int retVal] of calc_max_precision *)
  rounding : Z;                     (* rounding direction of the fenv *)
  events : list event;              (* newest first *)
  ints : gmap addr Z;               (* the [int] objects *)
  lines : gmap addr hmLineLen;      (* the [hmLineLen] objects *)
  calloc_outcomes : list bool       (* whether the next allocations succeed *)
}.

Definition set_maxPrec_static (v : Z) (w : world) : world :=
  mk_world v (retVal_static w) (rounding w) (events w) (ints w) (lines w)
           (calloc_outcomes w).
Definition set_retVal_static (v : Z) (w : world) : world :=
  mk_world (maxPrec_static w) v (rounding w) (events w) (ints w) (lines w)
           (calloc_outcomes w).
Definition set_rounding (v : Z) (w : world) : world :=
  mk_world (maxPrec_static w) (retVal_static w) v (events w) (ints w) (lines w)
           (calloc_outcomes w).
Definition set_events (v : list event) (w : world) : world :=
  mk_world (maxPrec_static w) (retVal_static w) (rounding w) v (ints w) (lines w)
           (calloc_outcomes w).
Definition set_ints (v : gmap addr Z) (w : world) : world :=
  mk_world (maxPrec_static w) (retVal_static w) (rounding w) (events w) v (lines w)
           (calloc_outcomes w).
Definition set_lines (v : gmap addr hmLineLen) (w : world) : world :=
  mk_world (maxPrec_static w) (retVal_static w) (rounding w) (events w) (ints w) v
           (calloc_outcomes w).
Definition set_calloc_outcomes (v : list bool) (w : world) : world :=
  mk_world (maxPrec_static w) (retVal_static w) (rounding w) (events w) (ints w)
           (lines w) v.

(** A computation: a result and the next world, or nothing. *)
Definition M (A : Type) : Type := world -> option (A * world).

Definition ret {A} (a : A) : M A := fun w => Some (a, w).
Definition bind {A B} (m : M A) (k : A -> M B) : M B :=
  fun w => match m w with
           | Some (a, w') => k a w'
           | None => None
           end.
(** Undefined behaviour, or a loop out of budget. *)
Definition stuck {A} : M A := fun _ => None.

Declare Scope M_scope.
Delimit Scope M_scope with M.
Bind Scope M_scope with M.
Notation "x <- m ;; k" := (bind m (fun x => k))
  (at level 20, m at level 99, k at level 200, only parsing) : M_scope.
Notation "' p <- m ;; k" := (bind m (fun x => match x with p => k end))
  (at level 20, p pattern, m at level 99, k at level 200, only parsing)
  : M_scope.
Notation "m ;; k" := (bind m (fun _ => k))
  (at level 100, k at level 200, right associativity, only parsing) : M_scope.
Local Open Scope M_scope.

(** *** Reports *)
(** Modelled from the spec: HARKLE_ERROR(library, function, reason) records
    the triple and returns to the caller. *)
Definition report (library function reason : string) : M unit :=
  fun w => Some (tt, set_events (HARKLE_ERROR library function reason :: events w) w).
Definition fprintf_stderr (text : string) : M unit :=
  fun w => Some (tt, set_events (to_stderr text :: events w) w).

(** *** Static variables *)
Definition get_maxPrec : M Z := fun w => Some (maxPrec_static w, w).
Definition put_maxPrec (v : Z) : M unit := fun w => Some (tt, set_maxPrec_static v w).
Definition get_retVal : M Z := fun w => Some (retVal_static w, w).
Definition put_retVal (v : Z) : M unit := fun w => Some (tt, set_retVal_static v w).

(** *** <fenv.h> (the values of the macros are those of glibc on x86-64) *)
Definition FE_TONEAREST : Z := 0.
Definition FE_DOWNWARD : Z := 1024.
Definition FE_UPWARD : Z := 2048.
Definition FE_TOWARDZERO : Z := 3072.

Definition fegetround : M Z := fun w => Some (rounding w, w).
(** Returns zero when the direction is supported and now in force. *)
Definition fesetround (r : Z) : M Z :=
  fun w =>
    if (r =? FE_TONEAREST) || (r =? FE_DOWNWARD) || (r =? FE_UPWARD)
       || (r =? FE_TOWARDZERO)
    then Some (0, set_rounding r w)
    else Some (1, w).

(** *** Objects reached through pointers *)
Definition load_int (p : pointer) : M Z :=
  fun w => match p with
           | Some a => match ints w !! a with
                       | Some v => Some (v, w)
                       | None => None
                       end
           | None => None
           end.
Definition store_int (p : pointer) (v : Z) : M unit :=
  fun w => match p with
           | Some a => match ints w !! a with
                       | Some _ => Some (tt, set_ints (<[a := v]> (ints w)) w)
                       | None => None
                       end
           | None => None
           end.
Definition load_line (p : pointer) : M hmLineLen :=
  fun w => match p with
           | Some a => match lines w !! a with
                       | Some v => Some (v, w)
                       | None => None
                       end
           | None => None
           end.
Definition store_line (p : pointer) (v : hmLineLen) : M unit :=
  fun w => match p with
           | Some a => match lines w !! a with
                       | Some _ => Some (tt, set_lines (<[a := v]> (lines w)) w)
                       | None => None
                       end
           | None => None
           end.
(** [p->xCoord = v], [p->yCoord = v], [p->dist = v] *)
Definition store_xCoord (p : pointer) (v : Z) : M unit :=
  l <- load_line p ;; store_line p (mk_hmLineLen v (yCoord l) (dist l)).
Definition store_yCoord (p : pointer) (v : Z) : M unit :=
  l <- load_line p ;; store_line p (mk_hmLineLen (xCoord l) v (dist l)).
Definition store_dist (p : pointer) (v : double) : M unit :=
  l <- load_line p ;; store_line p (mk_hmLineLen (xCoord l) (yCoord l) v).

(** *** Arrays of doubles on the heap *)
(** [calloc(n, sizeof(double))]: a zeroed array, or NULL. *)
Definition calloc (n : Z) : M (option (list double)) :=
  fun w => match calloc_outcomes w with
           | true :: rest =>
               Some (Some (replicate (Z.to_nat n) PrimFloat.zero),
                     set_calloc_outcomes rest w)
           | false :: rest => Some (None, set_calloc_outcomes rest w)
           | [] => Some (None, w)
           end.
(** [buf[i] = v] *)
Definition store_elem (buf : option (list double)) (i : Z) (v : double)
  : M (option (list double)) :=
  match buf with
  | Some l =>
      if (0 <=? i) && (i <? Z.of_nat (length l))
      then ret (Some (<[Z.to_nat i := v]> l))
      else stuck
  | None => stuck
  end.

(** *** Character buffers *)
(** A string written with its terminator into a buffer of [size] bytes. *)
Definition write_buffer (size : Z) (s : string) : M string :=
  if Z.of_nat (String.length s) + 1 <=? size then ret s else stuck.

(** *** Loops *)
(** [while (cond) body]: [fuel] bounds the number of iterations. *)
Fixpoint while {S} (fuel : nat) (cond : S -> bool) (body : S -> M S) (s : S)
  : M S :=
  if cond s then
    match fuel with
    | O => stuck
    | Datatypes.S fuel' => s' <- body s ;; while fuel' cond body s'
    end
  else ret s.

(** [while (1) body], left through [break]. *)
Inductive flow (S : Type) := Continue (s : S) | Break (s : S).
Arguments Continue {S} s.
Arguments Break {S} s.

Fixpoint forever {S} (fuel : nat) (body : S -> M (flow S)) (s : S) : M S :=
  match fuel with
  | O => stuck
  | Datatypes.S fuel' =>
      r <- body s ;;
      match r with
      | Break s' => ret s'
      | Continue s' => forever fuel' body s'
      end
  end.

(** [a || b] with [b] evaluated only when [a] is false. *)
Definition orM (a b : M bool) : M bool :=
  x <- a ;; if x then ret true else b.

End World.

(* ------------------------------------------------------------------------- *)
(** ** Harklemath.c *)

Module Harklemath.
Import Libm Libc World.
Local Open Scope string_scope.
Local Open Scope Z_scope.
Local Open Scope M_scope.
#[local] Set Warnings "-inexact-float".

(** *** Macros of Harklemath.h and Harklemath.c *)
Definition DBL_PRECISION : Z := 15.
Definition HM_RND : Z := FE_TONEAREST.
Definition HM_UP : Z := FE_UPWARD.
Definition HM_DWN : Z := FE_DOWNWARD.
Definition HM_IN : Z := FE_TOWARDZERO.
Definition HM_UP_LEFT : Z := 1.
Definition HM_UP_RIGHT : Z := 2.
Definition HM_LOW_LEFT : Z := 3.
Definition HM_LOW_RIGHT : Z := 4.
Definition HARKLEMATH_MAX_TRIES : Z := 3.

Definition DBL_GRTR (x y : double) : bool := (y <? x)%float.
Definition DBL_EQUAL (x y : double) : bool := (x =? y)%float.
(** [!x] for a double. *)
Definition is_zero (x : double) : bool := (x =? 0)%float.

(** <float.h> *)
Definition DBL_MANT_DIG : Z := 53.
Definition DBL_MIN_EXP : Z := -1021.

(** *** Local helper functions *)

(** The iteration budgets of the two loops: each stops at the latest when
    [num2] has become zero, after fewer than 400 divisions by ten. *)
Definition calc_max_precision_budget : nat := 400.

Definition calc_max_precision : M Z :=
  let num1 := 1.0%float in
  retVal <- get_retVal ;;
  if retVal =? 0 then
    (* Determine digits of accuracy in calculation *)
    '(num2, counter) <-
      while calc_max_precision_budget
        (fun '(num2, counter) => negb (num1 + num2 =? num1)%float)
        (fun '(num2, counter) => ret ((num2 / 10.0)%float, CInt.add counter 1))
        (1.0%float, 0) ;;
    (* Reset temp variables *)
    put_retVal counter ;;
    (* Determine digits of accuracy in storage *)
    '(num2, counter, result) <-
      forever calc_max_precision_budget
        (fun '(num2, counter, result) =>
           let result := (num1 + num2)%float in
           if (result =? num1)%float then ret (Break (num2, counter, result))
           else ret (Continue ((num2 / 10.0)%float, CInt.add counter 1, result)))
        (1.0%float, 0, 0%float) ;;
    (* Determine which accuracy count is least-specific *)
    retVal <- get_retVal ;;
    (if counter <? retVal then put_retVal counter else ret tt) ;;
    get_retVal
  else ret retVal.

Definition truncate_double (val : double) (digits : Z) : M double :=
  if digits =? 0 then ret val
  else if (digits <? 0) || (1074 <? digits) then
    report "Harklemath" "truncate_double" "Invalid number of digits" ;;
    ret 0%float
  else
    (* char format[9]; char dbleBuff[3 + DBL_MANT_DIG - DBL_MIN_EXP + 1] *)
    format <- write_buffer 9 (sprintf_format digits) ;;
    dbleBuff <- write_buffer (3 + DBL_MANT_DIG - DBL_MIN_EXP + 1)
                             (sprintf_double format val) ;;
    ret (atof dbleBuff).

(** *** Floating point functions *)

Definition round_a_dble (roundMe : double) (rndDir : Z) : M Z :=
  (* INPUT VALIDATION *)
  success <-
    (if (of_int CInt.INT_MAX * 1.0 <? roundMe)%float then
       report "Harklemath" "round_a_dble" "int overflow" ;; ret false
     else if (roundMe <? of_int CInt.INT_MIN * 1.0)%float then
       report "Harklemath" "round_a_dble" "int underflow" ;; ret false
     else ret true) ;;
  (* DETERMINE ROUNDING DIRECTION *)
  '(success, restoreNeeded, currState) <-
    (if success then
       if (rndDir =? HM_RND) || (rndDir =? HM_IN) then
         currState <- fegetround ;;
         failed <- orM (rc <- fesetround rndDir ;; ret (negb (rc =? 0)))
                       (now <- fegetround ;; ret (negb (now =? rndDir))) ;;
         if failed then
           report "Harklemath" "round_a_dble" "fesetround failed" ;;
           ret (false, true, currState)
         else ret (true, true, currState)
       else ret (true, false, 0)
     else ret (false, false, 0)) ;;
  (* ROUND *)
  retVal <-
    (if success then
       if rndDir =? HM_UP then ret (to_int (round (ceil roundMe)))
       else if rndDir =? HM_DWN then ret (to_int (round (floor roundMe)))
       else ret (to_int (round roundMe))
     else ret 0) ;;
  (* CLEAN UP *)
  (if restoreNeeded then
     rc <- fesetround currState ;;
     if negb (rc =? 0) then
       report "Harklemath" "round_a_dble" "fesetround failed"
     else ret tt
   else ret tt) ;;
  ret retVal.

Definition calc_precision (precision : Z) : M double :=
  (* CALC MAX PRECISION *)
  maxPrec <- get_maxPrec ;;
  success <-
    (if maxPrec =? 0 then
       maxPrec <- calc_max_precision ;;
       put_maxPrec maxPrec ;;
       if maxPrec =? 0 then
         report "Harklemath" "calc_precision" "calc_max_precision failed" ;;
         ret false
       else ret true
     else ret true) ;;
  maxPrec <- get_maxPrec ;;
  (* INPUT VALIDATION *)
  '(success, currPrec) <-
    (if success then
       if precision <? 1 then
         report "Harklemath" "calc_precision" "Invalid precision" ;;
         ret (false, 0)
       else if maxPrec <? precision then ret (true, maxPrec)
       else ret (true, precision)
     else ret (false, 0)) ;;
  (* CREATE PRECISION MASK *)
  if success then
    '(retVal, counter) <-
      while (Z.to_nat currPrec)
        (fun '(retVal, counter) => (0 <? currPrec) && (counter <? currPrec))
        (fun '(retVal, counter) => ret ((retVal * 0.1)%float, CInt.add counter 1))
        (1.0%float, 0) ;;
    ret retVal
  else ret 0.0%float.

Definition dble_greater_than (x y : double) (precision : Z) : M bool :=
  (* INPUT VALIDATION *)
  success <-
    (if precision <? 1 then
       report "Harklemath" "dble_greater_than" "Invalid precision" ;; ret false
     else ret true) ;;
  (* CALC PRECISION *)
  '(success, dbleMask) <-
    (if success then
       dbleMask <- calc_precision precision ;;
       if is_zero dbleMask then
         report "Harklemath" "dble_greater_than" "calc_precision failed" ;;
         ret (false, dbleMask)
       else ret (true, dbleMask)
     else ret (false, 0%float)) ;;
  (* COMPARE DOUBLES *)
  if success then
    ret ((y <? x)%float && (y + dbleMask <? x + dbleMask)%float
         && (y - dbleMask <? x - dbleMask)%float)
  else ret false.

Definition dble_less_than (x y : double) (precision : Z) : M bool :=
  xVal <- truncate_double x precision ;;
  yVal <- truncate_double y precision ;;
  (* INPUT VALIDATION *)
  success <-
    (if precision <? 1 then
       report "Harklemath" "dble_greater_than" "Invalid precision" ;; ret false
     else ret true) ;;
  (* CALC PRECISION *)
  '(success, dbleMask) <-
    (if success then
       dbleMask <- calc_precision precision ;;
       if is_zero dbleMask then
         report "Harklemath" "dble_greater_than" "calc_precision failed" ;;
         ret (false, dbleMask)
       else ret (true, dbleMask)
     else ret (false, 0%float)) ;;
  (* COMPARE DOUBLES *)
  if success then ret (xVal <? yVal)%float else ret false.

Definition dble_equal_to (x y : double) (precision : Z) : M bool :=
  (* INPUT VALIDATION *)
  success <-
    (if precision <? 1 then
       report "Harklemath" "dble_greater_than" "Invalid precision" ;; ret false
     else ret true) ;;
  (* CALC PRECISION *)
  '(success, dbleMask) <-
    (if success then
       dbleMask <- calc_precision precision ;;
       if is_zero dbleMask then
         report "Harklemath" "dble_greater_than" "calc_precision failed" ;;
         ret (false, dbleMask)
       else ret (true, dbleMask)
     else ret (false, 0%float)) ;;
  (* COMPARE DOUBLES *)
  if success then
    ret ((y <? x + dbleMask)%float && (x - dbleMask <? y)%float
         && (x <? y + dbleMask)%float && (y - dbleMask <? x)%float)
  else ret false.

Definition dble_not_equal (x y : double) (precision : Z) : M bool :=
  eq <- dble_equal_to x y precision ;;
  if eq then ret false else ret true.

Definition dble_greater_than_equal_to (x y : double) (precision : Z) : M bool :=
  retVal <- dble_equal_to x y precision ;;
  orM (ret retVal) (dble_greater_than x y precision).

Definition dble_less_than_equal_to (x y : double) (precision : Z) : M bool :=
  retVal <- dble_equal_to x y precision ;;
  orM (ret retVal) (dble_less_than x y precision).

(** *** Geometric functions *)

Definition calc_ellipse_x_coord (aVal bVal yVal : double) : M double :=
  (* INPUT VALIDATION *)
  success <-
    (if DBL_EQUAL aVal 0%float then
       report "Harklemath" "calc_ellipse_y_coord" "aVal is zero" ;; ret false
     else if DBL_EQUAL bVal 0%float then
       report "Harklemath" "calc_ellipse_y_coord" "bVal is zero" ;; ret false
     else if DBL_GRTR yVal bVal then
       report "Harklemath" "calc_ellipse_y_coord" "xVal is greater than aVal" ;;
       ret false
     else ret true) ;;
  (* CALC Y COORD *)
  if success then
    let xVal := (bVal * bVal)%float in
    let xVal := (xVal - yVal * yVal)%float in
    let xVal := PrimFloat.sqrt xVal in
    let xVal := (xVal * aVal)%float in
    let xVal := (xVal / bVal)%float in
    ret (PrimFloat.abs xVal)
  else ret 0%float.

Definition calc_ellipse_y_coord (aVal bVal xVal : double) : M double :=
  (* INPUT VALIDATION *)
  success <-
    (if DBL_EQUAL aVal 0%float then
       report "Harklemath" "calc_ellipse_y_coord" "aVal is zero" ;; ret false
     else if DBL_EQUAL bVal 0%float then
       report "Harklemath" "calc_ellipse_y_coord" "bVal is zero" ;; ret false
     else if DBL_GRTR xVal aVal then
       report "Harklemath" "calc_ellipse_y_coord" "xVal is greater than aVal" ;;
       ret false
     else ret true) ;;
  (* CALC Y COORD *)
  if success then
    let yVal := (aVal * aVal)%float in
    let yVal := (yVal - xVal * xVal)%float in
    let yVal := PrimFloat.sqrt yVal in
    let yVal := (yVal * bVal)%float in
    let yVal := (yVal / aVal)%float in
    ret (PrimFloat.abs yVal)
  else ret 0%float.

(** The locals the coordinate loop of [plot_ellipse_points] changes. *)
Record plot_locals := mk_plot_locals {
  count : Z;
  majPnt : double;
  flipIt : double;
  retVal : option (list double)
}.

(** One turn of [while (count < numPoints)]. *)
Definition plot_ellipse_step (chooseX : bool) (aAbs bAbs : double)
    (majAbs numPoints : Z) (l : plot_locals) : M plot_locals :=
  let '(mk_plot_locals count majPnt flipIt retVal) := l in
  if chooseX then
    (* Starting point on the major axis *)
    let majPnt := if count =? 0 then of_int (CInt.mul (-1) majAbs) else majPnt in
    (* Set the x-point for this coordinate in the array *)
    retVal <- store_elem retVal count majPnt ;;
    let count := CInt.add count 1 in
    (* Set y-pont for this coordinate in the array *)
    y <- calc_ellipse_y_coord aAbs bAbs majPnt ;;
    retVal <- store_elem retVal count (flipIt * y)%float ;;
    let count := CInt.add count 1 in
    (* Continue incrementing along the major axis *)
    if CInt.div numPoints 2 <? count then
      ret (mk_plot_locals count (majPnt - 1)%float (-1)%float retVal)
    else
      ret (mk_plot_locals count (majPnt + 1)%float 1%float retVal)
  else
    (* Starting point on the major axis *)
    let majPnt := if count =? 0 then 0%float else majPnt in
    let flipIt := if count =? 0 then (-1)%float else flipIt in
    (* Set x in the array *)
    x <- calc_ellipse_x_coord aAbs bAbs majPnt ;;
    retVal <- store_elem retVal count (flipIt * x)%float ;;
    let count := CInt.add count 1 in
    (* Set y in the array *)
    retVal <- store_elem retVal count majPnt ;;
    (* Continue incrementing along the major axis *)
    if count <=? CInt.div numPoints 4 then
      ret (mk_plot_locals count (majPnt + 1)%float (-1)%float retVal)
    else if count <=? CInt.div (CInt.mul 3 numPoints) 4 then
      ret (mk_plot_locals count (majPnt - 1)%float 1%float retVal)
    else
      ret (mk_plot_locals count (majPnt + 1)%float (-1)%float retVal).

Definition plot_ellipse_points (aVal bVal : double) (numPnts : pointer)
  : M (option (list double)) :=
  (* INPUT VALIDATION *)
  aZero <- dble_equal_to aVal 0%float DBL_PRECISION ;;
  success <-
    (if aZero then
       report "Harklemath" "plot_ellipse_points" "aVal is zero" ;; ret false
     else
       bZero <- dble_equal_to bVal 0%float DBL_PRECISION ;;
       if bZero then
         report "Harklemath" "plot_ellipse_points" "bVal is zero" ;; ret false
       else if bool_decide (numPnts = NULL) then
         report "Harklemath" "plot_ellipse_points" "NULL pointer" ;; ret false
       else store_int numPnts 0 ;; ret true) ;;
  (* DETERMINE MAJOR AXIS *)
  less <- dble_less_than aVal bVal DBL_PRECISION ;;
  let chooseX := negb less in
  (* DETERMINE NUMBER OF POINTS *)
  '(success, aAbs, bAbs, majAbs, numPoints) <-
    (if success then
       _ <- dble_not_equal (PrimFloat.abs aVal)
              (of_int (to_int (PrimFloat.abs aVal)) * 1.0)%float DBL_PRECISION ;;
       let aAbs := PrimFloat.abs aVal in
       _ <- dble_not_equal (PrimFloat.abs bVal)
              (of_int (to_int (PrimFloat.abs bVal)) * 1.0)%float DBL_PRECISION ;;
       let bAbs := PrimFloat.abs bVal in
       let majAbs := if chooseX then to_int aAbs else to_int bAbs in
       (* majAbs is 1/2 the major axis, 4 for the four quadrants, 2 because
          each coordinate pair is represented by two doubles *)
       let numPoints := CInt.mul (CInt.mul majAbs 4) 2 in
       if (numPoints <? 8) || negb (CInt.rem numPoints 4 =? 0) then
         report "Harklemath" "plot_ellipse_points" "Number of points miscalculated" ;;
         ret (false, aAbs, bAbs, majAbs, numPoints)
       else ret (true, aAbs, bAbs, majAbs, numPoints)
     else ret (false, 0%float, 0%float, 0, 0)) ;;
  (* ALLOCATE BUFFER *)
  '(success, retVal) <-
    (if success then
       '(retVal, numTries) <-
         while (Z.to_nat HARKLEMATH_MAX_TRIES)
           (fun '(retVal, numTries) =>
              (numTries <? HARKLEMATH_MAX_TRIES)
              && negb (bool_decide (is_Some retVal)))
           (fun '(retVal, numTries) =>
              retVal <- calloc numPoints ;; ret (retVal, CInt.add numTries 1))
           (None, 0) ;;
       if negb (bool_decide (is_Some retVal)) then
         report "Harklemath" "plot_ellipse_points" "calloc failed" ;;
         ret (false, retVal)
       else ret (true, retVal)
     else ret (false, None)) ;;
  (* CALCULATE COORDINATE PAIRS *)
  l <- while (Z.to_nat numPoints)
         (fun l => count l <? numPoints)
         (plot_ellipse_step chooseX aAbs bAbs majAbs numPoints)
         (mk_plot_locals 0 0%float 1%float retVal) ;;
  (* WRAP UP/CLEAN UP *)
  if success then
    store_int numPnts numPoints ;; ret (Harklemath.retVal l)
  else
    (* a buffer, if any, is zeroed and freed *)
    ret None.

Definition determine_center (width height : Z) (xCoord yCoord : pointer)
    (orientWin : Z) : M bool :=
  (* INPUT VALIDATION *)
  '(retVal, realOrientWin) <-
    (if width <? 3 then
       report "Harklemath" "determine_center" "Invalid width" ;; ret (false, 0)
     else if height <? 3 then
       report "Harklemath" "determine_center" "Invalid height" ;; ret (false, 0)
     else if bool_decide (xCoord = NULL) || bool_decide (yCoord = NULL) then
       report "Harklemath" "determine_center" "NULL pointer" ;; ret (false, 0)
     else
       store_int xCoord 0 ;;
       store_int yCoord 0 ;;
       if (orientWin =? HM_UP_LEFT) || (orientWin =? HM_UP_RIGHT)
          || (orientWin =? HM_LOW_LEFT) || (orientWin =? HM_LOW_RIGHT)
       then ret (true, orientWin)
       else ret (true, HM_UP_LEFT)) ;;
  (* CALCUALTE CENTER *)
  if retVal then
    (* Width *)
    let realWidth :=
      if negb (Z.land width 1 =? 0) then width
      else if (realOrientWin =? HM_UP_RIGHT) || (realOrientWin =? HM_LOW_RIGHT)
           then CInt.add width 1
           else CInt.sub width 1 in
    store_int xCoord (CInt.add (CInt.div (CInt.sub realWidth 1) 2) 1) ;;
    (* Height *)
    let realHeight :=
      if negb (Z.land height 1 =? 0) then height
      else if (realOrientWin =? HM_LOW_LEFT) || (realOrientWin =? HM_LOW_RIGHT)
           then CInt.add height 1
           else CInt.sub height 1 in
    store_int yCoord (CInt.add (CInt.div (CInt.sub realHeight 1) 2) 1) ;;
    ret true
  else ret false.

Definition calc_int_point_dist (xCoord1 yCoord1 xCoord2 yCoord2 : Z) : double :=
  if negb (xCoord1 =? xCoord2) || negb (yCoord1 =? yCoord2) then
    PrimFloat.sqrt (pow2 (of_int (CInt.sub xCoord2 xCoord1))
                    + pow2 (of_int (CInt.sub yCoord2 yCoord1)))%float
  else 0.0%float.

Definition calc_int_point_slope (xCoord1 yCoord1 xCoord2 yCoord2 : Z) : double :=
  if (negb (xCoord1 =? xCoord2) || negb (yCoord1 =? yCoord2))
     && negb (CInt.sub xCoord2 xCoord1 =? 0)
  then (of_int (CInt.sub yCoord2 yCoord1) / of_int (CInt.sub xCoord2 xCoord1))%float
  else 0.0%float.

Definition determine_mid_point (point1_ptr point2_ptr midPoint_ptr : pointer)
    (rndDbl : Z) : M bool :=
  (* INPUT VALIDATION *)
  success <-
    (if bool_decide (point1_ptr = NULL) then
       report "Harkleswarm" "determine_mid_point" "Invalid point1_ptr" ;; ret false
     else if bool_decide (point2_ptr = NULL) then
       report "Harkleswarm" "determine_mid_point" "Invalid point2_ptr" ;; ret false
     else if bool_decide (midPoint_ptr = NULL) then
       report "Harkleswarm" "determine_mid_point" "Invalid midPoint_ptr" ;; ret false
     else if bool_decide (point1_ptr = point2_ptr) then
       report "Harkleswarm" "determine_mid_point"
              "Duplicate points do not have a midpoint" ;;
       ret false
     else
       p1 <- load_line point1_ptr ;;
       p2 <- load_line point2_ptr ;;
       if (xCoord p1 =? xCoord p2) && (yCoord p1 =? yCoord p2) then
         report "Harkleswarm" "determine_mid_point"
                "Duplicate coordinates do not have a midpoint" ;;
         ret false
       else ret true) ;;
  (* CALCULATE MIDPOINT *)
  if success then
    p1 <- load_line point1_ptr ;;
    p2 <- load_line point2_ptr ;;
    (* 2. Calculate distance *)
    let distance := calc_int_point_dist (xCoord p1) (yCoord p1) (xCoord p2) (yCoord p2) in
    (* 3. Solve *)
    let rawX := (0.5 * of_int (CInt.abs (CInt.sub (xCoord p2) (xCoord p1))))%float in
    let rawY := (0.5 * of_int (CInt.abs (CInt.sub (yCoord p2) (yCoord p1))))%float in
    (* 4. Assign *)
    x <- round_a_dble rawX rndDbl ;;
    store_xCoord midPoint_ptr x ;;
    p1 <- load_line point1_ptr ;;
    p2 <- load_line point2_ptr ;;
    m <- load_line midPoint_ptr ;;
    (if xCoord p2 <? xCoord p1
     then store_xCoord midPoint_ptr (CInt.add (xCoord m) (xCoord p2))
     else store_xCoord midPoint_ptr (CInt.add (xCoord m) (xCoord p1))) ;;
    y <- round_a_dble rawY rndDbl ;;
    store_yCoord midPoint_ptr y ;;
    p1 <- load_line point1_ptr ;;
    p2 <- load_line point2_ptr ;;
    m <- load_line midPoint_ptr ;;
    (if yCoord p2 <? yCoord p1
     then store_yCoord midPoint_ptr (CInt.add (yCoord m) (yCoord p2))
     else store_yCoord midPoint_ptr (CInt.add (yCoord m) (yCoord p1))) ;;
    store_dist midPoint_ptr (distance / 2)%float ;;
    ret true
  else ret false.

Definition solve_point_slope_x (knownX1 knownY1 knownY0 : Z) (slope : double)
    (rndDbl : Z) : M Z :=
  (* INPUT VALIDATION *)
  ne <- dble_not_equal slope 0.0%float DBL_PRECISION ;;
  if ne then
    (* SOLVE *)
    let tempX0 := (of_int (CInt.sub knownY0 knownY1) / slope + of_int knownX1)%float in
    unknownX0 <- round_a_dble tempX0 rndDbl ;;
    ret unknownX0
  else ret 0.

(** The body of [solve_point_slope_y] ends with the assignment to the local
    [unknownY0]: there is no [return] statement, so the function hands no
    value to its caller ([None]). *)
Definition solve_point_slope_y (knownX1 knownY1 knownX0 : Z) (slope : double)
    (rndDbl : Z) : M (option Z) :=
  (* SOLVE *)
  let tempY0 := (slope * of_int (CInt.sub knownX0 knownX1) + of_int knownY1)%float in
  unknownY0 <- round_a_dble tempY0 rndDbl ;;
  ret None.

(** The line [fprintf(stderr, "Points A, B, and C form a line\n")] prints. *)
Definition line_notice : string :=
  "Points A, B, and C form a line" ++ String (ascii_of_nat 10) EmptyString.

Definition calculate_triangle_area (AX AY BX BY CX CY : Z) : M double :=
  if ((AX =? BX) && (AY =? BY)) || ((AX =? CX) && (AY =? CY))
     || ((BX =? CX) && (BY =? CY)) then
    report "Harkleswarm" "calculate_triangle_area"
           "Duplicate coordinates are not a triangle" ;;
    ret (-1.0)%float
  else if ((AX =? BX) && (AX =? CX)) || ((AY =? BY) && (AY =? CY)) then
    report "Harkleswarm" "calculate_triangle_area"
           "Line coordinates are not a triangle" ;;
    ret (-1.0)%float
  else
    (* 1. Calculate the triangle's semiperimeter *)
    let lenAB := calc_int_point_dist AX AY BX BY in
    let lenBC := calc_int_point_dist BX BY CX CY in
    let lenCA := calc_int_point_dist CX CY AX AY in
    let semiPerm := ((lenAB + lenBC + lenCA) / 2)%float in
    (* 2. Check for a line *)
    line <- orM (dble_equal_to semiPerm lenAB DBL_PRECISION)
                (orM (dble_equal_to semiPerm lenBC DBL_PRECISION)
                     (dble_equal_to semiPerm lenCA DBL_PRECISION)) ;;
    (if line then fprintf_stderr line_notice else ret tt) ;;
    (* 2. Heron's formula *)
    ret (PrimFloat.sqrt
           (semiPerm * ((semiPerm - lenAB) * (semiPerm - lenBC)
                        * (semiPerm - lenCA))))%float.

(** *** Further geometric functions *)

Definition verify_slope (xCoord1 yCoord1 xCoord2 yCoord2 : Z) (slope : double)
    (maxPrec : Z) : M bool :=
  (* 1. Calculate their slope *)
  let calcSlope := calc_int_point_slope xCoord1 yCoord1 xCoord2 yCoord2 in
  zero <- dble_equal_to 0.0%float calcSlope DBL_PRECISION ;;
  if zero then
    report "Harkleswarm" "verify_slope" "calc_int_point_slope failed" ;;
    ret false
  else
    matches <- dble_equal_to calcSlope slope maxPrec ;;
    if matches then ret true else ret false.

(** The line [fprintf(stderr, "Triangle Centroid == (%d, %d)\n", x, y)]
    prints. *)
Definition centroid_line (x y : Z) : string :=
  "Triangle Centroid == (" ++ format_d x ++ ", " ++ format_d y ++ ")"
  ++ String (ascii_of_nat 10) EmptyString.

Definition determine_triangle_centroid
    (point1_ptr point2_ptr point3_ptr centerPoint_ptr : pointer) (rndDbl : Z)
  : M bool :=
  (* INPUT VALIDATION *)
  success <-
    (if bool_decide (point1_ptr = NULL) then
       report "Harkleswarm" "determine_triangle_center" "Invalid point1_ptr" ;;
       ret false
     else if bool_decide (point2_ptr = NULL) then
       report "Harkleswarm" "determine_triangle_center" "Invalid point2_ptr" ;;
       ret false
     else if bool_decide (point3_ptr = NULL) then
       report "Harkleswarm" "determine_triangle_center" "Invalid point3_ptr" ;;
       ret false
     else if bool_decide (centerPoint_ptr = NULL) then
       report "Harkleswarm" "determine_triangle_center" "Invalid centerPoint_ptr" ;;
       ret false
     else if bool_decide (point1_ptr = point2_ptr)
             || bool_decide (point1_ptr = point3_ptr)
             || bool_decide (point2_ptr = point3_ptr) then
       report "Harkleswarm" "determine_triangle_center"
              "Duplicate points can not form a triangle" ;;
       ret false
     else
       p1 <- load_line point1_ptr ;;
       p2 <- load_line point2_ptr ;;
       p3 <- load_line point3_ptr ;;
       if ((xCoord p1 =? xCoord p2) && (yCoord p1 =? yCoord p2))
          || ((xCoord p1 =? xCoord p3) && (yCoord p1 =? yCoord p3))
          || ((xCoord p2 =? xCoord p3) && (yCoord p2 =? yCoord p3)) then
         report "Harkleswarm" "determine_triangle_center"
                "Duplicate coordinates are not a triangle" ;;
         ret false
       else ret true) ;;
  (* CALCULATE TRIANGLE CENTER *)
  if success then
    p1 <- load_line point1_ptr ;;
    p2 <- load_line point2_ptr ;;
    p3 <- load_line point3_ptr ;;
    (* Calculate coordinates *)
    let tmpX :=
      (of_int (CInt.add (CInt.add (xCoord p1) (xCoord p2)) (xCoord p3)) / 3)%float in
    let tmpY :=
      (of_int (CInt.add (CInt.add (yCoord p1) (yCoord p2)) (yCoord p3)) / 3)%float in
    (* Round coordinates *)
    x <- round_a_dble tmpX rndDbl ;;
    store_xCoord centerPoint_ptr x ;;
    y <- round_a_dble tmpY rndDbl ;;
    store_yCoord centerPoint_ptr y ;;
    c <- load_line centerPoint_ptr ;;
    fprintf_stderr (centroid_line (xCoord c) (yCoord c)) ;;
    ret true
  else ret false.

Definition verify_triangle (AX AY BX BY CX CY xCoord yCoord : Z) (maxPrec : Z)
  : M bool :=
  (* 1. Determine all areas *)
  areaABcoord <- calculate_triangle_area AX AY BX BY xCoord yCoord ;;
  areaBCcoord <- calculate_triangle_area BX BY CX CY xCoord yCoord ;;
  areaCAcoord <- calculate_triangle_area CX CY AX AY xCoord yCoord ;;
  areaABC <- calculate_triangle_area AX AY BX BY CX CY ;;
  (* 2. Verify all areas *)
  negAB <- dble_less_than areaABcoord 0.0%float maxPrec ;;
  if negAB then
    report "Harkleswarm" "verify_triangle"
           "calculate_triangle_area failed on triangle A B Coord" ;;
    ret false
  else
    negBC <- dble_less_than areaBCcoord 0.0%float maxPrec ;;
    if negBC then
      report "Harkleswarm" "verify_triangle"
             "calculate_triangle_area failed on triangle B C Coord" ;;
      ret false
    else
      negCA <- dble_less_than areaCAcoord 0.0%float maxPrec ;;
      if negCA then
        report "Harkleswarm" "verify_triangle"
               "calculate_triangle_area failed on triangle C A Coord" ;;
        ret false
      else
        negABC <- dble_less_than areaABC 0.0%float maxPrec ;;
        if negABC then
          report "Harkleswarm" "verify_triangle"
                 "calculate_triangle_area failed on triangle A B C" ;;
          ret false
        else
          (* 3. Compare all areas *)
          same <- dble_equal_to areaABC
                    (areaABcoord + areaBCcoord + areaCAcoord)%float maxPrec ;;
          if same then ret true else ret false.

(** *** Local helper functions, continued *)

Definition translate_plot_points (relX relY cntX cntY : Z) (absX absY : pointer)
  : M bool :=
  (* INPUT VALIDATION *)
  retVal <-
    (if bool_decide (absX = NULL) || bool_decide (absY = NULL) then
       report "Harklemath" "translate_plot_points" "NULL pointer" ;; ret false
     else if (cntX <? 1) || (cntY <? 1) then
       report "Harklemath" "translate_plot_points" "Invalid center coordinates" ;;
       ret false
     else if (CInt.add cntX relX <? 0) || (CInt.sub cntY relY <? 0) then
       report "Harklemath" "translate_plot_points" "Invalid relative coordinates" ;;
       ret false
     else store_int absX 0 ;; store_int absY 0 ;; ret true) ;;
  (* TRANSLATE COORDINATES *)
  if retVal then
    store_int absX (CInt.add cntX relX) ;;
    store_int absY (CInt.sub cntY relY) ;;
    ret true
  else ret false.

End Harklemath.

(* ------------------------------------------------------------------------- *)
(** ** Vocabulary of the properties *)

Module Spec.
Import Libm Libc World Harklemath.
Local Open Scope Z_scope.
#[local] Set Warnings "-inexact-float".

(** The world with one more report. *)
Definition reported (l f r : string) (w : world) : world :=
  set_events (HARKLE_ERROR l f r :: events w) w.

(** A pointer is valid when it is the address of an object of the heap. *)
Definition valid_line (p : pointer) (w : world) : Prop :=
  exists a, p = Some a /\ is_Some (lines w !! a).

(** The world a program starts in: statics zeroed, default rounding. *)
Definition initial_world : world :=
  mk_world 0 0 FE_TONEAREST [] ∅ ∅ [].

(** The machine ceiling: what [calc_max_precision] computes. *)
Definition machine_ceiling : Z :=
  Eval vm_compute in
    match calc_max_precision initial_world with
    | Some (c, _) => c
    | None => 0
    end.

(** The statics hold what the code can have stored in them, and the
    rounding direction is the default one. *)
Definition sane (w : world) : Prop :=
  rounding w = FE_TONEAREST
  /\ (maxPrec_static w = 0 \/ maxPrec_static w = machine_ceiling)
  /\ (retVal_static w = 0 \/ retVal_static w = machine_ceiling).

(** The world once the ceiling is cached. *)
Definition primed (w : world) : world :=
  if maxPrec_static w =? 0
  then set_maxPrec_static machine_ceiling (set_retVal_static machine_ceiling w)
  else w.

(** [10^-n] the way the specification defines the mask: [n] multiplications
    of [1.0] by [0.1]. *)
Definition tenth_power (n : nat) : double :=
  Nat.iter n (fun r => (r * 0.1)%float) 1.0%float.

(** The mask of a valid precision. *)
Definition mask (p : Z) : double :=
  tenth_power (Z.to_nat (Z.min p machine_ceiling)).

(** The window test of [dble_equal_to]. *)
Definition window (x y m : double) : bool :=
  (y <? x + m)%float && (x - m <? y)%float
  && (x <? y + m)%float && (y - m <? x)%float.

(** The exact value of a finite double, as a rational. *)
Definition value (x : double) : option Q :=
  match exact x with
  | Some (n, d) => Some (n # Z.to_pos d)
  | None => None
  end.

(** [x] is [q] up to the relative error [tol]. *)
Definition approximates (tol : Q) (x : double) (q : Q) : Prop :=
  exists v, value x = Some v /\ (Qabs (v - q) <= tol * q)%Q.

Definition approximatesb (tol : Q) (x : double) (q : Q) : bool :=
  match value x with
  | Some v => Qle_bool (Qabs (v - q)) (tol * q)
  | None => false
  end.

(** [10^-k] as a rational. *)
Definition pow10_neg (k : Z) : Q := 1 # Z.to_pos (10 ^ k).

(** A double is out of the range of [int]. *)
Definition out_of_int_range (x : double) : Prop :=
  (2147483647 <? x)%float = true \/ (x <? -2147483648)%float = true.

(** Whether the text [%.<p>f] prints for [x] fits [dbleBuff]. *)
Definition fits_dbleBuff (p : Z) (x : double) : bool :=
  Z.of_nat (String.length (format_f p x)) + 1 <=? 3 + DBL_MANT_DIG - DBL_MIN_EXP + 1.

(** What [round_a_dble] returns: 0 for a double out of the range of [int],
    otherwise the value rounded by [round] after [ceil], [floor] or nothing. *)
Definition round_value (roundMe : double) (rndDir : Z) : Z :=
  if (of_int CInt.INT_MAX * 1.0 <? roundMe)%float then 0
  else if (roundMe <? of_int CInt.INT_MIN * 1.0)%float then 0
  else if rndDir =? HM_UP then to_int (round (ceil roundMe))
  else if rndDir =? HM_DWN then to_int (round (floor roundMe))
  else to_int (round roundMe).

(** The center of a side of [dim] cells: the middle cell when [dim] is odd,
    otherwise the one of the two middle cells the orientation asks for. *)
Definition center_coord (dim : Z) (toward_high : bool) : Z :=
  if Z.odd dim then (dim - 1) / 2 + 1
  else if toward_high then dim / 2 + 1 else dim / 2.

Definition rightward (orientWin : Z) : bool :=
  (orientWin =? HM_UP_RIGHT) || (orientWin =? HM_LOW_RIGHT).
Definition lowward (orientWin : Z) : bool :=
  (orientWin =? HM_LOW_LEFT) || (orientWin =? HM_LOW_RIGHT).

(** Heron's formula on three side lengths. *)
Definition heron (a b c : double) : double :=
  let s := ((a + b + c) / 2)%float in
  PrimFloat.sqrt (s * ((s - a) * (s - b) * (s - c)))%float.

(** Two of the three vertices have the same coordinates. *)
Definition two_coincide (AX AY BX BY CX CY : Z) : Prop :=
  (AX = BX /\ AY = BY) \/ (AX = CX /\ AY = CY) \/ (BX = CX /\ BY = CY).

(** The three vertices share their x or their y coordinate. *)
Definition axis_aligned (AX AY BX BY CX CY : Z) : Prop :=
  (AX = BX /\ AX = CX) \/ (AY = BY /\ AY = CY).

(** When [determine_mid_point] refuses its arguments. *)
Definition mid_point_refused (point1_ptr point2_ptr midPoint_ptr : pointer)
    (w : world) : Prop :=
  point1_ptr = NULL \/ point2_ptr = NULL \/ midPoint_ptr = NULL
  \/ point1_ptr = point2_ptr
  \/ exists a1 a2 l1 l2,
       point1_ptr = Some a1 /\ point2_ptr = Some a2
       /\ lines w !! a1 = Some l1 /\ lines w !! a2 = Some l2
       /\ xCoord l1 = xCoord l2 /\ yCoord l1 = yCoord l2.

(** The three objects [determine_mid_point] works on exist. *)
Definition three_valid (a1 a2 am : addr) (w : world) : Prop :=
  is_Some (lines w !! a1) /\ is_Some (lines w !! a2) /\ is_Some (lines w !! am).

(** The midpoint [determine_mid_point] writes for two points, when the
    result is stored apart from them. *)
Definition mid_point_of (l1 l2 : hmLineLen) (rndDbl : Z) : hmLineLen :=
  let rawX := (0.5 * of_int (CInt.abs (CInt.sub (xCoord l2) (xCoord l1))))%float in
  let rawY := (0.5 * of_int (CInt.abs (CInt.sub (yCoord l2) (yCoord l1))))%float in
  mk_hmLineLen
    (CInt.add (round_value rawX rndDbl) (Z.min (xCoord l1) (xCoord l2)))
    (CInt.add (round_value rawY rndDbl) (Z.min (yCoord l1) (yCoord l2)))
    (calc_int_point_dist (xCoord l1) (yCoord l1) (xCoord l2) (yCoord l2) / 2)%float.

(** The point [(x, y)] satisfies [x²/a2 + y²/b2 = 1] up to [tol]. *)
Definition on_ellipse (a2 b2 : Z) (tol : Q) (x y : double) : Prop :=
  exists vx vy,
    value x = Some vx /\ value y = Some vy
    /\ (Qabs (vx * vx / inject_Z a2 + vy * vy / inject_Z b2 - 1) <= tol)%Q.

Definition on_ellipseb (a2 b2 : Z) (tol : Q) (x y : double) : bool :=
  match value x, value y with
  | Some vx, Some vy =>
      Qle_bool (Qabs (vx * vx / inject_Z a2 + vy * vy / inject_Z b2 - 1)) tol
  | _, _ => false
  end.

(** The coordinate pairs of a flat buffer [x0, y0, x1, y1, ...]. *)
Fixpoint pairs (buf : list double) : list (double * double) :=
  match buf with
  | x :: y :: rest => (x, y) :: pairs rest
  | _ => []
  end.

(** An allocation succeeds within the attempts [plot_ellipse_points] makes. *)
Definition calloc_succeeds (w : world) : Prop :=
  exists failures rest,
    calloc_outcomes w = failures ++ true :: rest
    /\ Forall (fun b => b = false) failures
    /\ Z.of_nat (length failures) < HARKLEMATH_MAX_TRIES.

(** The three comparisons of [dble_greater_than]. *)
Definition exceeds (x y m : double) : bool :=
  (y <? x)%float && (y + m <? x + m)%float && (y - m <? x - m)%float.

(** The world [round_a_dble] leaves: one report when the double is out of
    the range of [int], and nothing else. *)
Definition after_round (roundMe : double) (w : world) : world :=
  if (of_int CInt.INT_MAX * 1.0 <? roundMe)%float then
    reported "Harklemath" "round_a_dble" "int overflow" w
  else if (roundMe <? of_int CInt.INT_MIN * 1.0)%float then
    reported "Harklemath" "round_a_dble" "int underflow" w
  else w.

(** Three points [calculate_triangle_area] takes for no triangle. *)
Definition degenerate (AX AY BX BY CX CY : Z) : Prop :=
  two_coincide AX AY BX BY CX CY \/ axis_aligned AX AY BX BY CX CY.

(** When [determine_triangle_centroid] refuses its arguments. *)
Definition centroid_refused
    (point1_ptr point2_ptr point3_ptr centerPoint_ptr : pointer) (w : world)
  : Prop :=
  point1_ptr = NULL \/ point2_ptr = NULL \/ point3_ptr = NULL
  \/ centerPoint_ptr = NULL
  \/ point1_ptr = point2_ptr \/ point1_ptr = point3_ptr
  \/ point2_ptr = point3_ptr
  \/ exists a1 a2 a3 l1 l2 l3,
       point1_ptr = Some a1 /\ point2_ptr = Some a2 /\ point3_ptr = Some a3
       /\ lines w !! a1 = Some l1 /\ lines w !! a2 = Some l2
       /\ lines w !! a3 = Some l3
       /\ two_coincide (xCoord l1) (yCoord l1) (xCoord l2) (yCoord l2)
                       (xCoord l3) (yCoord l3).

(** What [plot_ellipse_points] takes for the major axis: y when
    [dble_less_than] answers that [aVal] is less than [bVal]. *)
Definition y_major (aVal bVal : double) : bool :=
  (atof (format_f DBL_PRECISION aVal) <? atof (format_f DBL_PRECISION bVal))%float.

(** The integral half of the major axis. *)
Definition half_axis (aVal bVal : double) : Z :=
  if y_major aVal bVal then to_int (PrimFloat.abs bVal)
  else to_int (PrimFloat.abs aVal).

(** Semi-axes [plot_ellipse_points] accepts: none is within the tolerance of
    zero, and eight doubles for each unit of the major half axis is a count
    the type [int] holds. *)
Definition accepted_axes (aVal bVal : double) : Prop :=
  window aVal 0%float (mask DBL_PRECISION) = false
  /\ window bVal 0%float (mask DBL_PRECISION) = false
  /\ 1 <= half_axis aVal bVal <= 268435455.

(** No allocation succeeds within the attempts [plot_ellipse_points] makes. *)
Definition calloc_fails (w : world) : Prop :=
  Forall (fun b => b = false)
         (take (Z.to_nat HARKLEMATH_MAX_TRIES) (calloc_outcomes w)).

(** The conversion [(int)x] is defined: the integral part of [x] is within
    the range of [int]. *)
Definition int_convertible (x : double) : Prop :=
  (-2147483649 <? x)%float = true /\ (x <? 2147483648)%float = true.

(** The rounding directions [fesetround] supports. *)
Definition supported_rounding (r : Z) : Prop :=
  r = FE_TONEAREST \/ r = FE_DOWNWARD \/ r = FE_UPWARD \/ r = FE_TOWARDZERO.

End Spec.

(* ------------------------------------------------------------------------- *)
(** * Proofs *)

Module CIntFacts.
Import CInt.

Lemma wrap_id z : INT_MIN <= z <= INT_MAX -> wrap z = z.
Proof.
  unfold wrap, INT_MIN, INT_MAX. intros Hz.
  rewrite Z.mod_small by lia. lia.
Qed.

Lemma wrap_range z : INT_MIN <= wrap z <= INT_MAX.
Proof.
  unfold wrap, INT_MIN, INT_MAX.
  pose proof (Z.mod_pos_bound (z + 2147483648) 4294967296 ltac:(lia)). lia.
Qed.

End CIntFacts.

(* ------------------------------------------------------------------------- *)
(** ** Running computations: equations for [bind], loops and the heap *)

Module Run.
Import Libm Libc World Spec.
Local Open Scope M_scope.

Lemma bind_Some {A B} (m : M A) (k : A -> M B) w a w' :
  m w = Some (a, w') -> bind m k w = k a w'.
Proof. unfold bind. intros ->. reflexivity. Qed.

Lemma bind_ret {A B} (a : A) (k : A -> M B) w : bind (ret a) k w = k a w.
Proof. reflexivity. Qed.

Lemma bind_assoc {A B C} (m : M A) (f : A -> M B) (g : B -> M C) w :
  bind (bind m f) g w = bind m (fun x => bind (f x) g) w.
Proof. unfold bind. destruct (m w) as [[a w']|]; reflexivity. Qed.

(** Symbolic execution: [mred] reduces what has become decided, [mret]
    passes a returned value on, [mcall] replaces a call by its result. *)
Ltac mred := cbv beta iota zeta.
Ltac mret := rewrite bind_ret; mred.
Ltac mcall tac := rewrite ?bind_assoc; erewrite bind_Some by tac; mred.

End Run.

(* ------------------------------------------------------------------------- *)
(** ** The precision engine *)

Module Precision.
Import Libm Libc World Harklemath Spec CIntFacts Run.
Local Open Scope Z_scope.
#[local] Set Warnings "-inexact-float".

Lemma machine_ceiling_eq : machine_ceiling = 16.
Proof. reflexivity. Qed.

Lemma calc_max_precision_fresh w :
  retVal_static w = 0 ->
  calc_max_precision w = Some (machine_ceiling, set_retVal_static machine_ceiling w).
Proof.
  intros H. destruct w as [mp rv rm ev hi hl co]. simpl in H. subst rv.
  vm_compute. reflexivity.
Qed.

Lemma calc_max_precision_cached w :
  retVal_static w = machine_ceiling ->
  calc_max_precision w = Some (machine_ceiling, w).
Proof.
  intros H. unfold calc_max_precision. unfold bind at 1. unfold get_retVal.
  rewrite H. reflexivity.
Qed.

Lemma sane_initial_world : sane initial_world.
Proof. unfold sane. simpl. repeat split; left; reflexivity. Qed.

Lemma sane_primed w : sane w -> sane (primed w).
Proof.
  intros (Hr & Hm & Hv). unfold primed.
  destruct (maxPrec_static w =? 0); [|repeat split; assumption].
  repeat split; simpl; auto.
Qed.

Lemma primed_primed w : sane w -> primed (primed w) = primed w.
Proof.
  intros _. unfold primed. destruct (maxPrec_static w =? 0) eqn:E.
  - reflexivity.
  - rewrite E. reflexivity.
Qed.

Lemma maxPrec_primed w : sane w -> maxPrec_static (primed w) = machine_ceiling.
Proof.
  intros (Hr & [Hm|Hm] & Hv); unfold primed; rewrite Hm; [reflexivity|exact Hm].
Qed.

(** The mask loop of [calc_precision]: [n] more turns multiply by [0.1]
    [n] times and leave the counter at [currPrec]. *)
Lemma mask_loop (currPrec : Z) (n : nat) : forall (r : double) (c : Z) (w : world),
  0 <= c -> c + Z.of_nat n = currPrec -> currPrec <= CInt.INT_MAX ->
  while n
    (fun '(retVal, counter) => (0 <? currPrec) && (counter <? currPrec))
    (fun '(retVal, counter) => ret ((retVal * 0.1)%float, CInt.add counter 1))
    (r, c) w
  = Some ((Nat.iter n (fun r => (r * 0.1)%float) r, currPrec), w).
Proof.
  set (cond := fun '(retVal, counter) => (0 <? currPrec) && (counter <? currPrec)).
  set (body := fun '(retVal, counter) =>
                 ret ((retVal * 0.1)%float, CInt.add counter 1)).
  induction n as [|n IH]; intros r c w Hc Hsum Hmax.
  - assert (Hcond : cond (r, c) = false).
    { unfold cond. rewrite andb_false_iff. right. apply Z.ltb_ge. lia. }
    cbn [while]. rewrite Hcond. replace c with currPrec by lia. reflexivity.
  - assert (Hcond : cond (r, c) = true).
    { unfold cond. rewrite andb_true_iff. split; apply Z.ltb_lt; lia. }
    assert (Hbody : body (r, c) = ret ((r * 0.1)%float, c + 1)).
    { unfold body, CInt.add.
      rewrite wrap_id by (unfold CInt.INT_MIN; lia). reflexivity. }
    cbn [while]. rewrite Hcond, Hbody, bind_ret.
    rewrite IH by lia. rewrite Nat.iter_succ_r. reflexivity.
Qed.

(** What [calc_precision] returns and leaves behind. *)
Lemma calc_precision_valid p w :
  sane w -> 1 <= p ->
  calc_precision p w = Some (mask p, primed w).
Proof.
  intros Hs Hp.
  assert (Hstep :
    forall w1, maxPrec_static w1 = machine_ceiling ->
      ('(success, currPrec) <-
         (if true then
            if p <? 1 then
              report "Harklemath" "calc_precision" "Invalid precision" ;;
              ret (false, 0)
            else if maxPrec_static w1 <? p then ret (true, maxPrec_static w1)
            else ret (true, p)
          else ret (false, 0)) ;;
       if success then
         '(retVal, counter) <-
           while (Z.to_nat currPrec)
             (fun '(retVal, counter) => (0 <? currPrec) && (counter <? currPrec))
             (fun '(retVal, counter) => ret ((retVal * 0.1)%float, CInt.add counter 1))
             (1.0%float, 0) ;;
         ret retVal
       else ret 0.0%float)%M w1 = Some (mask p, w1)).
  { intros w1 Hw1. rewrite Hw1.
    replace (p <? 1) with false by (symmetry; apply Z.ltb_ge; lia).
    unfold mask.
    destruct (machine_ceiling <? p) eqn:Hc.
    - apply Z.ltb_lt in Hc. rewrite bind_ret. cbv beta iota.
      erewrite bind_Some
        by (apply mask_loop; [lia | rewrite Z2Nat.id by (rewrite machine_ceiling_eq; lia); lia
                             | rewrite machine_ceiling_eq; unfold CInt.INT_MAX; lia]).
      rewrite Z.min_r by lia. reflexivity.
    - apply Z.ltb_ge in Hc. rewrite bind_ret. cbv beta iota.
      erewrite bind_Some
        by (apply mask_loop; [lia | rewrite Z2Nat.id by lia; lia
                             | rewrite machine_ceiling_eq in Hc; unfold CInt.INT_MAX; lia]).
      rewrite Z.min_l by lia. reflexivity. }
  unfold calc_precision.
  destruct Hs as (Hr & Hm & Hv). unfold primed.
  destruct Hm as [Hm|Hm].
  - rewrite Hm. change (0 =? 0) with true. cbv iota.
    assert (Hmax : exists w1,
               calc_max_precision w = Some (machine_ceiling, w1)
               /\ set_maxPrec_static machine_ceiling w1
                  = set_maxPrec_static machine_ceiling
                      (set_retVal_static machine_ceiling w)).
    { destruct Hv as [Hv|Hv].
      - eexists. split; [apply calc_max_precision_fresh; assumption|reflexivity].
      - eexists. split; [apply calc_max_precision_cached; assumption|].
        destruct w; simpl in *; subst; reflexivity. }
    destruct Hmax as (w1 & Hcall & Hw1).
    unfold bind at 1. unfold get_maxPrec at 1. rewrite Hm.
    change (0 =? 0) with true. cbv iota.
    unfold bind at 1. unfold bind at 1. rewrite Hcall.
    unfold bind at 1. unfold put_maxPrec at 1.
    change (machine_ceiling =? 0) with false. cbv iota.
    unfold ret at 1. cbv iota.
    unfold bind at 1. unfold get_maxPrec at 1.
    rewrite Hw1. apply Hstep. reflexivity.
  - rewrite Hm. change (machine_ceiling =? 0) with false. cbv iota.
    unfold bind at 1. unfold get_maxPrec at 1. rewrite Hm.
    change (machine_ceiling =? 0) with false. cbv iota. rewrite bind_ret.
    unfold bind at 1. unfold get_maxPrec at 1.
    apply Hstep. assumption.
Qed.

Lemma calc_precision_invalid p w :
  sane w -> p < 1 ->
  calc_precision p w
  = Some (0%float, reported "Harklemath" "calc_precision" "Invalid precision" (primed w)).
Proof.
  intros Hs Hp.
  assert (Hstep :
    forall w1,
      ('(success, currPrec) <-
         (if true then
            if p <? 1 then
              report "Harklemath" "calc_precision" "Invalid precision" ;;
              ret (false, 0)
            else if maxPrec_static w1 <? p then ret (true, maxPrec_static w1)
            else ret (true, p)
          else ret (false, 0)) ;;
       if success then
         '(retVal, counter) <-
           while (Z.to_nat currPrec)
             (fun '(retVal, counter) => (0 <? currPrec) && (counter <? currPrec))
             (fun '(retVal, counter) => ret ((retVal * 0.1)%float, CInt.add counter 1))
             (1.0%float, 0) ;;
         ret retVal
       else ret 0.0%float)%M w1
      = Some (0%float, reported "Harklemath" "calc_precision" "Invalid precision" w1)).
  { intros w1. replace (p <? 1) with true by (symmetry; apply Z.ltb_lt; lia).
    reflexivity. }
  unfold calc_precision.
  destruct Hs as (Hr & Hm & Hv). unfold primed.
  destruct Hm as [Hm|Hm].
  - rewrite Hm. change (0 =? 0) with true. cbv iota.
    assert (Hmax : exists w1,
               calc_max_precision w = Some (machine_ceiling, w1)
               /\ set_maxPrec_static machine_ceiling w1
                  = set_maxPrec_static machine_ceiling
                      (set_retVal_static machine_ceiling w)).
    { destruct Hv as [Hv|Hv].
      - eexists. split; [apply calc_max_precision_fresh; assumption|reflexivity].
      - eexists. split; [apply calc_max_precision_cached; assumption|].
        destruct w; simpl in *; subst; reflexivity. }
    destruct Hmax as (w1 & Hcall & Hw1).
    unfold bind at 1. unfold get_maxPrec at 1. rewrite Hm.
    change (0 =? 0) with true. cbv iota.
    unfold bind at 1. unfold bind at 1. rewrite Hcall.
    unfold bind at 1. unfold put_maxPrec at 1.
    change (machine_ceiling =? 0) with false. cbv iota.
    unfold ret at 1. cbv iota.
    unfold bind at 1. unfold get_maxPrec at 1.
    rewrite Hw1. apply Hstep.
  - rewrite Hm. change (machine_ceiling =? 0) with false. cbv iota.
    unfold bind at 1. unfold get_maxPrec at 1. rewrite Hm.
    change (machine_ceiling =? 0) with false. cbv iota. rewrite bind_ret.
    unfold bind at 1. unfold get_maxPrec at 1.
    apply Hstep.
Qed.

(** The precisions that matter: a valid precision acts as one of 1..16. *)
Lemma effective_precision p :
  1 <= p -> In (Z.min p machine_ceiling) (seqZ 1 16).
Proof.
  intros Hp. apply list_elem_of_In, elem_of_seqZ.
  rewrite machine_ceiling_eq. lia.
Qed.

(** A property of the sixteen masks, checked by evaluation, holds of the
    mask of every valid precision. *)
Lemma mask_forall (P : double -> bool) :
  forallb (fun k => P (tenth_power (Z.to_nat k))) (seqZ 1 16) = true ->
  forall p, 1 <= p -> P (mask p) = true.
Proof.
  intros Hall p Hp. rewrite forallb_forall in Hall.
  apply (Hall _ (effective_precision p Hp)).
Qed.

Lemma mask_nonzero p : 1 <= p -> is_zero (mask p) = false.
Proof.
  intros Hp. apply negb_true_iff.
  apply (mask_forall (fun m => negb (is_zero m))); [|assumption].
  vm_compute. reflexivity.
Qed.

End Precision.

(* ------------------------------------------------------------------------- *)
(** ** The tolerance comparators *)

Module Comparators.
Import Libm Libc World Harklemath Spec Run Precision.
Local Open Scope Z_scope.
#[local] Set Warnings "-inexact-float".

Lemma dble_equal_to_valid x y p w :
  sane w -> 1 <= p ->
  dble_equal_to x y p w = Some (window x y (mask p), primed w).
Proof.
  intros Hs Hp. unfold dble_equal_to.
  replace (p <? 1) with false by (symmetry; apply Z.ltb_ge; lia).
  mret. mcall ltac:(apply calc_precision_valid; assumption).
  rewrite mask_nonzero by assumption. mret. reflexivity.
Qed.

Lemma dble_equal_to_invalid x y p w :
  p < 1 ->
  dble_equal_to x y p w
  = Some (false, reported "Harklemath" "dble_greater_than" "Invalid precision" w).
Proof.
  intros Hp. unfold dble_equal_to.
  replace (p <? 1) with true by (symmetry; apply Z.ltb_lt; lia).
  reflexivity.
Qed.

Lemma dble_not_equal_valid x y p w :
  sane w -> 1 <= p ->
  dble_not_equal x y p w = Some (negb (window x y (mask p)), primed w).
Proof.
  intros Hs Hp. unfold dble_not_equal.
  mcall ltac:(apply dble_equal_to_valid; assumption).
  destruct (window x y (mask p)); reflexivity.
Qed.

Lemma truncate_double_sane val digits w r w' :
  truncate_double val digits w = Some (r, w') -> sane w -> sane w'.
Proof.
  unfold truncate_double, write_buffer, bind, ret, report, stuck.
  repeat match goal with
         | |- context [if ?c then _ else _] => destruct c
         end; intros H Hs; inversion H; subst; exact Hs.
Qed.

(** [dble_less_than] compares the two truncated values. *)
Lemma dble_less_than_valid x y p w xVal yVal w1 w2 :
  sane w -> 1 <= p ->
  truncate_double x p w = Some (xVal, w1) ->
  truncate_double y p w1 = Some (yVal, w2) ->
  dble_less_than x y p w = Some ((xVal <? yVal)%float, primed w2).
Proof.
  intros Hs Hp Hx Hy.
  assert (Hs2 : sane w2).
  { eapply truncate_double_sane; [exact Hy|].
    eapply truncate_double_sane; [exact Hx|exact Hs]. }
  unfold dble_less_than.
  mcall ltac:(exact Hx). mcall ltac:(exact Hy).
  replace (p <? 1) with false by (symmetry; apply Z.ltb_ge; lia).
  mret. mcall ltac:(apply calc_precision_valid; assumption).
  rewrite mask_nonzero by assumption. mret. reflexivity.
Qed.

End Comparators.

(* ------------------------------------------------------------------------- *)
(** ** Claims on the precision engine and the comparators *)

Module ComparatorClaims.
Import Libm Libc World Harklemath Spec Run Precision Comparators.
Local Open Scope Z_scope.
#[local] Set Warnings "-inexact-float".

Lemma approximatesb_sound tol x q :
  approximatesb tol x q = true -> approximates tol x q.
Proof.
  unfold approximatesb, approximates. destruct (value x) as [v|]; [|discriminate].
  intros H. exists v. split; [reflexivity|]. apply Qle_bool_iff. exact H.
Qed.

(** A property of the sixteen masks that depends on the precision too. *)
Lemma mask_forall_indexed (P : Z -> double -> bool) :
  forallb (fun k => P k (tenth_power (Z.to_nat k))) (seqZ 1 16) = true ->
  forall p, 1 <= p -> P (Z.min p machine_ceiling) (mask p) = true.
Proof.
  intros Hall p Hp. rewrite forallb_forall in Hall.
  apply (Hall _ (effective_precision p Hp)).
Qed.

Lemma mask_accurate p :
  1 <= p ->
  approximates (1 # 1000000000000000) (mask p) (pow10_neg (Z.min p machine_ceiling)).
Proof.
  intros Hp. apply approximatesb_sound.
  apply (mask_forall_indexed
           (fun k m => approximatesb (1 # 1000000000000000) m (pow10_neg k)));
    [|assumption].
  vm_compute. reflexivity.
Qed.

Lemma mask_decreasing p q :
  1 <= p -> p < q -> q <= machine_ceiling -> (mask q <? mask p)%float = true.
Proof.
  intros Hp Hpq Hq. rewrite machine_ceiling_eq in Hq.
  assert (Hall :
    forallb (fun a => forallb (fun b =>
               if a <? b then (mask b <? mask a)%float else true) (seqZ 1 16))
            (seqZ 1 16) = true) by (vm_compute; reflexivity).
  rewrite forallb_forall in Hall.
  assert (Hip : In p (seqZ 1 16)) by (apply list_elem_of_In, elem_of_seqZ; lia).
  assert (Hiq : In q (seqZ 1 16)) by (apply list_elem_of_In, elem_of_seqZ; lia).
  specialize (Hall p Hip). rewrite forallb_forall in Hall.
  specialize (Hall q Hiq).
  replace (p <? q) with true in Hall by (symmetry; apply Z.ltb_lt; lia).
  exact Hall.
Qed.

Lemma mask_constant p : machine_ceiling <= p -> mask p = mask machine_ceiling.
Proof.
  intros Hp. unfold mask. rewrite Z.min_r by assumption.
  rewrite Z.min_id. reflexivity.
Qed.

(** C2. In a world whose statics and rounding direction are what the code
    leaves in them, [calc_precision p] for a valid precision [p >= 1] returns
    the mask [10^-min(p, ceiling)]: the product of [min(p, ceiling)] factors
    [0.1], which is [10^-min(p, ceiling)] up to a relative error of
    [10^-15]; the mask decreases strictly as [p] grows up to the ceiling and
    stays the same beyond it; and the result is zero exactly when [p < 1]. *)
Theorem calc_precision_mask (w : world) (p : Z) :
  sane w ->
  exists v w',
    calc_precision p w = Some (v, w')
    /\ (is_zero v = true <-> p < 1)
    /\ (1 <= p ->
        v = tenth_power (Z.to_nat (Z.min p machine_ceiling))
        /\ approximates (1 # 1000000000000000) v (pow10_neg (Z.min p machine_ceiling))
        /\ (forall q v' w'', p < q -> q <= machine_ceiling ->
              calc_precision q w = Some (v', w'') -> (v' <? v)%float = true)
        /\ (forall q v' w'', machine_ceiling <= p -> p <= q ->
              calc_precision q w = Some (v', w'') -> v' = v)).
Proof.
  intros Hs. destruct (Z_lt_le_dec p 1) as [Hp|Hp].
  - exists 0%float, (reported "Harklemath" "calc_precision" "Invalid precision" (primed w)).
    split; [apply calc_precision_invalid; assumption|].
    split; [split; [intros _; assumption | intros _; reflexivity]|].
    intros Hp'. lia.
  - exists (mask p), (primed w).
    split; [apply calc_precision_valid; assumption|].
    split.
    { split; [|lia]. rewrite mask_nonzero by assumption. discriminate. }
    intros _. split; [reflexivity|]. split; [apply mask_accurate; assumption|].
    split.
    + intros q v' w'' Hpq Hq Hcall.
      rewrite calc_precision_valid in Hcall by (assumption || lia).
      inversion Hcall; subst. apply mask_decreasing; assumption.
    + intros q v' w'' Hc Hpq Hcall.
      rewrite calc_precision_valid in Hcall by (assumption || lia).
      inversion Hcall; subst.
      rewrite (mask_constant p), (mask_constant q) by lia. reflexivity.
Qed.

Lemma calc_precision_mask_witness :
  sane initial_world
  /\ exists v w',
       calc_precision 3 initial_world = Some (v, w')
       /\ (is_zero v = true <-> 3 < 1)
       /\ (1 <= 3 ->
           v = tenth_power (Z.to_nat (Z.min 3 machine_ceiling))
           /\ approximates (1 # 1000000000000000) v (pow10_neg (Z.min 3 machine_ceiling))
           /\ (forall q v' w'', 3 < q -> q <= machine_ceiling ->
                 calc_precision q initial_world = Some (v', w'') -> (v' <? v)%float = true)
           /\ (forall q v' w'', machine_ceiling <= 3 -> 3 <= q ->
                 calc_precision q initial_world = Some (v', w'') -> v' = v)).
Proof.
  pose proof sane_initial_world as Hs.
  split; [exact Hs|]. apply (calc_precision_mask initial_world 3 Hs).
Defined.

(** C3 (the code departs from it). [dble_equal_to 1.0 1.0 16] and
    [dble_equal_to 100.0 100.0 DBL_PRECISION] answer false: the mask is
    absorbed when it is added to [x], so [x + mask > x] fails. *)
Theorem dble_equal_to_not_reflexive (w : world) :
  sane w ->
  dble_equal_to 1%float 1%float 16 w = Some (false, primed w)
  /\ dble_equal_to 100%float 100%float DBL_PRECISION w = Some (false, primed w).
Proof.
  intros Hs. split.
  - rewrite dble_equal_to_valid by (assumption || lia).
    assert (window 1%float 1%float (mask 16) = false) as -> by (vm_compute; reflexivity).
    reflexivity.
  - rewrite dble_equal_to_valid by (assumption || (unfold DBL_PRECISION; lia)).
    assert (window 100%float 100%float (mask DBL_PRECISION) = false) as ->
      by (vm_compute; reflexivity).
    reflexivity.
Qed.

Lemma dble_equal_to_not_reflexive_witness :
  sane initial_world
  /\ dble_equal_to 1%float 1%float 16 initial_world
     = Some (false, primed initial_world)
  /\ dble_equal_to 100%float 100%float DBL_PRECISION initial_world
     = Some (false, primed initial_world).
Proof.
  pose proof sane_initial_world as Hs.
  split; [exact Hs|]. apply (dble_equal_to_not_reflexive initial_world Hs).
Defined.

(** C10. With an invalid precision [p < 1], [dble_equal_to] answers false
    on its validation failure and [dble_not_equal] returns the negation:
    true for every [x] and [y], and so for two identical values. *)
Theorem dble_not_equal_invalid_precision (x y : double) (p : Z) (w : world) :
  p < 1 ->
  dble_equal_to x y p w
  = Some (false, reported "Harklemath" "dble_greater_than" "Invalid precision" w)
  /\ dble_not_equal x y p w
     = Some (true, reported "Harklemath" "dble_greater_than" "Invalid precision" w)
  /\ dble_not_equal x x p w
     = Some (true, reported "Harklemath" "dble_greater_than" "Invalid precision" w).
Proof.
  intros Hp.
  assert (Hne : forall a b,
    dble_not_equal a b p w
    = Some (true, reported "Harklemath" "dble_greater_than" "Invalid precision" w)).
  { intros a b. unfold dble_not_equal.
    mcall ltac:(apply dble_equal_to_invalid; assumption). reflexivity. }
  split; [apply dble_equal_to_invalid; assumption|].
  split; apply Hne.
Qed.

Lemma dble_not_equal_invalid_precision_witness :
  0 < 1
  /\ dble_equal_to 2%float 2%float 0 initial_world
     = Some (false, reported "Harklemath" "dble_greater_than" "Invalid precision"
                             initial_world)
  /\ dble_not_equal 2%float 2%float 0 initial_world
     = Some (true, reported "Harklemath" "dble_greater_than" "Invalid precision"
                            initial_world)
  /\ dble_not_equal 2%float 2%float 0 initial_world
     = Some (true, reported "Harklemath" "dble_greater_than" "Invalid precision"
                            initial_world).
Proof.
  split; [lia|].
  apply (dble_not_equal_invalid_precision 2%float 2%float 0 initial_world). lia.
Defined.

End ComparatorClaims.

(* ------------------------------------------------------------------------- *)
(** ** Claims on rounding, truncation and the point-slope solver *)

Module RoundingClaims.
Import Libm Libc World Harklemath Spec Run Precision Comparators.
Local Open Scope Z_scope.
#[local] Set Warnings "-inexact-float".

(** C9. A double beyond [INT_MAX] or below [INT_MIN] is reported (as an
    overflow, resp. an underflow) and rounded to 0, whatever the rounding
    direction asked for; nothing else changes. *)
Theorem round_a_dble_out_of_range (roundMe : double) (rndDir : Z) (w : world) :
  out_of_int_range roundMe ->
  round_a_dble roundMe rndDir w
  = Some (0, reported "Harklemath" "round_a_dble"
                      (if (2147483647 <? roundMe)%float
                       then "int overflow" else "int underflow") w).
Proof.
  intros Hout. unfold round_a_dble.
  change (of_int CInt.INT_MAX * 1.0)%float with 2147483647%float.
  change (of_int CInt.INT_MIN * 1.0)%float with (-2147483648)%float.
  destruct (2147483647 <? roundMe)%float eqn:Hover.
  - reflexivity.
  - destruct Hout as [Hout|Hout]; [congruence|].
    rewrite Hout. reflexivity.
Qed.

Lemma round_a_dble_out_of_range_witness :
  out_of_int_range 3000000000%float
  /\ round_a_dble 3000000000%float HM_DWN initial_world
     = Some (0, reported "Harklemath" "round_a_dble"
                         (if (2147483647 <? 3000000000)%float
                          then "int overflow" else "int underflow") initial_world).
Proof.
  assert (Hout : out_of_int_range 3000000000%float) by (left; reflexivity).
  split; [exact Hout|].
  apply (round_a_dble_out_of_range 3000000000%float HM_DWN initial_world Hout).
Defined.

(** [round_a_dble] always returns, and touches neither the heap nor the
    statics. *)
Lemma round_a_dble_returns (roundMe : double) (rndDir : Z) (w : world) :
  exists n w',
    round_a_dble roundMe rndDir w = Some (n, w')
    /\ ints w' = ints w /\ lines w' = lines w
    /\ maxPrec_static w' = maxPrec_static w
    /\ retVal_static w' = retVal_static w
    /\ calloc_outcomes w' = calloc_outcomes w.
Proof.
  unfold round_a_dble, orM, bind, ret, report, fegetround, fesetround.
  repeat match goal with
         | |- context [if ?c then _ else _] => destruct c
         end;
    eexists _, _; (split; [reflexivity|]); simpl; auto.
Qed.

(** [round] pays no heed to the rounding direction: asked to round toward
    zero, [round_a_dble] still rounds 2.7 to 3. *)
Lemma round_a_dble_toward_zero (w : world) :
  sane w ->
  exists w', round_a_dble 2.7%float HM_IN w = Some (3, w').
Proof.
  intros (Hr & _). destruct w as [mp rv rm ev hi hl co]. simpl in Hr. subst rm.
  eexists. vm_compute. reflexivity.
Qed.

(** C4 (the code departs from it). [solve_point_slope_y] computes the
    rounded coordinate into its local [unknownY0] and ends: for every input
    it hands no value to its caller. *)
Theorem solve_point_slope_y_returns_nothing
    (knownX1 knownY1 knownX0 : Z) (slope : double) (rndDbl : Z) (w : world) :
  exists unknownY0 w',
    round_a_dble (slope * of_int (CInt.sub knownX0 knownX1) + of_int knownY1)%float
                 rndDbl w = Some (unknownY0, w')
    /\ solve_point_slope_y knownX1 knownY1 knownX0 slope rndDbl w = Some (None, w').
Proof.
  destruct (round_a_dble_returns
              (slope * of_int (CInt.sub knownX0 knownX1) + of_int knownY1)%float
              rndDbl w) as (n & w' & Hcall & _).
  exists n, w'. split; [exact Hcall|].
  unfold solve_point_slope_y. mcall ltac:(exact Hcall). reflexivity.
Qed.

(** Its sibling [solve_point_slope_x] does return what it rounded. *)
Lemma solve_point_slope_x_returns (w : world) :
  sane w ->
  exists w', solve_point_slope_x 0 0 2 1%float HM_RND w = Some (2, w').
Proof.
  intros Hs. unfold solve_point_slope_x.
  mcall ltac:(apply dble_not_equal_valid;
              [assumption | unfold DBL_PRECISION; lia]).
  assert (window 1%float 0%float (mask DBL_PRECISION) = false) as ->
    by (vm_compute; reflexivity).
  cbn [negb]. mred.
  destruct (sane_primed w Hs) as (Hr & _).
  destruct (primed w) as [mp rv rm ev hi hl co]. simpl in Hr. subst rm.
  eexists. vm_compute. reflexivity.
Qed.

Lemma sprintf_format_checked (p : Z) :
  1 <= p <= 1074 ->
  (Z.of_nat (String.length (sprintf_format p)) + 1 <=? 9) = true
  /\ parse_format (sprintf_format p) = Some p.
Proof.
  intros Hp.
  assert (Hall :
    forallb (fun k =>
               (Z.of_nat (String.length (sprintf_format k)) + 1 <=? 9)
               && match parse_format (sprintf_format k) with
                  | Some q => q =? k
                  | None => false
                  end) (seqZ 1 1074) = true) by (vm_compute; reflexivity).
  rewrite forallb_forall in Hall.
  assert (Hin : In p (seqZ 1 1074)) by (apply list_elem_of_In, elem_of_seqZ; lia).
  specialize (Hall p Hin). apply andb_true_iff in Hall as [Hlen Hparse].
  split; [exact Hlen|].
  destruct (parse_format (sprintf_format p)) as [q|]; [|discriminate].
  apply Z.eqb_eq in Hparse. congruence.
Qed.

(** For a number of digits in 1..1074, [truncate_double] prints the value
    with that many decimals and reads the text back, provided the text fits
    the buffer. *)
Lemma truncate_double_round_trip (val : double) (digits : Z) (w : world) :
  1 <= digits <= 1074 ->
  truncate_double val digits w
  = if fits_dbleBuff digits val
    then Some (atof (format_f digits val), w) else None.
Proof.
  intros Hd. destruct (sprintf_format_checked digits Hd) as [Hlen Hparse].
  unfold truncate_double.
  replace (digits =? 0) with false by (symmetry; apply Z.eqb_neq; lia).
  replace (digits <? 0) with false by (symmetry; apply Z.ltb_ge; lia).
  replace (1074 <? digits) with false by (symmetry; apply Z.ltb_ge; lia).
  cbn [orb]. unfold write_buffer at 1. rewrite Hlen. mret.
  unfold sprintf_double. rewrite Hparse.
  unfold write_buffer, fits_dbleBuff.
  destruct (Z.of_nat (String.length (format_f digits val)) + 1
            <=? 3 + DBL_MANT_DIG - DBL_MIN_EXP + 1); reflexivity.
Qed.


End RoundingClaims.

(* ------------------------------------------------------------------------- *)
(** ** Rectangle centering *)

Module CenterClaims.
Import Libm Libc World Harklemath Spec CIntFacts Run Precision.
Local Open Scope Z_scope.

Lemma store_int_ok (a : addr) (v : Z) (w : world) :
  is_Some (ints w !! a) ->
  store_int (Some a) v w = Some (tt, set_ints (<[a := v]> (ints w)) w).
Proof. intros [v0 Hv]. unfold store_int. rewrite Hv. reflexivity. Qed.

Lemma ints_insert_is_Some (a b : addr) (v : Z) (w : world) :
  is_Some (ints w !! b) ->
  is_Some (ints (set_ints (<[a := v]> (ints w)) w) !! b).
Proof.
  intros Hb. simpl. destruct (decide (a = b)) as [->|Hne].
  - rewrite lookup_insert_eq. eauto.
  - rewrite lookup_insert_ne by assumption. exact Hb.
Qed.

(** The arithmetic of the code on a side of [dim] cells is [center_coord]. *)
Lemma center_arithmetic (dim : Z) (high : bool) :
  3 <= dim <= CInt.INT_MAX ->
  CInt.add
    (CInt.div
       (CInt.sub
          (if negb (Z.land dim 1 =? 0) then dim
           else if high then CInt.add dim 1 else CInt.sub dim 1) 1) 2) 1
  = center_coord dim high.
Proof.
  unfold CInt.INT_MAX. intros Hdim.
  assert (Hland : Z.land dim 1 = dim mod 2) by (apply (Z.land_ones dim 1); lia).
  pose proof (Zmod_odd dim) as Hparity.
  pose proof (Z.div_mod dim 2 ltac:(lia)) as Hdm.
  assert (Hquot : forall z, 0 <= z -> Z.quot z 2 = z / 2)
    by (intros z Hz; apply Z.quot_div_nonneg; lia).
  assert (Hid : forall z, 0 <= z <= 2147483647 -> CInt.wrap z = z)
    by (intros z Hz; apply wrap_id; unfold CInt.INT_MIN, CInt.INT_MAX; lia).
  rewrite Hland, Hparity. unfold center_coord, CInt.add, CInt.sub, CInt.div.
  destruct (Z.odd dim); cbn [Z.eqb negb].
  - rewrite (Hid (dim - 1)) by lia. rewrite Hquot by lia.
    assert (Hhalf : (dim - 1) / 2 = dim / 2).
    { replace (dim - 1) with (2 * (dim / 2)) by lia.
      rewrite Z.mul_comm, Z.div_mul by lia. reflexivity. }
    rewrite Hhalf. rewrite (Hid (dim / 2)) by lia. apply Hid. lia.
  - destruct high.
    + rewrite (Hid (dim + 1)) by lia. rewrite (Hid (dim + 1 - 1)) by lia.
      rewrite Hquot by lia. replace (dim + 1 - 1) with dim by lia.
      rewrite (Hid (dim / 2)) by lia. apply Hid. lia.
    + rewrite (Hid (dim - 1)) by lia. rewrite (Hid (dim - 1 - 1)) by lia.
      rewrite Hquot by lia.
      assert (Hhalf : (dim - 1 - 1) / 2 = dim / 2 - 1).
      { replace (dim - 1 - 1) with (2 * (dim / 2 - 1)) by lia.
        rewrite Z.mul_comm, Z.div_mul by lia. reflexivity. }
      rewrite Hhalf. rewrite (Hid (dim / 2 - 1)) by lia.
      rewrite Hid by lia. lia.
Qed.

(** A rectangle too small is refused before anything is written. *)
Lemma determine_center_refused (width height : Z) (xCoord yCoord : pointer)
    (orientWin : Z) (w : world) :
  width < 3 \/ height < 3 ->
  determine_center width height xCoord yCoord orientWin w
  = Some (false,
          reported "Harklemath" "determine_center"
                   (if width <? 3 then "Invalid width" else "Invalid height") w).
Proof.
  intros Hsmall. unfold determine_center.
  destruct (width <? 3) eqn:Hw; [reflexivity|].
  apply Z.ltb_ge in Hw.
  replace (height <? 3) with true by (symmetry; apply Z.ltb_lt; lia).
  reflexivity.
Qed.

(** For a rectangle of at least 3 by 3 cells and two [int] objects to write
    to, [determine_center] stores the two centers (after zeroing both). *)
Lemma determine_center_valid (width height : Z) (px py : addr) (orientWin : Z)
    (w : world) :
  3 <= width <= CInt.INT_MAX -> 3 <= height <= CInt.INT_MAX ->
  is_Some (ints w !! px) -> is_Some (ints w !! py) ->
  determine_center width height (Some px) (Some py) orientWin w
  = Some (true,
          set_ints
            (<[py := center_coord height (lowward orientWin)]>
               (<[px := center_coord width (rightward orientWin)]>
                  (<[py := 0]> (<[px := 0]> (ints w))))) w).
Proof.
  intros Hw Hh Hx Hy. unfold determine_center.
  replace (width <? 3) with false by (symmetry; apply Z.ltb_ge; lia).
  replace (height <? 3) with false by (symmetry; apply Z.ltb_ge; lia).
  change (bool_decide (Some px = NULL) || bool_decide (Some py = NULL)) with false.
  mred.
  mcall ltac:(apply store_int_ok; assumption).
  mcall ltac:(apply store_int_ok, ints_insert_is_Some; assumption).
  assert (Hfinish : forall realOrientWin,
    rightward realOrientWin = rightward orientWin ->
    lowward realOrientWin = lowward orientWin ->
    bind (ret (true, realOrientWin))
      (fun x : bool * Z =>
         let (retVal, realOrientWin) := x in
         if retVal then
           let realWidth :=
             if negb (Z.land width 1 =? 0) then width
             else if (realOrientWin =? HM_UP_RIGHT) || (realOrientWin =? HM_LOW_RIGHT)
                  then CInt.add width 1 else CInt.sub width 1 in
           bind (store_int (Some px) (CInt.add (CInt.div (CInt.sub realWidth 1) 2) 1))
             (fun _ =>
                let realHeight :=
                  if negb (Z.land height 1 =? 0) then height
                  else if (realOrientWin =? HM_LOW_LEFT) || (realOrientWin =? HM_LOW_RIGHT)
                       then CInt.add height 1 else CInt.sub height 1 in
                bind (store_int (Some py)
                        (CInt.add (CInt.div (CInt.sub realHeight 1) 2) 1))
                  (fun _ => ret true))
         else ret false)
      (set_ints (<[py := 0]> (ints (set_ints (<[px := 0]> (ints w)) w)))
                (set_ints (<[px := 0]> (ints w)) w))
    = Some (true,
            set_ints
              (<[py := center_coord height (lowward orientWin)]>
                 (<[px := center_coord width (rightward orientWin)]>
                    (<[py := 0]> (<[px := 0]> (ints w))))) w)).
  { intros realOrientWin Hright Hlow. mret.
    change ((realOrientWin =? HM_UP_RIGHT) || (realOrientWin =? HM_LOW_RIGHT))
      with (rightward realOrientWin).
    change ((realOrientWin =? HM_LOW_LEFT) || (realOrientWin =? HM_LOW_RIGHT))
      with (lowward realOrientWin).
    rewrite Hright, Hlow, !center_arithmetic by assumption.
    mcall ltac:(apply store_int_ok; do 2 apply ints_insert_is_Some; assumption).
    mcall ltac:(apply store_int_ok; do 3 apply ints_insert_is_Some; assumption).
    reflexivity. }
  destruct ((orientWin =? HM_UP_LEFT) || (orientWin =? HM_UP_RIGHT)
            || (orientWin =? HM_LOW_LEFT) || (orientWin =? HM_LOW_RIGHT)) eqn:Hvalid.
  - apply Hfinish; reflexivity.
  - apply orb_false_iff in Hvalid as [Hvalid H4].
    apply orb_false_iff in Hvalid as [Hvalid H3].
    apply orb_false_iff in Hvalid as [H1 H2].
    apply Hfinish; unfold rightward, lowward; rewrite ?H2, ?H3, ?H4; reflexivity.
Qed.

(** C8. [determine_center] refuses a width or a height below 3 with a
    report and without writing anything; for a rectangle of 5 by 5 cells it
    writes (3, 3), and for one of 4 by 4 cells (2, 2) when biased to the upper
    left and (3, 3) when biased to the lower right. *)
Theorem determine_center_centers (px py : addr) (w : world) :
  is_Some (ints w !! px) -> is_Some (ints w !! py) -> px <> py ->
  (forall width height xCoord yCoord orientWin,
     width < 3 \/ height < 3 ->
     exists reason,
       determine_center width height xCoord yCoord orientWin w
       = Some (false, reported "Harklemath" "determine_center" reason w)
       /\ ints (reported "Harklemath" "determine_center" reason w) = ints w)
  /\ (exists w',
        determine_center 5 5 (Some px) (Some py) HM_UP_LEFT w = Some (true, w')
        /\ ints w' !! px = Some 3 /\ ints w' !! py = Some 3)
  /\ (exists w',
        determine_center 4 4 (Some px) (Some py) HM_UP_LEFT w = Some (true, w')
        /\ ints w' !! px = Some 2 /\ ints w' !! py = Some 2)
  /\ (exists w',
        determine_center 4 4 (Some px) (Some py) HM_LOW_RIGHT w = Some (true, w')
        /\ ints w' !! px = Some 3 /\ ints w' !! py = Some 3).
Proof.
  intros Hx Hy Hne.
  assert (Hcase : forall width height orientWin cx cy,
    3 <= width <= CInt.INT_MAX -> 3 <= height <= CInt.INT_MAX ->
    center_coord width (rightward orientWin) = cx ->
    center_coord height (lowward orientWin) = cy ->
    exists w',
      determine_center width height (Some px) (Some py) orientWin w = Some (true, w')
      /\ ints w' !! px = Some cx /\ ints w' !! py = Some cy).
  { intros width height orientWin cx cy Hw Hh Hcx Hcy.
    eexists. split; [apply determine_center_valid; assumption|].
    simpl. rewrite Hcx, Hcy. split.
    - rewrite lookup_insert_ne by congruence. apply lookup_insert_eq.
    - apply lookup_insert_eq. }
  split.
  { intros width height xCoord yCoord orientWin Hsmall.
    eexists. split; [apply determine_center_refused; assumption|reflexivity]. }
  split; [|split];
    apply Hcase; unfold CInt.INT_MAX; try lia; reflexivity.
Qed.

Lemma determine_center_centers_witness :
  let w := set_ints {[ 1%positive := 0; 2%positive := 0 ]} initial_world in
  is_Some (ints w !! 1%positive) /\ is_Some (ints w !! 2%positive)
  /\ 1%positive <> 2%positive
  /\ (forall width height xCoord yCoord orientWin,
        width < 3 \/ height < 3 ->
        exists reason,
          determine_center width height xCoord yCoord orientWin w
          = Some (false, reported "Harklemath" "determine_center" reason w)
          /\ ints (reported "Harklemath" "determine_center" reason w) = ints w)
  /\ (exists w',
        determine_center 5 5 (Some 1%positive) (Some 2%positive) HM_UP_LEFT w
        = Some (true, w')
        /\ ints w' !! 1%positive = Some 3 /\ ints w' !! 2%positive = Some 3)
  /\ (exists w',
        determine_center 4 4 (Some 1%positive) (Some 2%positive) HM_UP_LEFT w
        = Some (true, w')
        /\ ints w' !! 1%positive = Some 2 /\ ints w' !! 2%positive = Some 2)
  /\ (exists w',
        determine_center 4 4 (Some 1%positive) (Some 2%positive) HM_LOW_RIGHT w
        = Some (true, w')
        /\ ints w' !! 1%positive = Some 3 /\ ints w' !! 2%positive = Some 3).
Proof.
  intros w.
  assert (H1 : is_Some (ints w !! 1%positive)) by (exists 0; reflexivity).
  assert (H2 : is_Some (ints w !! 2%positive)) by (exists 0; reflexivity).
  assert (Hne : 1%positive <> 2%positive) by discriminate.
  split; [exact H1|]. split; [exact H2|]. split; [exact Hne|].
  apply (determine_center_centers 1%positive 2%positive w H1 H2 Hne).
Defined.

End CenterClaims.

(* ------------------------------------------------------------------------- *)
(** ** Midpoint of a line *)

Module MidPointClaims.
Import Libm Libc World Harklemath Spec CIntFacts Run Precision.
Local Open Scope Z_scope.
#[local] Set Warnings "-inexact-float".

(** [round_a_dble] returns [round_value] and leaves the heap alone. *)
Lemma round_a_dble_value (roundMe : double) (rndDir : Z) (w : world) :
  exists w',
    round_a_dble roundMe rndDir w = Some (round_value roundMe rndDir, w')
    /\ lines w' = lines w /\ ints w' = ints w.
Proof.
  unfold round_a_dble, round_value.
  destruct (of_int CInt.INT_MAX * 1.0 <? roundMe)%float;
    [eexists; split; [reflexivity|split; reflexivity]|].
  destruct (roundMe <? of_int CInt.INT_MIN * 1.0)%float;
    [eexists; split; [reflexivity|split; reflexivity]|].
  mret.
  destruct (rndDir =? HM_RND) eqn:Hrnd.
  { apply Z.eqb_eq in Hrnd. subst rndDir.
    unfold bind, orM, fegetround, fesetround, bind, ret, report. cbn -[to_int round].
    destruct ((rounding w =? FE_TONEAREST) || (rounding w =? FE_DOWNWARD)
              || (rounding w =? FE_UPWARD) || (rounding w =? FE_TOWARDZERO));
      eexists; (split; [reflexivity|split; reflexivity]). }
  destruct (rndDir =? HM_IN) eqn:Hin.
  { apply Z.eqb_eq in Hin. subst rndDir.
    unfold bind, orM, fegetround, fesetround, bind, ret, report. cbn -[to_int round].
    destruct ((rounding w =? FE_TONEAREST) || (rounding w =? FE_DOWNWARD)
              || (rounding w =? FE_UPWARD) || (rounding w =? FE_TOWARDZERO));
      eexists; (split; [reflexivity|split; reflexivity]). }
  cbn [orb]. mret.
  destruct (rndDir =? HM_UP); [eexists; split; [reflexivity|split; reflexivity]|].
  destruct (rndDir =? HM_DWN); eexists; (split; [reflexivity|split; reflexivity]).
Qed.

Lemma load_line_ok (a : addr) (l : hmLineLen) (w : world) :
  lines w !! a = Some l -> load_line (Some a) w = Some (l, w).
Proof. intros H. unfold load_line. rewrite H. reflexivity. Qed.

Lemma store_xCoord_ok (a : addr) (v : Z) (l : hmLineLen) (w : world) :
  lines w !! a = Some l ->
  store_xCoord (Some a) v w
  = Some (tt, set_lines (<[a := mk_hmLineLen v (yCoord l) (dist l)]> (lines w)) w).
Proof.
  intros H. unfold store_xCoord. mcall ltac:(apply load_line_ok; exact H).
  unfold store_line. rewrite H. reflexivity.
Qed.

Lemma store_yCoord_ok (a : addr) (v : Z) (l : hmLineLen) (w : world) :
  lines w !! a = Some l ->
  store_yCoord (Some a) v w
  = Some (tt, set_lines (<[a := mk_hmLineLen (xCoord l) v (dist l)]> (lines w)) w).
Proof.
  intros H. unfold store_yCoord. mcall ltac:(apply load_line_ok; exact H).
  unfold store_line. rewrite H. reflexivity.
Qed.

Lemma store_dist_ok (a : addr) (v : double) (l : hmLineLen) (w : world) :
  lines w !! a = Some l ->
  store_dist (Some a) v w
  = Some (tt, set_lines (<[a := mk_hmLineLen (xCoord l) (yCoord l) v]> (lines w)) w).
Proof.
  intros H. unfold store_dist. mcall ltac:(apply load_line_ok; exact H).
  unfold store_line. rewrite H. reflexivity.
Qed.

Lemma three_valid_insert a1 a2 am a v w :
  three_valid a1 a2 am w ->
  three_valid a1 a2 am (set_lines (<[a := v]> (lines w)) w).
Proof.
  assert (H : forall b, is_Some (lines w !! b) ->
                        is_Some (<[a := v]> (lines w) !! b)).
  { intros b Hb. destruct (decide (a = b)) as [->|Hne].
    - rewrite lookup_insert_eq. eauto.
    - rewrite lookup_insert_ne by assumption. exact Hb. }
  intros (H1 & H2 & H3). repeat split; simpl; apply H; assumption.
Qed.

Lemma step_round a1 a2 am x r w :
  three_valid a1 a2 am w ->
  exists n w', round_a_dble x r w = Some (n, w') /\ three_valid a1 a2 am w'.
Proof.
  intros Hv. destruct (round_a_dble_value x r w) as (w' & Hcall & Hl & _).
  exists (round_value x r), w'. split; [exact Hcall|].
  unfold three_valid. rewrite Hl. exact Hv.
Qed.

Lemma step_load a1 a2 am a w :
  three_valid a1 a2 am w -> is_Some (lines w !! a) ->
  exists l w', load_line (Some a) w = Some (l, w') /\ three_valid a1 a2 am w'.
Proof.
  intros Hv [l Hl]. exists l, w. split; [apply load_line_ok; exact Hl|exact Hv].
Qed.

Lemma step_store_xCoord a1 a2 am a v w :
  three_valid a1 a2 am w -> is_Some (lines w !! a) ->
  exists u w', store_xCoord (Some a) v w = Some (u, w') /\ three_valid a1 a2 am w'.
Proof.
  intros Hv [l Hl]. eexists tt, _.
  split; [apply store_xCoord_ok; exact Hl|apply three_valid_insert; exact Hv].
Qed.

Lemma step_store_yCoord a1 a2 am a v w :
  three_valid a1 a2 am w -> is_Some (lines w !! a) ->
  exists u w', store_yCoord (Some a) v w = Some (u, w') /\ three_valid a1 a2 am w'.
Proof.
  intros Hv [l Hl]. eexists tt, _.
  split; [apply store_yCoord_ok; exact Hl|apply three_valid_insert; exact Hv].
Qed.

Lemma step_store_dist a1 a2 am a v w :
  three_valid a1 a2 am w -> is_Some (lines w !! a) ->
  exists u w', store_dist (Some a) v w = Some (u, w') /\ three_valid a1 a2 am w'.
Proof.
  intros Hv [l Hl]. eexists tt, _.
  split; [apply store_dist_ok; exact Hl|apply three_valid_insert; exact Hv].
Qed.

(** Takes one step of a computation whose objects stay valid. *)
Ltac three_valid_side V :=
  first [exact (proj1 V) | exact (proj1 (proj2 V)) | exact (proj2 (proj2 V))].

Ltac mstep_with H V :=
  let x := fresh "x" in
  let w' := fresh "w" in
  let E := fresh "E" in
  let V' := fresh "V" in
  destruct H as (x & w' & E & V');
  rewrite (bind_Some _ _ _ _ _ E); mred; clear E V.

Ltac mstep :=
  rewrite ?bind_assoc;
  match goal with
  | V : three_valid ?a1 ?a2 ?am ?w |- context [bind (round_a_dble ?x ?r) _ ?w] =>
      mstep_with (step_round a1 a2 am x r w V) V
  | V : three_valid ?a1 ?a2 ?am ?w |- context [bind (load_line (Some ?a)) _ ?w] =>
      mstep_with (step_load a1 a2 am a w V ltac:(three_valid_side V)) V
  | V : three_valid ?a1 ?a2 ?am ?w |- context [bind (store_xCoord (Some ?a) ?v) _ ?w] =>
      mstep_with (step_store_xCoord a1 a2 am a v w V ltac:(three_valid_side V)) V
  | V : three_valid ?a1 ?a2 ?am ?w |- context [bind (store_yCoord (Some ?a) ?v) _ ?w] =>
      mstep_with (step_store_yCoord a1 a2 am a v w V ltac:(three_valid_side V)) V
  | V : three_valid ?a1 ?a2 ?am ?w |- context [bind (store_dist (Some ?a) ?v) _ ?w] =>
      mstep_with (step_store_dist a1 a2 am a v w V ltac:(three_valid_side V)) V
  | |- context [bind (if ?c then _ else _) _ _] => destruct c
  end.

(** The calculation after the validation: it always completes. *)
Lemma mid_point_calculation a1 a2 am rndDbl w :
  three_valid a1 a2 am w ->
  exists w',
    bind (ret true)
      (fun success : bool =>
         if success then
           bind (load_line (Some a1)) (fun p1 =>
           bind (load_line (Some a2)) (fun p2 =>
           let distance :=
             calc_int_point_dist (xCoord p1) (yCoord p1) (xCoord p2) (yCoord p2) in
           let rawX :=
             (0.5 * of_int (CInt.abs (CInt.sub (xCoord p2) (xCoord p1))))%float in
           let rawY :=
             (0.5 * of_int (CInt.abs (CInt.sub (yCoord p2) (yCoord p1))))%float in
           bind (round_a_dble rawX rndDbl) (fun x =>
           bind (store_xCoord (Some am) x) (fun _ =>
           bind (load_line (Some a1)) (fun p1 =>
           bind (load_line (Some a2)) (fun p2 =>
           bind (load_line (Some am)) (fun m =>
           bind (if xCoord p2 <? xCoord p1
                 then store_xCoord (Some am) (CInt.add (xCoord m) (xCoord p2))
                 else store_xCoord (Some am) (CInt.add (xCoord m) (xCoord p1)))
             (fun _ =>
           bind (round_a_dble rawY rndDbl) (fun y =>
           bind (store_yCoord (Some am) y) (fun _ =>
           bind (load_line (Some a1)) (fun p1 =>
           bind (load_line (Some a2)) (fun p2 =>
           bind (load_line (Some am)) (fun m =>
           bind (if yCoord p2 <? yCoord p1
                 then store_yCoord (Some am) (CInt.add (yCoord m) (yCoord p2))
                 else store_yCoord (Some am) (CInt.add (yCoord m) (yCoord p1)))
             (fun _ =>
           bind (store_dist (Some am) (distance / 2)%float) (fun _ =>
           ret true)))))))))))))))
         else ret false) w
    = Some (true, w').
Proof.
  intros V. mret. repeat mstep; eexists; reflexivity.
Qed.

(** Looks an object up in a heap built by stores. *)
Ltac heap_lookup :=
  repeat first
    [ progress cbn [lines set_lines]
    | rewrite lookup_insert_eq
    | rewrite lookup_insert_ne by congruence
    | match goal with
      | H : lines _ = _ |- _ => rewrite H
      end ];
  try reflexivity; try eassumption.

Lemma min_of_branches (a b : Z) : (if b <? a then b else a) = Z.min a b.
Proof. destruct (b <? a) eqn:E; [apply Z.ltb_lt in E|apply Z.ltb_ge in E]; lia. Qed.

(** Two distinct points with distinct coordinates, and a third object to
    store the result: [determine_mid_point] writes [mid_point_of]. *)
Lemma determine_mid_point_apart (a1 a2 am : addr) (l1 l2 lm : hmLineLen)
    (rndDbl : Z) (w : world) :
  lines w !! a1 = Some l1 -> lines w !! a2 = Some l2 -> lines w !! am = Some lm ->
  a1 <> a2 -> am <> a1 -> am <> a2 ->
  (xCoord l1 <> xCoord l2 \/ yCoord l1 <> yCoord l2) ->
  exists w',
    determine_mid_point (Some a1) (Some a2) (Some am) rndDbl w = Some (true, w')
    /\ lines w' = <[am := mid_point_of l1 l2 rndDbl]> (lines w)
    /\ ints w' = ints w.
Proof.
  intros H1 H2 Hm H12 Hm1 Hm2 Hcoords. unfold determine_mid_point.
  rewrite !bool_decide_eq_false_2 by (unfold NULL; congruence). mred.
  mcall ltac:(apply load_line_ok; exact H1).
  mcall ltac:(apply load_line_ok; exact H2).
  replace ((xCoord l1 =? xCoord l2) && (yCoord l1 =? yCoord l2)) with false
    by (symmetry; apply andb_false_iff;
        destruct Hcoords; [left|right]; apply Z.eqb_neq; assumption).
  mret.
  mcall ltac:(apply load_line_ok; exact H1).
  mcall ltac:(apply load_line_ok; exact H2).
  set (rawX := (0.5 * of_int (CInt.abs (CInt.sub (xCoord l2) (xCoord l1))))%float).
  set (rawY := (0.5 * of_int (CInt.abs (CInt.sub (yCoord l2) (yCoord l1))))%float).
  destruct (round_a_dble_value rawX rndDbl w) as (w1 & E1 & L1 & I1).
  mcall ltac:(exact E1).
  mcall ltac:(apply (store_xCoord_ok am _ lm); heap_lookup).
  mcall ltac:(apply (load_line_ok a1 l1); heap_lookup).
  mcall ltac:(apply (load_line_ok a2 l2); heap_lookup).
  mcall ltac:(apply load_line_ok; heap_lookup).
  cbn [xCoord yCoord dist].
  assert (Hstore_x : forall v w0 l,
    lines w0 !! am = Some l ->
    (if xCoord l2 <? xCoord l1
     then store_xCoord (Some am) (CInt.add v (xCoord l2))
     else store_xCoord (Some am) (CInt.add v (xCoord l1))) w0
    = Some (tt, set_lines
                  (<[am := mk_hmLineLen
                             (CInt.add v (Z.min (xCoord l1) (xCoord l2)))
                             (yCoord l) (dist l)]> (lines w0)) w0)).
  { intros v w0 l Hl. rewrite <- min_of_branches.
    destruct (xCoord l2 <? xCoord l1); apply store_xCoord_ok; exact Hl. }
  mcall ltac:(apply Hstore_x; heap_lookup).
  cbn [xCoord yCoord dist].
  match goal with
  | |- context [bind (round_a_dble rawY rndDbl) _ ?w2] =>
      destruct (round_a_dble_value rawY rndDbl w2) as (w3 & E3 & L3 & I3)
  end.
  mcall ltac:(exact E3).
  mcall ltac:(apply store_yCoord_ok; heap_lookup).
  mcall ltac:(apply (load_line_ok a1 l1); heap_lookup).
  mcall ltac:(apply (load_line_ok a2 l2); heap_lookup).
  mcall ltac:(apply load_line_ok; heap_lookup).
  cbn [xCoord yCoord dist].
  assert (Hstore_y : forall v w0 l,
    lines w0 !! am = Some l ->
    (if yCoord l2 <? yCoord l1
     then store_yCoord (Some am) (CInt.add v (yCoord l2))
     else store_yCoord (Some am) (CInt.add v (yCoord l1))) w0
    = Some (tt, set_lines
                  (<[am := mk_hmLineLen (xCoord l)
                             (CInt.add v (Z.min (yCoord l1) (yCoord l2)))
                             (dist l)]> (lines w0)) w0)).
  { intros v w0 l Hl. rewrite <- min_of_branches.
    destruct (yCoord l2 <? yCoord l1); apply store_yCoord_ok; exact Hl. }
  mcall ltac:(apply Hstore_y; heap_lookup).
  cbn [xCoord yCoord dist].
  mcall ltac:(apply store_dist_ok; heap_lookup).
  cbn [xCoord yCoord dist].
  eexists. split; [reflexivity|]. split.
  - cbn [lines set_lines]. rewrite L3. cbn [lines set_lines]. rewrite L1.
    rewrite !insert_insert_eq. reflexivity.
  - cbn [ints set_lines]. rewrite I3. cbn [ints set_lines]. exact I1.
Qed.

(** C7. With pointers that are NULL or valid, [determine_mid_point] returns
    false exactly when a pointer is NULL, the two points are one object, or
    their coordinates are the same, and then it reports and writes nothing;
    for the points (0, 0) and (4, 0) and a result stored apart from them it
    returns true and writes the midpoint (2, 0) with [dist = 2.0] when
    rounding to nearest. *)
Theorem determine_mid_point_refusals
    (point1_ptr point2_ptr midPoint_ptr : pointer) (rndDbl : Z) (w : world) :
  (point1_ptr <> NULL -> valid_line point1_ptr w) ->
  (point2_ptr <> NULL -> valid_line point2_ptr w) ->
  (midPoint_ptr <> NULL -> valid_line midPoint_ptr w) ->
  (exists b w',
     determine_mid_point point1_ptr point2_ptr midPoint_ptr rndDbl w = Some (b, w')
     /\ (b = false <-> mid_point_refused point1_ptr point2_ptr midPoint_ptr w)
     /\ (b = false ->
         exists reason, w' = reported "Harkleswarm" "determine_mid_point" reason w))
  /\ (forall a1 a2 am l1 l2,
        point1_ptr = Some a1 -> point2_ptr = Some a2 -> midPoint_ptr = Some am ->
        am <> a1 -> am <> a2 ->
        lines w !! a1 = Some l1 -> lines w !! a2 = Some l2 ->
        xCoord l1 = 0 -> yCoord l1 = 0 -> xCoord l2 = 4 -> yCoord l2 = 0 ->
        rndDbl = HM_RND ->
        exists w' lm,
          determine_mid_point point1_ptr point2_ptr midPoint_ptr rndDbl w
          = Some (true, w')
          /\ lines w' !! am = Some lm
          /\ xCoord lm = 2 /\ yCoord lm = 0 /\ dist lm = 2%float).
Proof.
  intros Hv1 Hv2 Hvm. split.
  - unfold determine_mid_point, mid_point_refused.
    destruct point1_ptr as [a1|].
    2:{ eexists false, _. split; [reflexivity|]. split; [|eauto].
        split; [intros _; left; reflexivity | reflexivity]. }
    destruct point2_ptr as [a2|].
    2:{ eexists false, _. split; [reflexivity|]. split; [|eauto].
        split; [intros _; right; left; reflexivity | reflexivity]. }
    destruct midPoint_ptr as [am|].
    2:{ eexists false, _. split; [reflexivity|]. split; [|eauto].
        split; [intros _; right; right; left; reflexivity | reflexivity]. }
    destruct (Hv1 ltac:(discriminate)) as (b1 & Hb1 & [l1 Hl1]).
    destruct (Hv2 ltac:(discriminate)) as (b2 & Hb2 & [l2 Hl2]).
    destruct (Hvm ltac:(discriminate)) as (bm & Hbm & Hlm).
    inversion Hb1; inversion Hb2; inversion Hbm; subst b1 b2 bm.
    rewrite !(bool_decide_eq_false_2 (Some _ = NULL)) by discriminate. mred.
    destruct (decide (a1 = a2)) as [->|Hne].
    { rewrite bool_decide_eq_true_2 by reflexivity.
      eexists false, _. split; [reflexivity|]. split; [|eauto].
      split; [intros _; do 3 right; left; reflexivity | reflexivity]. }
    rewrite bool_decide_eq_false_2 by congruence.
    unfold bind at 1.
    rewrite (bind_Some _ _ _ _ _ (load_line_ok a1 l1 w Hl1)).
    rewrite (bind_Some _ _ _ _ _ (load_line_ok a2 l2 w Hl2)).
    destruct ((xCoord l1 =? xCoord l2) && (yCoord l1 =? yCoord l2)) eqn:Hsame.
    { apply andb_true_iff in Hsame as [Hx Hy].
      apply Z.eqb_eq in Hx. apply Z.eqb_eq in Hy.
      eexists false, _. split; [reflexivity|]. split; [|eauto].
      split; [intros _ | reflexivity].
      do 4 right. exists a1, a2, l1, l2. repeat split; assumption. }
    destruct (mid_point_calculation a1 a2 am rndDbl w
                (conj (ex_intro _ l1 Hl1) (conj (ex_intro _ l2 Hl2) Hlm)))
      as (w' & Hcalc).
    exists true, w'. split; [exact Hcalc|]. split; [|discriminate].
    split; [discriminate|].
    intros [H|[H|[H|[H|H]]]]; try discriminate; try congruence.
    destruct H as (c1 & c2 & k1 & k2 & E1 & E2 & Hk1 & Hk2 & Hx & Hy).
    inversion E1; inversion E2; subst c1 c2.
    rewrite Hl1 in Hk1. rewrite Hl2 in Hk2. inversion Hk1; inversion Hk2; subst k1 k2.
    apply andb_false_iff in Hsame as [Hsame|Hsame];
      apply Z.eqb_neq in Hsame; contradiction.
  - intros a1 a2 am l1 l2 -> -> -> Hm1 Hm2 Hl1 Hl2 Hx1 Hy1 Hx2 Hy2 ->.
    destruct (Hvm ltac:(discriminate)) as (bm & Hbm & [lm Hlm]).
    inversion Hbm; subst bm.
    assert (H12 : a1 <> a2).
    { intros ->. rewrite Hl1 in Hl2. inversion Hl2; subst l2. lia. }
    destruct (determine_mid_point_apart a1 a2 am l1 l2 lm HM_RND w
                Hl1 Hl2 Hlm H12 Hm1 Hm2 ltac:(left; lia))
      as (w' & Hcall & Hlines & _).
    exists w', (mid_point_of l1 l2 HM_RND).
    split; [exact Hcall|]. split; [rewrite Hlines; apply lookup_insert_eq|].
    unfold mid_point_of. rewrite Hx1, Hy1, Hx2, Hy2. cbn [xCoord yCoord dist].
    repeat split; vm_compute; reflexivity.
Qed.

Lemma determine_mid_point_refusals_witness :
  let w := set_lines {[ 1%positive := mk_hmLineLen 0 0 0%float;
                        2%positive := mk_hmLineLen 4 0 0%float;
                        3%positive := mk_hmLineLen 7 7 0%float ]} initial_world in
  (Some 1%positive <> NULL -> valid_line (Some 1%positive) w)
  /\ (Some 2%positive <> NULL -> valid_line (Some 2%positive) w)
  /\ (Some 3%positive <> NULL -> valid_line (Some 3%positive) w)
  /\ exists w' lm,
       determine_mid_point (Some 1%positive) (Some 2%positive) (Some 3%positive)
                           HM_RND w = Some (true, w')
       /\ lines w' !! 3%positive = Some lm
       /\ xCoord lm = 2 /\ yCoord lm = 0 /\ dist lm = 2%float.
Proof.
  intros w.
  assert (H1 : Some 1%positive <> NULL -> valid_line (Some 1%positive) w)
    by (intros _; exists 1%positive; split; [reflexivity|eexists; reflexivity]).
  assert (H2 : Some 2%positive <> NULL -> valid_line (Some 2%positive) w)
    by (intros _; exists 2%positive; split; [reflexivity|eexists; reflexivity]).
  assert (H3 : Some 3%positive <> NULL -> valid_line (Some 3%positive) w)
    by (intros _; exists 3%positive; split; [reflexivity|eexists; reflexivity]).
  split; [exact H1|]. split; [exact H2|]. split; [exact H3|].
  destruct (determine_mid_point_refusals
              (Some 1%positive) (Some 2%positive) (Some 3%positive) HM_RND w
              H1 H2 H3) as [_ Hexample].
  apply (Hexample 1%positive 2%positive 3%positive
           (mk_hmLineLen 0 0 0%float) (mk_hmLineLen 4 0 0%float));
    try reflexivity; discriminate.
Defined.

(** When the result is stored in the first point itself, the code reads its
    own partial result back: for (0, 0) and (4, 0) the first point becomes
    (4, 0). *)
Lemma determine_mid_point_aliased :
  let w := set_lines {[ 1%positive := mk_hmLineLen 0 0 0%float;
                        2%positive := mk_hmLineLen 4 0 0%float ]} initial_world in
  exists w',
    determine_mid_point (Some 1%positive) (Some 2%positive) (Some 1%positive)
                        HM_RND w = Some (true, w')
    /\ lines w' !! 1%positive = Some (mk_hmLineLen 4 0 2%float).
Proof. intros w. eexists. split; vm_compute; reflexivity. Qed.

End MidPointClaims.

(* ------------------------------------------------------------------------- *)
(** ** Area of a triangle *)

Module TriangleClaims.
Import Libm Libc World Harklemath Spec Run Precision Comparators.
Local Open Scope Z_scope.
#[local] Set Warnings "-inexact-float".

Lemma two_coincide_test (AX AY BX BY CX CY : Z) :
  ((AX =? BX) && (AY =? BY)) || ((AX =? CX) && (AY =? CY))
  || ((BX =? CX) && (BY =? CY)) = true
  <-> two_coincide AX AY BX BY CX CY.
Proof.
  unfold two_coincide.
  rewrite !orb_true_iff, !andb_true_iff, !Z.eqb_eq. tauto.
Qed.

Lemma axis_aligned_test (AX AY BX BY CX CY : Z) :
  ((AX =? BX) && (AX =? CX)) || ((AY =? BY) && (AY =? CY)) = true
  <-> axis_aligned AX AY BX BY CX CY.
Proof.
  unfold axis_aligned.
  rewrite !orb_true_iff, !andb_true_iff, !Z.eqb_eq. tauto.
Qed.

(** Two vertices with the same coordinates: the sentinel, and a report. *)
Lemma calculate_triangle_area_duplicate (AX AY BX BY CX CY : Z) (w : world) :
  two_coincide AX AY BX BY CX CY ->
  calculate_triangle_area AX AY BX BY CX CY w
  = Some ((-1)%float,
          reported "Harkleswarm" "calculate_triangle_area"
                   "Duplicate coordinates are not a triangle" w).
Proof.
  intros H. apply two_coincide_test in H. unfold calculate_triangle_area.
  rewrite H. reflexivity.
Qed.

(** Past the two guards the area is Heron's formula on the three sides; a
    line is written to stderr when the semiperimeter is within the tolerance
    of a side. *)
Lemma calculate_triangle_area_heron (AX AY BX BY CX CY : Z) (w : world) :
  sane w ->
  ~ two_coincide AX AY BX BY CX CY -> ~ axis_aligned AX AY BX BY CX CY ->
  let lenAB := calc_int_point_dist AX AY BX BY in
  let lenBC := calc_int_point_dist BX BY CX CY in
  let lenCA := calc_int_point_dist CX CY AX AY in
  let semiPerm := ((lenAB + lenBC + lenCA) / 2)%float in
  calculate_triangle_area AX AY BX BY CX CY w
  = Some (heron lenAB lenBC lenCA,
          if window semiPerm lenAB (mask DBL_PRECISION)
             || window semiPerm lenBC (mask DBL_PRECISION)
             || window semiPerm lenCA (mask DBL_PRECISION)
          then set_events (to_stderr line_notice :: events (primed w))
                          (primed w)
          else primed w).
Proof.
  intros Hs Hdup Hline lenAB lenBC lenCA semiPerm. unfold calculate_triangle_area.
  destruct (((AX =? BX) && (AY =? BY)) || ((AX =? CX) && (AY =? CY))
            || ((BX =? CX) && (BY =? CY))) eqn:Ed;
    [apply two_coincide_test in Ed; contradiction|].
  destruct (((AX =? BX) && (AX =? CX)) || ((AY =? BY) && (AY =? CY))) eqn:El;
    [apply axis_aligned_test in El; contradiction|].
  mred. fold lenAB lenBC lenCA. fold semiPerm.
  assert (Hp : 1 <= DBL_PRECISION) by (unfold DBL_PRECISION; lia).
  assert (Hs' : sane (primed w)) by (apply sane_primed; assumption).
  assert (Hpp : primed (primed w) = primed w) by (apply primed_primed; assumption).
  unfold orM.
  mcall ltac:(apply dble_equal_to_valid; assumption).
  destruct (window semiPerm lenAB (mask DBL_PRECISION)); [reflexivity|].
  mcall ltac:(apply dble_equal_to_valid; assumption). rewrite Hpp.
  destruct (window semiPerm lenBC (mask DBL_PRECISION)); [reflexivity|].
  mcall ltac:(apply dble_equal_to_valid; assumption). rewrite Hpp.
  destruct (window semiPerm lenCA (mask DBL_PRECISION)); reflexivity.
Qed.

(** C6. [calculate_triangle_area] returns the sentinel -1 (with a report)
    whenever two of the three vertices have the same coordinates, as for
    A = B; past its guards it returns Heron's formula on the three sides; and
    for A = (0, 0), B = (4, 0), C = (0, 3) the result is the double 6.0. *)
Theorem calculate_triangle_area_sentinel_and_heron
    (AX AY BX BY CX CY : Z) (w : world) :
  sane w ->
  (two_coincide AX AY BX BY CX CY ->
   calculate_triangle_area AX AY BX BY CX CY w
   = Some ((-1)%float,
           reported "Harkleswarm" "calculate_triangle_area"
                    "Duplicate coordinates are not a triangle" w))
  /\ calculate_triangle_area AX AY AX AY CX CY w
     = Some ((-1)%float,
             reported "Harkleswarm" "calculate_triangle_area"
                      "Duplicate coordinates are not a triangle" w)
  /\ (~ two_coincide AX AY BX BY CX CY -> ~ axis_aligned AX AY BX BY CX CY ->
      exists w',
        calculate_triangle_area AX AY BX BY CX CY w
        = Some (heron (calc_int_point_dist AX AY BX BY)
                      (calc_int_point_dist BX BY CX CY)
                      (calc_int_point_dist CX CY AX AY), w'))
  /\ calculate_triangle_area 0 0 4 0 0 3 w = Some (6%float, primed w).
Proof.
  intros Hs. split; [apply calculate_triangle_area_duplicate|].
  split; [apply calculate_triangle_area_duplicate; left; split; reflexivity|].
  split.
  - intros Hdup Hline. eexists.
    apply (calculate_triangle_area_heron AX AY BX BY CX CY w Hs Hdup Hline).
  - rewrite (calculate_triangle_area_heron 0 0 4 0 0 3 w Hs)
      by (unfold two_coincide, axis_aligned; lia).
    assert (Hsides : calc_int_point_dist 0 0 4 0 = 4%float
                     /\ calc_int_point_dist 4 0 0 3 = 5%float
                     /\ calc_int_point_dist 0 3 0 0 = 3%float)
      by (repeat split; vm_compute; reflexivity).
    destruct Hsides as (-> & -> & ->).
    assert (Harea : heron 4%float 5%float 3%float = 6%float)
      by (vm_compute; reflexivity).
    assert (Hline :
      window ((4 + 5 + 3) / 2)%float 4%float (mask DBL_PRECISION)
      || window ((4 + 5 + 3) / 2)%float 5%float (mask DBL_PRECISION)
      || window ((4 + 5 + 3) / 2)%float 3%float (mask DBL_PRECISION) = false)
      by (vm_compute; reflexivity).
    rewrite Harea, Hline. reflexivity.
Qed.

Lemma calculate_triangle_area_sentinel_and_heron_witness :
  sane initial_world
  /\ calculate_triangle_area 1 1 1 1 5 7 initial_world
     = Some ((-1)%float,
             reported "Harkleswarm" "calculate_triangle_area"
                      "Duplicate coordinates are not a triangle" initial_world)
  /\ calculate_triangle_area 0 0 4 0 0 3 initial_world
     = Some (6%float, primed initial_world).
Proof.
  pose proof sane_initial_world as Hs.
  split; [exact Hs|].
  destruct (calculate_triangle_area_sentinel_and_heron 1 1 1 1 5 7 initial_world Hs)
    as (_ & Hsame & _ & Hexample).
  split; [exact Hsame|exact Hexample].
Defined.

End TriangleClaims.

(* ------------------------------------------------------------------------- *)
(** ** The ellipse sampler *)

Module EllipseClaims.
Import Libm Libc World Harklemath Spec Run Precision Comparators.
Import RoundingClaims CenterClaims.
Local Open Scope Z_scope.
#[local] Set Warnings "-inexact-float".

Lemma ints_primed w : ints (primed w) = ints w.
Proof. unfold primed. destruct (maxPrec_static w =? 0); reflexivity. Qed.

Lemma calloc_outcomes_primed w : calloc_outcomes (primed w) = calloc_outcomes w.
Proof. unfold primed. destruct (maxPrec_static w =? 0); reflexivity. Qed.

Lemma primed_fixed w : maxPrec_static w = machine_ceiling -> primed w = w.
Proof. intros H. unfold primed. rewrite H. reflexivity. Qed.

Lemma on_ellipseb_sound a2 b2 tol x y :
  on_ellipseb a2 b2 tol x y = true -> on_ellipse a2 b2 tol x y.
Proof.
  unfold on_ellipseb, on_ellipse.
  destruct (value x) as [vx|]; [|discriminate].
  destruct (value y) as [vy|]; [|discriminate].
  intros H. exists vx, vy. repeat split. apply Qle_bool_iff. exact H.
Qed.

(** The allocation loop: the first success within three attempts ends it. *)
Lemma allocation_loop (n : Z) (w : world) :
  calloc_succeeds w ->
  exists numTries rest,
    while (Z.to_nat HARKLEMATH_MAX_TRIES)
      (fun '(retVal, numTries) =>
         (numTries <? HARKLEMATH_MAX_TRIES) && negb (bool_decide (is_Some retVal)))
      (fun '(retVal, numTries) =>
         bind (calloc n) (fun retVal => ret (retVal, CInt.add numTries 1)))
      (None, 0) w
    = Some ((Some (replicate (Z.to_nat n) PrimFloat.zero), numTries),
            set_calloc_outcomes rest w).
Proof.
  intros (failures & rest & Hout & Hall & Hlen).
  unfold HARKLEMATH_MAX_TRIES in *.
  destruct w as [mp rv rm ev hi hl co]. cbn in Hout. subst co.
  destruct failures as [|f1 [|f2 [|f3 failures]]]; cbn in Hlen; try lia;
    repeat match goal with
           | H : Forall _ (_ :: _) |- _ => inversion H; subst; clear H
           end;
    eexists _, rest; vm_compute; reflexivity.
Qed.

(** The coordinate loop for [a = 5], [b = 3]: forty doubles, twenty points on
    the ellipse, and no report. *)
Lemma coordinate_loop_5_3 :
  exists final buf,
    (forall w,
       while (Z.to_nat 40) (fun l => count l <? 40)
         (plot_ellipse_step true 5%float 3%float 5 40)
         (mk_plot_locals 0 0%float 1%float
            (Some (replicate (Z.to_nat 40) PrimFloat.zero))) w
       = Some (final, w))
    /\ retVal final = Some buf
    /\ length buf = 40%nat
    /\ length (pairs buf) = 20%nat
    /\ forallb (fun '(x, y) => on_ellipseb 25 9 (1 # 1000000000) x y) (pairs buf)
       = true.
Proof.
  eexists. eexists. split; [intros w; vm_compute; reflexivity|].
  split; [reflexivity|]. split; [reflexivity|]. split; [reflexivity|].
  vm_compute. reflexivity.
Qed.

Lemma sane_set_ints m w : sane w -> sane (set_ints m w).
Proof. intros H. exact H. Qed.

Lemma truncate_double_exact (val : double) (w : world) :
  atof (format_f DBL_PRECISION val) = val ->
  fits_dbleBuff DBL_PRECISION val = true ->
  truncate_double val DBL_PRECISION w = Some (val, w).
Proof.
  intros Hval Hfits.
  rewrite truncate_double_round_trip by (unfold DBL_PRECISION; lia).
  rewrite Hfits, Hval. reflexivity.
Qed.

(** C1. For the semi-axes [a = 5], [b = 3], a valid [numPnts] and an
    allocation that succeeds within the attempts made,
    [plot_ellipse_points] returns a buffer and stores the count 40 in
    [*numPnts]; the buffer holds 40 doubles, that is 20 pairs [(x, y)], and
    each pair satisfies [x²/25 + y²/9 = 1] up to [10^-9]. *)
Theorem plot_ellipse_points_5_3 (numPnts : addr) (w : world) :
  sane w -> is_Some (ints w !! numPnts) -> calloc_succeeds w ->
  exists buf w',
    plot_ellipse_points 5%float 3%float (Some numPnts) w = Some (Some buf, w')
    /\ ints w' !! numPnts = Some 40
    /\ length buf = 40%nat
    /\ length (pairs buf) = 20%nat
    /\ Forall (fun '(x, y) => on_ellipse 25 9 (1 # 1000000000) x y) (pairs buf).
Proof.
  intros Hs Hnum Halloc.
  assert (Hp : 1 <= DBL_PRECISION) by (unfold DBL_PRECISION; lia).
  assert (Hs1 : sane (primed w)) by (apply sane_primed; assumption).
  assert (Hpp : primed (primed w) = primed w) by (apply primed_primed; assumption).
  destruct coordinate_loop_5_3 as (final & buf & Hloop & Hbuf & Hlen & Hpairs & Hon).
  exists buf.
  unfold plot_ellipse_points.
  (* INPUT VALIDATION *)
  mcall ltac:(apply dble_equal_to_valid; assumption).
  assert (window 5%float 0%float (mask DBL_PRECISION) = false) as ->
    by (vm_compute; reflexivity).
  mred.
  mcall ltac:(apply dble_equal_to_valid; assumption). rewrite Hpp.
  assert (window 3%float 0%float (mask DBL_PRECISION) = false) as ->
    by (vm_compute; reflexivity).
  mred.
  rewrite bool_decide_eq_false_2 by discriminate. mred.
  mcall ltac:(apply store_int_ok; rewrite ints_primed; assumption).
  mret.
  set (w2 := set_ints (<[numPnts := 0]> (ints (primed w))) (primed w)).
  assert (Hs2 : sane w2) by (apply sane_set_ints; assumption).
  assert (Hp2 : primed w2 = w2)
    by (apply primed_fixed; unfold w2; cbn [maxPrec_static set_ints];
        apply maxPrec_primed; assumption).
  (* DETERMINE MAJOR AXIS *)
  mcall ltac:(apply (dble_less_than_valid 5%float 3%float DBL_PRECISION w2 5%float 3%float w2 w2);
              [assumption | assumption
              | apply truncate_double_exact; vm_compute; reflexivity
              | apply truncate_double_exact; vm_compute; reflexivity]).
  rewrite Hp2.
  assert ((5 <? 3)%float = false) as -> by reflexivity.
  cbn [negb].
  (* DETERMINE NUMBER OF POINTS *)
  mcall ltac:(apply dble_not_equal_valid; assumption). rewrite Hp2.
  mcall ltac:(apply dble_not_equal_valid; assumption). rewrite Hp2.
  assert (PrimFloat.abs 5%float = 5%float) as -> by reflexivity.
  assert (PrimFloat.abs 3%float = 3%float) as -> by reflexivity.
  assert (to_int 5%float = 5) as -> by reflexivity.
  assert (CInt.mul (CInt.mul 5 4) 2 = 40) as -> by reflexivity.
  assert ((40 <? 8) || negb (CInt.rem 40 4 =? 0) = false) as -> by reflexivity.
  mret.
  (* ALLOCATE BUFFER *)
  destruct (allocation_loop 40 w2) as (numTries & rest & Hcalloc).
  { unfold calloc_succeeds, w2. cbn [calloc_outcomes set_ints].
    rewrite calloc_outcomes_primed. exact Halloc. }
  mcall ltac:(exact Hcalloc).
  rewrite bool_decide_eq_true_2 by eauto. cbn [negb]. mret.
  (* CALCULATE COORDINATE PAIRS *)
  mcall ltac:(apply Hloop).
  (* WRAP UP *)
  mcall ltac:(apply store_int_ok; unfold w2; cbn [ints set_calloc_outcomes set_ints];
              rewrite lookup_insert_eq; eauto).
  eexists. split; [rewrite Hbuf; reflexivity|].
  split; [cbn [ints set_ints]; apply lookup_insert_eq|].
  split; [exact Hlen|]. split; [exact Hpairs|].
  apply Forall_forall. intros [x y] Hin.
  rewrite forallb_forall in Hon. apply list_elem_of_In in Hin.
  apply on_ellipseb_sound. exact (Hon (x, y) Hin).
Qed.

Lemma plot_ellipse_points_5_3_witness :
  let w := set_calloc_outcomes [false; true]
             (set_ints {[ 1%positive := 7 ]} initial_world) in
  sane w /\ is_Some (ints w !! 1%positive) /\ calloc_succeeds w
  /\ exists buf w',
       plot_ellipse_points 5%float 3%float (Some 1%positive) w = Some (Some buf, w')
       /\ ints w' !! 1%positive = Some 40
       /\ length buf = 40%nat
       /\ length (pairs buf) = 20%nat
       /\ Forall (fun '(x, y) => on_ellipse 25 9 (1 # 1000000000) x y) (pairs buf).
Proof.
  intros w.
  assert (Hs : sane w) by (unfold sane; simpl; repeat split; left; reflexivity).
  assert (Hnum : is_Some (ints w !! 1%positive)) by (exists 7; reflexivity).
  assert (Halloc : calloc_succeeds w).
  { exists [false], []. split; [reflexivity|]. split.
    - constructor; [reflexivity|constructor].
    - unfold HARKLEMATH_MAX_TRIES. simpl. lia. }
  split; [exact Hs|]. split; [exact Hnum|]. split; [exact Halloc|].
  apply (plot_ellipse_points_5_3 1%positive w Hs Hnum Halloc).
Defined.

End EllipseClaims.

(* ------------------------------------------------------------------------- *)
(** ** Facts on doubles and on the text [%.<p>f] prints *)

Module DoubleFacts.
Import Libm Libc World Harklemath Spec Run Precision Comparators RoundingClaims.
Local Open Scope Z_scope.
#[local] Set Warnings "-inexact-float".

Lemma digits2_pos_bound (m : positive) : Z.pos m < 2 ^ Z.pos (digits2_pos m).
Proof.
  induction m as [m IH|m IH|]; cbn [digits2_pos].
  - rewrite Pos2Z.inj_succ, Z.pow_succ_r by lia. lia.
  - rewrite Pos2Z.inj_succ, Z.pow_succ_r by lia. lia.
  - reflexivity.
Qed.

(** The mantissa of a double has at most 53 bits and its exponent is at most
    971: a finite double is below [2^1024]. *)
Lemma finite_bounds (x : double) (s : bool) (m : positive) (e : Z) :
  Prim2SF x = S754_finite s m e -> Z.pos m < 2 ^ 53 /\ e <= 971.
Proof.
  intros Hx. pose proof (Prim2SF_valid x) as Hv. rewrite Hx in Hv.
  cbn [valid_binary] in Hv. unfold bounded, canonical_mantissa, fexp in Hv.
  apply andb_true_iff in Hv as [Hc He].
  apply Z.eqb_eq in Hc. apply Z.leb_le in He.
  change (emax - prec) with 971 in He. change prec with 53 in Hc.
  split; [|exact He].
  pose proof (digits2_pos_bound m) as Hm.
  assert (Hd : Z.pos (digits2_pos m) <= 53) by lia.
  eapply Z.lt_le_trans; [exact Hm|].
  apply Z.pow_le_mono_r; lia.
Qed.

Lemma length_append (a b : string) :
  String.length (a ++ b) = (String.length a + String.length b)%nat.
Proof. induction a as [|c a IH]; simpl; [reflexivity|rewrite IH; reflexivity]. Qed.

Lemma length_zeros (n : nat) : String.length (zeros n) = n.
Proof. induction n as [|n IH]; simpl; [reflexivity|rewrite IH; reflexivity]. Qed.

(** A number below [10^d] prints with at most [d] digits. *)
Lemma length_decimal_go (fuel : nat) :
  forall (n : Z) (acc : string) (d : nat),
    (1 <= d)%nat -> 0 <= n < 10 ^ Z.of_nat d ->
    (String.length (decimal_go fuel n acc) <= d + String.length acc)%nat.
Proof.
  induction fuel as [|fuel IH]; intros n acc d Hd Hn; cbn [decimal_go].
  - lia.
  - destruct (n <? 10) eqn:Hsmall.
    + cbn [String.length]. lia.
    + apply Z.ltb_ge in Hsmall.
      destruct d as [|[|d]]; [lia| |].
      * change (10 ^ Z.of_nat 1) with 10 in Hn. lia.
      * assert (Hdiv : 0 <= n / 10 < 10 ^ Z.of_nat (S d)).
        { split; [apply Z.div_pos; lia|].
          apply Z.div_lt_upper_bound; [lia|].
          replace (Z.of_nat (S (S d))) with (Z.succ (Z.of_nat (S d))) in Hn by lia.
          rewrite Z.pow_succ_r in Hn by lia. lia. }
        specialize (IH (n / 10) (String (digit_char (n mod 10)) acc) (S d)
                       ltac:(lia) Hdiv).
        cbn [String.length] in IH. lia.
Qed.

Lemma length_decimal (n : Z) (d : nat) :
  (1 <= d)%nat -> 0 <= n < 10 ^ Z.of_nat d ->
  (String.length (decimal n) <= d)%nat.
Proof.
  intros Hd Hn. unfold decimal.
  pose proof (length_decimal_go (S (Z.to_nat (Z.log2 n))) n EmptyString d Hd Hn) as H.
  cbn [String.length] in H. lia.
Qed.

(** [fixed p n] has as many characters as the integer part has digits, plus
    the point and [p] decimals. *)
Lemma length_fixed (p n : Z) (d : nat) :
  1 <= p -> (1 <= d)%nat -> 0 <= n -> n / 10 ^ p < 10 ^ Z.of_nat d ->
  (String.length (fixed p n) <= d + 1 + Z.to_nat p)%nat.
Proof.
  intros Hp Hd Hn Hint. unfold fixed.
  replace (p =? 0) with false by (symmetry; apply Z.eqb_neq; lia).
  assert (Hpow : 0 < 10 ^ p) by (apply Z.pow_pos_nonneg; lia).
  unfold pad_zeros. rewrite !length_append, length_zeros.
  change (String.length ".") with 1%nat.
  assert (Hint' : (String.length (decimal (n / 10 ^ p)) <= d)%nat).
  { apply length_decimal; [assumption|]. split; [apply Z.div_pos; lia|assumption]. }
  assert (Hfrac : (String.length (decimal (n mod 10 ^ p)) <= Z.to_nat p)%nat).
  { apply length_decimal; [lia|]. rewrite Z2Nat.id by lia.
    apply Z.mod_pos_bound. assumption. }
  lia.
Qed.

(** The text of a double with [p] decimals has at most [311 + p] characters:
    a sign, up to 309 digits, the point and the decimals. *)
Lemma length_format_f (p : Z) (x : double) :
  1 <= p -> (String.length (format_f p x) <= 311 + Z.to_nat p)%nat.
Proof.
  intros Hp. unfold format_f.
  assert (Hpow : 0 < 10 ^ p) by (apply Z.pow_pos_nonneg; lia).
  assert (Hbig : 2 ^ 1024 < 10 ^ Z.of_nat 309) by (vm_compute; reflexivity).
  assert (Hsign : forall s, (String.length (sign_string s) <= 1)%nat)
    by (intros []; cbn; lia).
  destruct (Prim2SF x) as [s|s| |s m e] eqn:Hx.
  - rewrite length_append. pose proof (Hsign s).
    pose proof (length_fixed p 0 309 Hp ltac:(lia) ltac:(lia)) as Hf.
    rewrite Z.div_0_l in Hf by lia.
    specialize (Hf ltac:(apply Z.pow_pos_nonneg; lia)). lia.
  - rewrite length_append. pose proof (Hsign s). cbn [String.length]. lia.
  - cbn [String.length]. lia.
  - destruct (finite_bounds x s m e Hx) as [Hm He].
    rewrite length_append. pose proof (Hsign s).
    unfold two_pow.
    match goal with
    | |- context [fixed p ?n] =>
        assert (Hn : 0 <= n /\ n / 10 ^ p < 10 ^ Z.of_nat 309)
    end.
    { destruct (0 <=? e) eqn:Hsgn.
      - apply Z.leb_le in Hsgn.
        assert (Hpe : 0 < 2 ^ e) by (apply Z.pow_pos_nonneg; lia).
        split; [nia|].
        replace (Z.pos m * 10 ^ p * 2 ^ e) with (Z.pos m * 2 ^ e * 10 ^ p) by ring.
        rewrite Z.div_mul by lia.
        eapply Z.lt_trans; [|exact Hbig].
        assert (2 ^ e <= 2 ^ 971) by (apply Z.pow_le_mono_r; lia).
        replace (2 ^ 1024) with (2 ^ 53 * 2 ^ 971) by reflexivity.
        nia.
      - apply Z.leb_gt in Hsgn.
        assert (Hd : 2 <= 2 ^ (- e)).
        { change 2 with (2 ^ 1) at 1. apply Z.pow_le_mono_r; lia. }
        set (num := Z.pos m * 10 ^ p) in *.
        set (d := 2 ^ (- e)) in *.
        assert (Hnum : 0 < num) by (unfold num; nia).
        assert (Hq : 0 <= num / d) by (apply Z.div_pos; lia).
        assert (Hq' : num / d + 1 <= num).
        { assert (num / d <= num / 2) by (apply Z.div_le_compat_l; lia).
          assert (10 <= num).
          { unfold num. assert (10 ^ 1 <= 10 ^ p) by (apply Z.pow_le_mono_r; lia).
            change (10 ^ 1) with 10 in *. nia. }
          pose proof (Z.div_mod num 2 ltac:(lia)).
          pose proof (Z.mod_pos_bound num 2 ltac:(lia)). lia. }
        assert (Hm' : Z.pos m < 10 ^ Z.of_nat 309).
        { eapply Z.lt_trans; [exact Hm|]. eapply Z.lt_trans; [|exact Hbig].
          apply Z.pow_lt_mono_r; lia. }
        assert (Hle : forall n, 0 <= n <= num -> n / 10 ^ p < 10 ^ Z.of_nat 309).
        { intros n Hn. eapply Z.le_lt_trans; [|exact Hm'].
          apply Z.div_le_upper_bound; [lia|]. unfold num in Hn. lia. }
        destruct ((d <? 2 * (num mod d)) || ((d =? 2 * (num mod d)) && Z.odd (num / d)));
          (split; [lia|apply Hle; lia]). }
    destruct Hn as [Hn0 Hn1].
    pose proof (length_fixed p _ 309 Hp ltac:(lia) Hn0 Hn1). lia.
Qed.

End DoubleFacts.

(* ------------------------------------------------------------------------- *)
(** ** The order of doubles *)

Module DoubleOrder.
Import Libm.
Local Open Scope Z_scope.

Lemma SFcompare_refl (f : spec_float) : SFcompare f f <> Some Lt.
Proof.
  destruct f as [s|s| |s m e]; cbn [SFcompare]; try destruct s; try discriminate;
    rewrite Z.compare_refl, Pos.compare_cont_refl; discriminate.
Qed.

Lemma SFcompare_antisym (f g : spec_float) :
  SFcompare f g = Some Lt -> SFcompare g f = Some Gt.
Proof.
  destruct f as [s|s| |s m e], g as [t|t| |t n k]; cbn [SFcompare];
    try destruct s; try destruct t; try discriminate; try reflexivity.
  - rewrite (Z.compare_antisym e k).
    destruct (e ?= k) eqn:E; cbn [CompOpp]; try discriminate; try reflexivity.
    change Eq with (CompOpp Eq) at 2. rewrite <- (Pos.compare_cont_antisym m n Eq).
    destruct (Pos.compare_cont Eq m n); cbn [CompOpp]; try discriminate; reflexivity.
  - rewrite (Z.compare_antisym e k).
    destruct (e ?= k) eqn:E; cbn [CompOpp]; try discriminate; try reflexivity.
    change Eq with (CompOpp Eq) at 2. rewrite <- (Pos.compare_cont_antisym m n Eq).
    destruct (Pos.compare_cont Eq m n); cbn [CompOpp]; try discriminate; reflexivity.
Qed.

(** No double is below itself. *)
Lemma ltb_irrefl (x : double) : (x <? x)%float = false.
Proof.
  rewrite ltb_spec. unfold SFltb.
  pose proof (SFcompare_refl (Prim2SF x)) as H.
  destruct (SFcompare (Prim2SF x) (Prim2SF x)) as [[]|]; try reflexivity.
  contradiction H. reflexivity.
Qed.

(** [x < y] excludes [y < x]. *)
Lemma ltb_asym (x y : double) : (x <? y)%float = true -> (y <? x)%float = false.
Proof.
  rewrite !ltb_spec. unfold SFltb. intros H.
  destruct (SFcompare (Prim2SF x) (Prim2SF y)) as [[]|] eqn:E; try discriminate.
  rewrite (SFcompare_antisym _ _ E). reflexivity.
Qed.

End DoubleOrder.

(* ------------------------------------------------------------------------- *)
(** ** Further properties of the precision engine and the comparators *)

Module ComparatorProperties.
Import Libm Libc World Harklemath Spec Run Precision Comparators RoundingClaims.
Import DoubleFacts DoubleOrder.
Local Open Scope Z_scope.
#[local] Set Warnings "-inexact-float".

(** With at most 766 decimals the text of any double fits [dbleBuff]. *)
Lemma fits_dbleBuff_766 (p : Z) (x : double) :
  1 <= p <= 766 -> fits_dbleBuff p x = true.
Proof.
  intros Hp. unfold fits_dbleBuff, DBL_MANT_DIG, DBL_MIN_EXP.
  pose proof (length_format_f p x ltac:(lia)) as Hlen.
  apply Z.leb_le. lia.
Qed.

Lemma truncate_double_fits (val : double) (digits : Z) (w : world) :
  1 <= digits <= 766 ->
  truncate_double val digits w = Some (atof (format_f digits val), w).
Proof.
  intros Hd. rewrite truncate_double_round_trip by lia.
  rewrite fits_dbleBuff_766 by assumption. reflexivity.
Qed.

(** [dble_less_than] always answers for a precision up to 766. *)
Lemma dble_less_than_total (x y : double) (p : Z) (w : world) :
  sane w -> 1 <= p <= 766 ->
  dble_less_than x y p w
  = Some ((atof (format_f p x) <? atof (format_f p y))%float, primed w).
Proof.
  intros Hs Hp.
  apply (dble_less_than_valid x y p w _ _ w w); try assumption; try lia;
    apply truncate_double_fits; assumption.
Qed.

Lemma dble_greater_than_valid (x y : double) (p : Z) (w : world) :
  sane w -> 1 <= p ->
  dble_greater_than x y p w = Some (exceeds x y (mask p), primed w).
Proof.
  intros Hs Hp. unfold dble_greater_than.
  replace (p <? 1) with false by (symmetry; apply Z.ltb_ge; lia).
  mret. mcall ltac:(apply calc_precision_valid; assumption).
  rewrite mask_nonzero by assumption. mret. reflexivity.
Qed.

Lemma dble_greater_than_invalid (x y : double) (p : Z) (w : world) :
  p < 1 ->
  dble_greater_than x y p w
  = Some (false, reported "Harklemath" "dble_greater_than" "Invalid precision" w).
Proof.
  intros Hp. unfold dble_greater_than.
  replace (p <? 1) with true by (symmetry; apply Z.ltb_lt; lia).
  reflexivity.
Qed.

Lemma window_sym (x y m : double) : window x y m = window y x m.
Proof.
  unfold window.
  destruct (y <? x + m)%float, (x - m <? y)%float, (x <? y + m)%float,
    (y - m <? x)%float; reflexivity.
Qed.

(** For at most 766 digits, [truncate_double] never writes beyond
    [dbleBuff]: it returns, for every double, the text of the value with
    that many decimals read back by [atof], and changes nothing. *)
Theorem truncate_double_stays_in_buffer (val : double) (digits : Z) (w : world) :
  1 <= digits <= 766 ->
  Z.of_nat (String.length (format_f digits val)) + 1
  <= 3 + DBL_MANT_DIG - DBL_MIN_EXP + 1
  /\ truncate_double val digits w = Some (atof (format_f digits val), w).
Proof.
  intros Hd. split.
  - pose proof (fits_dbleBuff_766 digits val Hd) as Hfits.
    unfold fits_dbleBuff in Hfits. apply Z.leb_le in Hfits. exact Hfits.
  - apply truncate_double_fits. assumption.
Qed.

Lemma truncate_double_stays_in_buffer_witness :
  1 <= 766 <= 766
  /\ Z.of_nat (String.length (format_f 766 (-1.7976931348623157e308)%float)) + 1
     <= 3 + DBL_MANT_DIG - DBL_MIN_EXP + 1
  /\ truncate_double (-1.7976931348623157e308)%float 766 initial_world
     = Some (atof (format_f 766 (-1.7976931348623157e308)%float), initial_world).
Proof.
  split; [lia|].
  apply (truncate_double_stays_in_buffer
           (-1.7976931348623157e308)%float 766 initial_world). lia.
Defined.

(** The bound is sharp: with 767 digits the text of the most negative
    double takes 1079 bytes, one more than [dbleBuff] has. *)
Lemma truncate_double_overrun :
  truncate_double (-1.7976931348623157e308)%float 767 initial_world = None.
Proof. vm_compute. reflexivity. Qed.

(** In a sound world and for a precision from 1 to 766, [dble_less_than]
    always returns; its answer is the comparison of the two texts read back,
    and it never finds a value less than itself. *)
Theorem dble_less_than_answers (x y : double) (p : Z) (w : world) :
  sane w -> 1 <= p <= 766 ->
  dble_less_than x y p w
  = Some ((atof (format_f p x) <? atof (format_f p y))%float, primed w)
  /\ dble_less_than x x p w = Some (false, primed w)
  /\ (dble_less_than x y p w = Some (true, primed w) ->
      dble_less_than y x p w = Some (false, primed w)).
Proof.
  intros Hs Hp. rewrite !dble_less_than_total by assumption.
  split; [reflexivity|]. split.
  - rewrite ltb_irrefl. reflexivity.
  - intros H. injection H as Hlt.
    rewrite (ltb_asym _ _ Hlt). reflexivity.
Qed.

Lemma dble_less_than_answers_witness :
  sane initial_world /\ 1 <= 15 <= 766
  /\ dble_less_than 1.5%float 2.5%float 15 initial_world
     = Some ((atof (format_f 15 1.5%float) <? atof (format_f 15 2.5%float))%float,
             primed initial_world)
  /\ dble_less_than 1.5%float 1.5%float 15 initial_world
     = Some (false, primed initial_world)
  /\ (dble_less_than 1.5%float 2.5%float 15 initial_world
      = Some (true, primed initial_world) ->
      dble_less_than 2.5%float 1.5%float 15 initial_world
      = Some (false, primed initial_world)).
Proof.
  split; [exact sane_initial_world|]. split; [lia|].
  apply (dble_less_than_answers 1.5%float 2.5%float 15 initial_world
           sane_initial_world). lia.
Defined.

(** [dble_equal_to] is symmetric: swapping [x] and [y] changes neither the
    answer nor what the call leaves behind, for a valid and for an invalid
    precision alike. *)
Theorem dble_equal_to_symmetric (x y : double) (p : Z) (w : world) :
  sane w -> dble_equal_to x y p w = dble_equal_to y x p w.
Proof.
  intros Hs. destruct (Z_lt_le_dec p 1) as [Hp|Hp].
  - rewrite !dble_equal_to_invalid by assumption. reflexivity.
  - rewrite !dble_equal_to_valid by assumption.
    rewrite (window_sym x y). reflexivity.
Qed.

Lemma dble_equal_to_symmetric_witness :
  sane initial_world
  /\ dble_equal_to 1.5%float 2.5%float 3 initial_world
     = dble_equal_to 2.5%float 1.5%float 3 initial_world.
Proof.
  split; [exact sane_initial_world|].
  apply (dble_equal_to_symmetric 1.5%float 2.5%float 3 initial_world
           sane_initial_world).
Defined.

(** [dble_greater_than] is a strict comparison: it never finds a value
    greater than itself, and when it finds [x] greater than [y] it does not
    find [y] greater than [x]. *)
Theorem dble_greater_than_strict (x y : double) (p : Z) (w : world) :
  sane w ->
  exists xy yx xx w',
    dble_greater_than x y p w = Some (xy, w')
    /\ dble_greater_than y x p w = Some (yx, w')
    /\ dble_greater_than x x p w = Some (xx, w')
    /\ xx = false
    /\ (xy = true -> yx = false).
Proof.
  intros Hs. destruct (Z_lt_le_dec p 1) as [Hp|Hp].
  - exists false, false, false. eexists.
    rewrite !dble_greater_than_invalid by assumption.
    repeat split; reflexivity.
  - exists (exceeds x y (mask p)), (exceeds y x (mask p)), (exceeds x x (mask p)).
    exists (primed w). rewrite !dble_greater_than_valid by assumption.
    split; [reflexivity|]. split; [reflexivity|]. split; [reflexivity|]. split.
    + unfold exceeds. rewrite ltb_irrefl. reflexivity.
    + unfold exceeds. intros H.
      apply andb_true_iff in H as [H _]. apply andb_true_iff in H as [H _].
      rewrite (ltb_asym _ _ H). reflexivity.
Qed.

Lemma dble_greater_than_strict_witness :
  sane initial_world
  /\ exists xy yx xx w',
       dble_greater_than 2.5%float 1.5%float 3 initial_world = Some (xy, w')
       /\ dble_greater_than 1.5%float 2.5%float 3 initial_world = Some (yx, w')
       /\ dble_greater_than 2.5%float 2.5%float 3 initial_world = Some (xx, w')
       /\ xx = false
       /\ (xy = true -> yx = false).
Proof.
  split; [exact sane_initial_world|].
  apply (dble_greater_than_strict 2.5%float 1.5%float 3 initial_world
           sane_initial_world).
Defined.

Lemma dble_less_than_invalid (x y : double) (p : Z) (w : world) :
  p < 0 ->
  dble_less_than x y p w
  = Some (false,
          reported "Harklemath" "dble_greater_than" "Invalid precision"
            (reported "Harklemath" "truncate_double" "Invalid number of digits"
               (reported "Harklemath" "truncate_double" "Invalid number of digits" w))).
Proof.
  intros Hp. unfold dble_less_than, truncate_double.
  replace (p =? 0) with false by (symmetry; apply Z.eqb_neq; lia).
  replace (p <? 0) with true by (symmetry; apply Z.ltb_lt; lia).
  replace (p <? 1) with true by (symmetry; apply Z.ltb_lt; lia).
  reflexivity.
Qed.

Lemma dble_less_than_zero_precision (x y : double) (w : world) :
  dble_less_than x y 0 w
  = Some (false, reported "Harklemath" "dble_greater_than" "Invalid precision" w).
Proof. reflexivity. Qed.

(** The "or equal" comparators, for every precision. From 1 on,
    [dble_greater_than_equal_to] answers [dble_equal_to] or
    [dble_greater_than], and [dble_less_than_equal_to] answers true when
    [dble_equal_to] does and is [dble_less_than] otherwise, whatever the
    latter does (up to 766 digits it always answers). Below 1 both answer
    false, and each comparison they go through leaves its own reports. *)
Theorem or_equal_comparators (x y : double) (p : Z) (w : world) :
  sane w ->
  (1 <= p ->
   dble_greater_than_equal_to x y p w
   = Some (window x y (mask p) || exceeds x y (mask p), primed w)
   /\ dble_less_than_equal_to x y p w
      = if window x y (mask p) then Some (true, primed w)
        else dble_less_than x y p (primed w))
  /\ (1 <= p <= 766 ->
      dble_less_than_equal_to x y p w
      = Some (window x y (mask p)
              || (atof (format_f p x) <? atof (format_f p y))%float, primed w))
  /\ (p < 1 ->
      dble_greater_than_equal_to x y p w
      = Some (false,
              reported "Harklemath" "dble_greater_than" "Invalid precision"
                (reported "Harklemath" "dble_greater_than" "Invalid precision" w))
      /\ exists w',
           dble_less_than_equal_to x y p w = Some (false, w')
           /\ length (events w')
              = ((if (p =? 0)%Z then 2 else 4) + length (events w))%nat).
Proof.
  intros Hs.
  assert (Hs' : sane (primed w)) by (apply sane_primed; assumption).
  assert (Hpp : primed (primed w) = primed w) by (apply primed_primed; assumption).
  split; [|split].
  - intros Hp. split.
    + unfold dble_greater_than_equal_to, orM.
      mcall ltac:(apply dble_equal_to_valid; assumption). mret.
      destruct (window x y (mask p)); [reflexivity|].
      rewrite dble_greater_than_valid, Hpp by assumption. reflexivity.
    + unfold dble_less_than_equal_to, orM.
      mcall ltac:(apply dble_equal_to_valid; assumption). mret.
      destruct (window x y (mask p)); reflexivity.
  - intros Hp. unfold dble_less_than_equal_to, orM.
    mcall ltac:(apply dble_equal_to_valid; assumption || lia). mret.
    destruct (window x y (mask p)); [reflexivity|].
    rewrite dble_less_than_total, Hpp by assumption. reflexivity.
  - intros Hp. split.
    + unfold dble_greater_than_equal_to, orM.
      mcall ltac:(apply dble_equal_to_invalid; lia). mret.
      rewrite dble_greater_than_invalid by lia. reflexivity.
    + unfold dble_less_than_equal_to, orM.
      mcall ltac:(apply dble_equal_to_invalid; lia). mret.
      destruct (Z.eq_dec p 0) as [-> | Hnz].
      * rewrite dble_less_than_zero_precision.
        eexists. split; reflexivity.
      * rewrite dble_less_than_invalid by lia.
        replace (p =? 0) with false by (symmetry; apply Z.eqb_neq; exact Hnz).
        eexists. split; reflexivity.
Qed.

Lemma or_equal_comparators_witness :
  sane initial_world
  /\ (dble_greater_than_equal_to 2.5%float 1.5%float 3 initial_world
      = Some (window 2.5%float 1.5%float (mask 3)
              || exceeds 2.5%float 1.5%float (mask 3),
              primed initial_world)
      /\ dble_less_than_equal_to 2.5%float 1.5%float 3 initial_world
         = if window 2.5%float 1.5%float (mask 3)
           then Some (true, primed initial_world)
           else dble_less_than 2.5%float 1.5%float 3 (primed initial_world))
  /\ dble_less_than_equal_to 2.5%float 1.5%float 3 initial_world
     = Some (window 2.5%float 1.5%float (mask 3)
             || (atof (format_f 3 2.5%float) <? atof (format_f 3 1.5%float))%float,
             primed initial_world)
  /\ (dble_greater_than_equal_to 2.5%float 1.5%float (-1) initial_world
      = Some (false,
              reported "Harklemath" "dble_greater_than" "Invalid precision"
                (reported "Harklemath" "dble_greater_than" "Invalid precision"
                   initial_world))
      /\ exists w',
           dble_less_than_equal_to 2.5%float 1.5%float (-1) initial_world
           = Some (false, w')
           /\ length (events w')
              = ((if (-1 =? 0)%Z then 2 else 4)
                 + length (events initial_world))%nat).
Proof.
  destruct (or_equal_comparators 2.5%float 1.5%float 3 initial_world
              sane_initial_world) as (Hvalid & Hshort & _).
  destruct (or_equal_comparators 2.5%float 1.5%float (-1) initial_world
              sane_initial_world) as (_ & _ & Hinvalid).
  split; [exact sane_initial_world|].
  split; [apply Hvalid; lia|].
  split; [apply Hshort; lia|].
  apply Hinvalid. lia.
Defined.

(** The ceiling is computed once: after a first call of [calc_precision],
    whatever its argument, the statics hold the ceiling, and every later call
    with a valid precision returns its mask and changes nothing. *)
Theorem calc_precision_settles (p : Z) (w : world) :
  sane w ->
  exists v w1,
    calc_precision p w = Some (v, w1)
    /\ maxPrec_static w1 = machine_ceiling
    /\ ints w1 = ints w /\ lines w1 = lines w
    /\ forall q, 1 <= q -> calc_precision q w1 = Some (mask q, w1).
Proof.
  intros Hs.
  assert (Hs' : sane (primed w)) by (apply sane_primed; assumption).
  assert (Hpp : primed (primed w) = primed w) by (apply primed_primed; assumption).
  assert (Hframe : ints (primed w) = ints w /\ lines (primed w) = lines w).
  { unfold primed. destruct (maxPrec_static w =? 0); split; reflexivity. }
  destruct Hframe as [Hi Hl].
  destruct (Z_lt_le_dec p 1) as [Hp|Hp].
  - eexists _, _. split; [apply calc_precision_invalid; assumption|].
    split; [apply (maxPrec_primed w Hs)|]. split; [exact Hi|]. split; [exact Hl|].
    intros q Hq.
    set (w1 := reported "Harklemath" "calc_precision" "Invalid precision" (primed w)).
    assert (Hs1 : sane w1) by exact Hs'.
    rewrite (calc_precision_valid q w1 Hs1 Hq). f_equal. f_equal.
    unfold primed. replace (maxPrec_static w1) with machine_ceiling
      by (symmetry; apply (maxPrec_primed w Hs)).
    reflexivity.
  - eexists _, _. split; [apply calc_precision_valid; assumption|].
    split; [apply (maxPrec_primed w Hs)|]. split; [exact Hi|]. split; [exact Hl|].
    intros q Hq. rewrite (calc_precision_valid q (primed w) Hs' Hq), Hpp.
    reflexivity.
Qed.

Lemma calc_precision_settles_witness :
  sane initial_world
  /\ exists v w1,
       calc_precision 0 initial_world = Some (v, w1)
       /\ maxPrec_static w1 = machine_ceiling
       /\ ints w1 = ints initial_world /\ lines w1 = lines initial_world
       /\ forall q, 1 <= q -> calc_precision q w1 = Some (mask q, w1).
Proof.
  split; [exact sane_initial_world|].
  apply (calc_precision_settles 0 initial_world sane_initial_world).
Defined.

End ComparatorProperties.

(* ------------------------------------------------------------------------- *)
(** ** Truncation in [dble_less_than] *)

Module TruncationClaims.
Import Libm Libc World Harklemath Spec Run Precision Comparators.
Import RoundingClaims ComparatorProperties.
Local Open Scope Z_scope.
#[local] Set Warnings "-inexact-float".




End TruncationClaims.

(** * Rounding and the point-slope form *)

Module RoundingProperties.
Import Libm Libc World Harklemath Spec CIntFacts Run Precision Comparators.
Local Open Scope Z_scope.
#[local] Set Warnings "-inexact-float".

Lemma round_a_dble_frame (roundMe : double) (rndDir : Z) (w : world) :
  supported_rounding (rounding w) ->
  round_a_dble roundMe rndDir w
  = Some (round_value roundMe rndDir, after_round roundMe w).
Proof.
  intros Hr. unfold round_a_dble, round_value, after_round.
  destruct (of_int CInt.INT_MAX * 1.0 <? roundMe)%float; [reflexivity|].
  destruct (roundMe <? of_int CInt.INT_MIN * 1.0)%float; [reflexivity|].
  mret.
  destruct w as [mp rv rm ev hi hl co]. cbn [rounding] in Hr.
  destruct (rndDir =? HM_RND) eqn:Hrnd.
  { apply Z.eqb_eq in Hrnd. subst rndDir.
    destruct Hr as [-> | [-> | [-> | ->]]]; reflexivity. }
  destruct (rndDir =? HM_IN) eqn:Hind.
  { apply Z.eqb_eq in Hind. subst rndDir.
    destruct Hr as [-> | [-> | [-> | ->]]]; reflexivity. }
  cbn [orb]. mret.
  destruct (rndDir =? HM_UP); [reflexivity|].
  destruct (rndDir =? HM_DWN); reflexivity.
Qed.

(** [round_a_dble] leaves the rounding direction of the environment as it
    found it, whatever direction it was asked for; it returns [round_value],
    and changes nothing at all when the double is in the range of [int]. *)
Theorem round_a_dble_restores_direction (roundMe : double) (rndDir : Z)
    (w : world) :
  supported_rounding (rounding w) ->
  exists w',
    round_a_dble roundMe rndDir w = Some (round_value roundMe rndDir, w')
    /\ rounding w' = rounding w
    /\ ((of_int CInt.INT_MAX * 1.0 <? roundMe)%float = false ->
        (roundMe <? of_int CInt.INT_MIN * 1.0)%float = false ->
        w' = w).
Proof.
  intros Hr. exists (after_round roundMe w).
  split; [apply round_a_dble_frame; exact Hr|].
  unfold after_round. split.
  - destruct (of_int CInt.INT_MAX * 1.0 <? roundMe)%float; [reflexivity|].
    destruct (roundMe <? of_int CInt.INT_MIN * 1.0)%float; reflexivity.
  - intros -> ->. reflexivity.
Qed.

Lemma round_a_dble_restores_direction_witness :
  let w := set_rounding FE_UPWARD initial_world in
  supported_rounding (rounding w)
  /\ exists w',
       round_a_dble 2.5%float HM_IN w = Some (round_value 2.5%float HM_IN, w')
       /\ rounding w' = rounding w
       /\ ((of_int CInt.INT_MAX * 1.0 <? 2.5)%float = false ->
           (2.5 <? of_int CInt.INT_MIN * 1.0)%float = false ->
           w' = w).
Proof.
  assert (H : supported_rounding (rounding (set_rounding FE_UPWARD initial_world)))
    by (right; right; left; reflexivity).
  split; [exact H|].
  apply (round_a_dble_restores_direction 2.5%float HM_IN
           (set_rounding FE_UPWARD initial_world) H).
Defined.



(** [solve_point_slope_x] returns 0, with no report, for a slope within
    [10^-15] of zero; for any other slope it returns the rounding of
    [(y0 - y1) / slope + x1], reporting only an abscissa out of the range of
    [int]. *)
Theorem solve_point_slope_x_solves (knownX1 knownY1 knownY0 : Z)
    (slope : double) (rndDbl : Z) (w : world) :
  sane w ->
  let tempX0 :=
    (of_int (CInt.sub knownY0 knownY1) / slope + of_int knownX1)%float in
  solve_point_slope_x knownX1 knownY1 knownY0 slope rndDbl w
  = if window slope 0.0%float (mask DBL_PRECISION)
    then Some (0, primed w)
    else Some (round_value tempX0 rndDbl, after_round tempX0 (primed w)).
Proof.
  intros Hs tempX0. unfold solve_point_slope_x.
  mcall ltac:(apply dble_not_equal_valid;
              [assumption | unfold DBL_PRECISION; lia]).
  destruct (window slope 0.0%float (mask DBL_PRECISION)); cbn [negb]; mred;
    [reflexivity|].
  fold tempX0.
  assert (Hr : supported_rounding (rounding (primed w))).
  { destruct (sane_primed w Hs) as (Hr & _). left. exact Hr. }
  mcall ltac:(apply round_a_dble_frame; exact Hr). reflexivity.
Qed.

Lemma solve_point_slope_x_solves_witness :
  sane initial_world
  /\ solve_point_slope_x 1 1 5 2.0%float HM_RND initial_world
     = if window 2.0%float 0.0%float (mask DBL_PRECISION)
       then Some (0, primed initial_world)
       else Some (round_value (of_int (CInt.sub 5 1) / 2.0 + of_int 1)%float HM_RND,
                  after_round (of_int (CInt.sub 5 1) / 2.0 + of_int 1)%float
                    (primed initial_world)).
Proof.
  split; [exact sane_initial_world|].
  apply (solve_point_slope_x_solves 1 1 5 2.0%float HM_RND initial_world
           sane_initial_world).
Defined.

(** [verify_slope] never verifies a vertical segment, nor two identical
    points: [calc_int_point_slope] gives 0 for them, which is taken for a
    failure and reported, whatever slope and precision are proposed. *)
Theorem verify_slope_vertical (xCoord yCoord1 yCoord2 : Z) (slope : double)
    (maxPrec : Z) (w : world) :
  sane w ->
  verify_slope xCoord yCoord1 xCoord yCoord2 slope maxPrec w
  = Some (false,
          reported "Harkleswarm" "verify_slope" "calc_int_point_slope failed"
            (primed w)).
Proof.
  intros Hs. unfold verify_slope.
  assert (Hc : calc_int_point_slope xCoord yCoord1 xCoord yCoord2 = 0.0%float).
  { unfold calc_int_point_slope, CInt.sub. rewrite Z.sub_diag.
    change (CInt.wrap 0 =? 0) with true. rewrite andb_false_r. reflexivity. }
  rewrite Hc.
  mcall ltac:(apply dble_equal_to_valid;
              [assumption | unfold DBL_PRECISION; lia]).
  assert (window 0.0%float 0.0%float (mask DBL_PRECISION) = true) as ->
    by (vm_compute; reflexivity).
  reflexivity.
Qed.

Lemma verify_slope_vertical_witness :
  sane initial_world
  /\ verify_slope 3 1 3 9 0.0%float 15 initial_world
     = Some (false,
             reported "Harkleswarm" "verify_slope" "calc_int_point_slope failed"
               (primed initial_world)).
Proof.
  split; [exact sane_initial_world|].
  apply (verify_slope_vertical 3 1 9 0.0%float 15 initial_world
           sane_initial_world).
Defined.

End RoundingProperties.

(** * Centers and translated points *)

Module CenterProperties.
Import Libm Libc World Harklemath Spec CIntFacts Run Precision CenterClaims.
Local Open Scope Z_scope.

Lemma insert_twice (px py : addr) (a b c d : Z) (m : gmap addr Z) :
  <[py := d]> (<[px := c]> (<[py := b]> (<[px := a]> m)))
  = <[py := d]> (<[px := c]> m).
Proof.
  apply map_eq. intros i.
  destruct (decide (py = i)) as [->|Hy]; [rewrite !lookup_insert_eq; reflexivity|].
  rewrite !(lookup_insert_ne _ py) by assumption.
  destruct (decide (px = i)) as [->|Hx]; [rewrite !lookup_insert_eq; reflexivity|].
  rewrite !lookup_insert_ne by assumption. reflexivity.
Qed.

Lemma center_coord_inside (dim : Z) (high : bool) :
  3 <= dim -> 1 <= center_coord dim high <= dim.
Proof.
  intros Hdim. unfold center_coord.
  pose proof (Zmod_odd dim) as Hparity.
  pose proof (Z.div_mod dim 2 ltac:(lia)) as Hdm.
  pose proof (Z.div_mod (dim - 1) 2 ltac:(lia)) as Hdm1.
  pose proof (Z.mod_pos_bound (dim - 1) 2 ltac:(lia)) as Hb1.
  pose proof (Z.mod_pos_bound dim 2 ltac:(lia)) as Hb.
  destruct (Z.odd dim); [lia|]. destruct high; lia.
Qed.

(** For any rectangle of at least 3 by 3 cells, [determine_center] writes
    the center of the width through [xCoord] and the center of the height
    through [yCoord], and nothing else; both centers are cells of the
    rectangle. *)
Theorem determine_center_any_rectangle (width height : Z) (px py : addr)
    (orientWin : Z) (w : world) :
  3 <= width <= CInt.INT_MAX -> 3 <= height <= CInt.INT_MAX ->
  is_Some (ints w !! px) -> is_Some (ints w !! py) ->
  let cx := center_coord width (rightward orientWin) in
  let cy := center_coord height (lowward orientWin) in
  determine_center width height (Some px) (Some py) orientWin w
  = Some (true, set_ints (<[py := cy]> (<[px := cx]> (ints w))) w)
  /\ 1 <= cx <= width /\ 1 <= cy <= height.
Proof.
  intros Hw Hh Hx Hy cx cy. split.
  - rewrite determine_center_valid by assumption.
    rewrite insert_twice. reflexivity.
  - split; apply center_coord_inside; lia.
Qed.

Lemma determine_center_any_rectangle_witness :
  let w := set_ints {[ 1%positive := 7; 2%positive := 9 ]} initial_world in
  3 <= 80 <= CInt.INT_MAX /\ 3 <= 24 <= CInt.INT_MAX
  /\ is_Some (ints w !! 1%positive) /\ is_Some (ints w !! 2%positive)
  /\ determine_center 80 24 (Some 1%positive) (Some 2%positive) HM_LOW_RIGHT w
     = Some (true,
             set_ints (<[2%positive := center_coord 24 (lowward HM_LOW_RIGHT)]>
                         (<[1%positive := center_coord 80 (rightward HM_LOW_RIGHT)]>
                            (ints w))) w)
  /\ 1 <= center_coord 80 (rightward HM_LOW_RIGHT) <= 80
  /\ 1 <= center_coord 24 (lowward HM_LOW_RIGHT) <= 24.
Proof.
  intros w.
  assert (Hw : 3 <= 80 <= CInt.INT_MAX) by (unfold CInt.INT_MAX; lia).
  assert (Hh : 3 <= 24 <= CInt.INT_MAX) by (unfold CInt.INT_MAX; lia).
  assert (H1 : is_Some (ints w !! 1%positive)) by (exists 7; reflexivity).
  assert (H2 : is_Some (ints w !! 2%positive)) by (exists 9; reflexivity).
  split; [exact Hw|]. split; [exact Hh|]. split; [exact H1|]. split; [exact H2|].
  apply (determine_center_any_rectangle 80 24 1%positive 2%positive HM_LOW_RIGHT
           w Hw Hh H1 H2).
Defined.

(** An orientation that is none of the four corners is taken for
    [HM_UP_LEFT], silently: the call behaves as the one with [HM_UP_LEFT]
    in every world. *)
Theorem determine_center_default_orientation (width height : Z)
    (xCoord yCoord : pointer) (orientWin : Z) (w : world) :
  orientWin <> HM_UP_LEFT -> orientWin <> HM_UP_RIGHT ->
  orientWin <> HM_LOW_LEFT -> orientWin <> HM_LOW_RIGHT ->
  determine_center width height xCoord yCoord orientWin w
  = determine_center width height xCoord yCoord HM_UP_LEFT w.
Proof.
  intros H1 H2 H3 H4. unfold determine_center.
  apply Z.eqb_neq in H1, H2, H3, H4. rewrite H1, H2, H3, H4.
  reflexivity.
Qed.

Lemma determine_center_default_orientation_witness :
  let w := set_ints {[ 1%positive := 0; 2%positive := 0 ]} initial_world in
  0 <> HM_UP_LEFT /\ 0 <> HM_UP_RIGHT /\ 0 <> HM_LOW_LEFT /\ 0 <> HM_LOW_RIGHT
  /\ determine_center 4 4 (Some 1%positive) (Some 2%positive) 0 w
     = determine_center 4 4 (Some 1%positive) (Some 2%positive) HM_UP_LEFT w.
Proof.
  intros w.
  assert (H1 : 0 <> HM_UP_LEFT) by discriminate.
  assert (H2 : 0 <> HM_UP_RIGHT) by discriminate.
  assert (H3 : 0 <> HM_LOW_LEFT) by discriminate.
  assert (H4 : 0 <> HM_LOW_RIGHT) by discriminate.
  split; [exact H1|]. split; [exact H2|]. split; [exact H3|]. split; [exact H4|].
  apply (determine_center_default_orientation 4 4 (Some 1%positive)
           (Some 2%positive) 0 w H1 H2 H3 H4).
Defined.

(** A NULL pointer is refused with one report, and nothing is written
    through the other pointer. *)
Theorem determine_center_null_pointer (width height : Z)
    (xCoord yCoord : pointer) (orientWin : Z) (w : world) :
  3 <= width -> 3 <= height -> xCoord = NULL \/ yCoord = NULL ->
  determine_center width height xCoord yCoord orientWin w
  = Some (false, reported "Harklemath" "determine_center" "NULL pointer" w).
Proof.
  intros Hw Hh Hnull. unfold determine_center.
  replace (width <? 3) with false by (symmetry; apply Z.ltb_ge; lia).
  replace (height <? 3) with false by (symmetry; apply Z.ltb_ge; lia).
  replace (bool_decide (xCoord = NULL) || bool_decide (yCoord = NULL)) with true;
    [reflexivity|].
  symmetry. apply orb_true_iff.
  destruct Hnull as [-> | ->]; [left|right]; reflexivity.
Qed.

Lemma determine_center_null_pointer_witness :
  let w := set_ints {[ 1%positive := 7 ]} initial_world in
  3 <= 5 /\ 3 <= 5 /\ (Some 1%positive = NULL \/ NULL = NULL)
  /\ determine_center 5 5 (Some 1%positive) NULL HM_UP_LEFT w
     = Some (false, reported "Harklemath" "determine_center" "NULL pointer" w).
Proof.
  intros w.
  assert (Hw : 3 <= 5) by lia.
  assert (Hn : Some 1%positive = NULL \/ NULL = NULL) by (right; reflexivity).
  split; [exact Hw|]. split; [exact Hw|]. split; [exact Hn|].
  apply (determine_center_null_pointer 5 5 (Some 1%positive) NULL HM_UP_LEFT w
           Hw Hw Hn).
Defined.

(** [translate_plot_points] succeeds exactly when the center has positive
    coordinates and the translated point has none negative; it then writes
    [cntX + relX] and [cntY - relY] (the y axis of the window points down),
    and otherwise reports and writes nothing. *)
Theorem translate_plot_points_contract (relX relY cntX cntY : Z)
    (px py : addr) (w : world) :
  CInt.in_range (cntX + relX) = true -> CInt.in_range (cntY - relY) = true ->
  is_Some (ints w !! px) -> is_Some (ints w !! py) ->
  (1 <= cntX /\ 1 <= cntY /\ 0 <= cntX + relX /\ 0 <= cntY - relY ->
   translate_plot_points relX relY cntX cntY (Some px) (Some py) w
   = Some (true,
           set_ints (<[py := cntY - relY]> (<[px := cntX + relX]> (ints w))) w))
  /\ (cntX < 1 \/ cntY < 1 \/ cntX + relX < 0 \/ cntY - relY < 0 ->
      exists reason,
        translate_plot_points relX relY cntX cntY (Some px) (Some py) w
        = Some (false, reported "Harklemath" "translate_plot_points" reason w)).
Proof.
  intros Hrx Hry Hx Hy.
  assert (Hax : CInt.add cntX relX = cntX + relX).
  { unfold CInt.add. apply wrap_id. unfold CInt.in_range in Hrx.
    apply andb_true_iff in Hrx as [H1 H2].
    apply Z.leb_le in H1, H2. lia. }
  assert (Hsy : CInt.sub cntY relY = cntY - relY).
  { unfold CInt.sub. apply wrap_id. unfold CInt.in_range in Hry.
    apply andb_true_iff in Hry as [H1 H2].
    apply Z.leb_le in H1, H2. lia. }
  unfold translate_plot_points. rewrite Hax, Hsy.
  change (bool_decide (Some px = NULL) || bool_decide (Some py = NULL)) with false.
  mred. split.
  - intros (H1 & H2 & H3 & H4).
    replace (cntX <? 1) with false by (symmetry; apply Z.ltb_ge; lia).
    replace (cntY <? 1) with false by (symmetry; apply Z.ltb_ge; lia).
    replace (cntX + relX <? 0) with false by (symmetry; apply Z.ltb_ge; lia).
    replace (cntY - relY <? 0) with false by (symmetry; apply Z.ltb_ge; lia).
    cbn [orb]. mred.
    mcall ltac:(apply store_int_ok; assumption).
    mcall ltac:(apply store_int_ok, ints_insert_is_Some; assumption).
    mret.
    mcall ltac:(apply store_int_ok; do 2 apply ints_insert_is_Some; assumption).
    mcall ltac:(apply store_int_ok; do 3 apply ints_insert_is_Some; assumption).
    unfold ret. cbn [ints set_ints]. rewrite insert_twice. reflexivity.
  - intros Hbad.
    destruct (cntX <? 1) eqn:E1; [eexists; reflexivity|].
    destruct (cntY <? 1) eqn:E2; [eexists; reflexivity|].
    cbn [orb].
    apply Z.ltb_ge in E1, E2.
    replace ((cntX + relX <? 0) || (cntY - relY <? 0)) with true;
      [eexists; reflexivity|].
    symmetry. apply orb_true_iff.
    destruct Hbad as [H|[H|[H|H]]];
      [lia | lia | left; apply Z.ltb_lt; exact H | right; apply Z.ltb_lt; exact H].
Qed.

Lemma translate_plot_points_contract_witness :
  let w := set_ints {[ 1%positive := 0; 2%positive := 0 ]} initial_world in
  CInt.in_range (10 + 3) = true /\ CInt.in_range (10 - 4) = true
  /\ is_Some (ints w !! 1%positive) /\ is_Some (ints w !! 2%positive)
  /\ (1 <= 10 /\ 1 <= 10 /\ 0 <= 10 + 3 /\ 0 <= 10 - 4 ->
      translate_plot_points 3 4 10 10 (Some 1%positive) (Some 2%positive) w
      = Some (true,
              set_ints (<[2%positive := 10 - 4]> (<[1%positive := 10 + 3]> (ints w)))
                       w))
  /\ (10 < 1 \/ 10 < 1 \/ 10 + 3 < 0 \/ 10 - 4 < 0 ->
      exists reason,
        translate_plot_points 3 4 10 10 (Some 1%positive) (Some 2%positive) w
        = Some (false, reported "Harklemath" "translate_plot_points" reason w)).
Proof.
  intros w.
  assert (Hrx : CInt.in_range (10 + 3) = true) by reflexivity.
  assert (Hry : CInt.in_range (10 - 4) = true) by reflexivity.
  assert (H1 : is_Some (ints w !! 1%positive)) by (exists 0; reflexivity).
  assert (H2 : is_Some (ints w !! 2%positive)) by (exists 0; reflexivity).
  split; [exact Hrx|]. split; [exact Hry|]. split; [exact H1|]. split; [exact H2|].
  apply (translate_plot_points_contract 3 4 10 10 1%positive 2%positive w
           Hrx Hry H1 H2).
Defined.

End CenterProperties.

(** * The text of -1 and of 0 *)

Module TextFacts.
Import Libm Libc World Harklemath Spec.
Local Open Scope Z_scope.
#[local] Set Warnings "-inexact-float".

Lemma zeros_snoc (n : nat) : (zeros n ++ "0")%string = zeros (S n).
Proof.
  induction n as [|n IH]; [reflexivity|].
  change (String "0" (zeros n ++ "0") = String "0" (zeros (S n))).
  rewrite IH. reflexivity.
Qed.

Lemma pad_zeros_zero (n : nat) : (1 <= n)%nat -> pad_zeros n "0" = zeros n.
Proof.
  intros Hn. unfold pad_zeros. change (String.length "0") with 1%nat.
  destruct n as [|n]; [lia|].
  replace (S n - 1)%nat with n by lia. apply zeros_snoc.
Qed.

Lemma read_digits_zeros (n : nat) (len : Z) :
  read_digits (zeros n) 0 len = (0, len + Z.of_nat n, EmptyString).
Proof.
  revert len. induction n as [|n IH]; intros len.
  - simpl. rewrite Z.add_0_r. reflexivity.
  - change (read_digits (zeros (S n)) 0 len)
      with (read_digits (zeros n) 0 (len + 1)).
    rewrite IH. f_equal. f_equal. lia.
Qed.

Lemma fixed_zero_fraction (p i : Z) :
  1 <= p -> 0 <= i ->
  fixed p (i * 10 ^ p) = (decimal i ++ "." ++ zeros (Z.to_nat p))%string.
Proof.
  intros Hp Hi. unfold fixed.
  assert (Hpow : 0 < 10 ^ p) by (apply Z.pow_pos_nonneg; lia).
  rewrite Z.div_mul, Z.mod_mul by lia.
  replace (p =? 0) with false by (symmetry; apply Z.eqb_neq; lia).
  change (decimal 0) with "0"%string.
  rewrite pad_zeros_zero by lia. reflexivity.
Qed.

Lemma nearest_same (s : bool) (d : Z) :
  0 < d -> nearest s d d = if s then (-1)%float else 1%float.
Proof.
  intros Hd. unfold nearest.
  replace (d =? 0) with false by (symmetry; apply Z.eqb_neq; lia).
  rewrite Z.sub_diag. cbn [Z.leb Z.compare].
  change (two_pow 0) with 1. rewrite Z.mul_1_r, Z.ltb_irrefl.
  change (Z.max (0 - 52) (-1074)) with (-52).
  change (0 <=? -52) with false. cbv beta iota zeta.
  change (two_pow (- -52)) with 4503599627370496.
  rewrite (Z.mul_comm d), Z.div_mul, Z.mod_mul by lia.
  replace (d <? 2 * 0) with false by (symmetry; apply Z.ltb_ge; lia).
  replace (d =? 2 * 0) with false by (symmetry; apply Z.eqb_neq; lia).
  cbn [orb andb].
  destruct s; vm_compute; reflexivity.
Qed.

Lemma format_f_minus_one (p : Z) :
  1 <= p -> format_f p (-1)%float = ("-1." ++ zeros (Z.to_nat p))%string.
Proof.
  intros Hp. unfold format_f.
  change (Prim2SF (-1)%float) with (S754_finite true 4503599627370496 (-52)).
  cbv beta iota zeta. change (0 <=? -52) with false. cbv beta iota zeta.
  change (two_pow (- -52)) with 4503599627370496.
  rewrite (Z.mul_comm 4503599627370496), Z.div_mul, Z.mod_mul by lia.
  change (4503599627370496 <? 2 * 0) with false.
  change (4503599627370496 =? 2 * 0) with false.
  cbn [orb andb].
  rewrite <- (Z.mul_1_l (10 ^ p)), fixed_zero_fraction by lia.
  reflexivity.
Qed.

Lemma format_f_zero (p : Z) :
  1 <= p -> format_f p 0%float = ("0." ++ zeros (Z.to_nat p))%string.
Proof.
  intros Hp. unfold format_f.
  change (Prim2SF 0%float) with (S754_zero false).
  cbv beta iota zeta.
  change 0 with (0 * 10 ^ p) at 1. rewrite fixed_zero_fraction by lia.
  reflexivity.
Qed.

Lemma atof_minus_one (p : Z) :
  1 <= p -> atof (format_f p (-1)%float) = (-1)%float.
Proof.
  intros Hp. rewrite format_f_minus_one by assumption.
  unfold atof.
  change (skip_spaces ("-1." ++ zeros (Z.to_nat p)))
    with (String "-" (String "1" (String "." (zeros (Z.to_nat p))))).
  cbv beta iota zeta.
  change (starts_with_ci "inf" (String "1" (String "." (zeros (Z.to_nat p)))))
    with false.
  change (starts_with_ci "nan" (String "1" (String "." (zeros (Z.to_nat p)))))
    with false.
  cbv beta iota zeta.
  change (read_digits (String "1" (String "." (zeros (Z.to_nat p)))) 0 0)
    with (1, 1, String "." (zeros (Z.to_nat p))).
  cbv beta iota zeta.
  rewrite read_digits_zeros. cbv beta iota zeta.
  rewrite Z2Nat.id by lia.
  replace (1 + (0 + p) =? 0) with false by (symmetry; apply Z.eqb_neq; lia).
  replace (0 <=? 0 - (0 + p)) with false by (symmetry; apply Z.leb_gt; lia).
  replace (- (0 - (0 + p))) with p by lia.
  replace (1 * 10 ^ (0 + p) + 0) with (10 ^ p) by (rewrite Z.add_0_l; lia).
  apply (nearest_same true). apply Z.pow_pos_nonneg; lia.
Qed.

Lemma atof_zero (p : Z) :
  1 <= p -> atof (format_f p 0%float) = 0%float.
Proof.
  intros Hp. rewrite format_f_zero by assumption.
  unfold atof.
  change (skip_spaces ("0." ++ zeros (Z.to_nat p)))
    with (String "0" (String "." (zeros (Z.to_nat p)))).
  cbv beta iota zeta.
  change (starts_with_ci "inf" (String "0" (String "." (zeros (Z.to_nat p)))))
    with false.
  change (starts_with_ci "nan" (String "0" (String "." (zeros (Z.to_nat p)))))
    with false.
  cbv beta iota zeta.
  change (read_digits (String "0" (String "." (zeros (Z.to_nat p)))) 0 0)
    with (0, 1, String "." (zeros (Z.to_nat p))).
  cbv beta iota zeta.
  rewrite read_digits_zeros. cbv beta iota zeta.
  rewrite Z2Nat.id by lia.
  replace (1 + (0 + p) =? 0) with false by (symmetry; apply Z.eqb_neq; lia).
  replace (0 <=? 0 - (0 + p)) with false by (symmetry; apply Z.leb_gt; lia).
  rewrite Z.mul_0_l, Z.add_0_l. reflexivity.
Qed.

End TextFacts.

(** * Points in triangles *)

Module TriangleProperties.
Import Libm Libc World Harklemath Spec Run Precision Comparators TriangleClaims.
Import ComparatorProperties TextFacts.
Local Open Scope Z_scope.
#[local] Set Warnings "-inexact-float".

(** [calculate_triangle_area] always returns, and returns the sentinel for
    three degenerate points. *)
Lemma calculate_triangle_area_returns (AX AY BX BY CX CY : Z) (w : world) :
  sane w ->
  exists v w',
    calculate_triangle_area AX AY BX BY CX CY w = Some (v, w')
    /\ sane w'
    /\ (degenerate AX AY BX BY CX CY -> v = (-1)%float).
Proof.
  intros Hs.
  destruct (((AX =? BX) && (AY =? BY)) || ((AX =? CX) && (AY =? CY))
            || ((BX =? CX) && (BY =? CY))) eqn:Ed.
  { eexists _, _. unfold calculate_triangle_area. rewrite Ed.
    split; [reflexivity|]. split; [exact Hs|]. reflexivity. }
  destruct (((AX =? BX) && (AX =? CX)) || ((AY =? BY) && (AY =? CY))) eqn:El.
  { eexists _, _. unfold calculate_triangle_area. rewrite Ed, El.
    split; [reflexivity|]. split; [exact Hs|]. reflexivity. }
  assert (Hdup : ~ two_coincide AX AY BX BY CX CY).
  { intros H. apply two_coincide_test in H. congruence. }
  assert (Hline : ~ axis_aligned AX AY BX BY CX CY).
  { intros H. apply axis_aligned_test in H. congruence. }
  eexists _, _.
  split; [apply (calculate_triangle_area_heron _ _ _ _ _ _ w Hs Hdup Hline)|].
  pose proof (sane_primed w Hs) as Hs'.
  split.
  - match goal with |- sane (if ?c then _ else _) => destruct c end; exact Hs'.
  - intros [H|H]; contradiction.
Qed.

Lemma sentinel_is_negative (p : Z) :
  1 <= p ->
  (atof (format_f p (-1)%float) <? atof (format_f p 0%float))%float = true.
Proof.
  intros Hp. rewrite atof_minus_one, atof_zero by assumption. reflexivity.
Qed.

(** [verify_triangle] verifies no point for which one of the four triangles
    it measures is degenerate: the point is a vertex, or shares its row or
    its column with the two ends of a side, or the triangle itself is
    degenerate. *)
Theorem verify_triangle_rejects_degenerate
    (AX AY BX BY CX CY xCoord yCoord : Z) (maxPrec : Z) (w : world) :
  sane w -> 1 <= maxPrec <= 766 ->
  degenerate AX AY BX BY xCoord yCoord
  \/ degenerate BX BY CX CY xCoord yCoord
  \/ degenerate CX CY AX AY xCoord yCoord
  \/ degenerate AX AY BX BY CX CY ->
  exists w',
    verify_triangle AX AY BX BY CX CY xCoord yCoord maxPrec w = Some (false, w').
Proof.
  intros Hs Hp Hdeg.
  destruct (calculate_triangle_area_returns AX AY BX BY xCoord yCoord w Hs)
    as (v1 & w1 & E1 & Hs1 & D1).
  destruct (calculate_triangle_area_returns BX BY CX CY xCoord yCoord w1 Hs1)
    as (v2 & w2 & E2 & Hs2 & D2).
  destruct (calculate_triangle_area_returns CX CY AX AY xCoord yCoord w2 Hs2)
    as (v3 & w3 & E3 & Hs3 & D3).
  destruct (calculate_triangle_area_returns AX AY BX BY CX CY w3 Hs3)
    as (v4 & w4 & E4 & Hs4 & D4).
  assert (Hs' : sane (primed w4)) by (apply sane_primed; assumption).
  assert (Hpp : primed (primed w4) = primed w4) by (apply primed_primed; assumption).
  unfold verify_triangle.
  mcall ltac:(exact E1). mcall ltac:(exact E2).
  mcall ltac:(exact E3). mcall ltac:(exact E4).
  mcall ltac:(apply dble_less_than_total; assumption).
  destruct (atof (format_f maxPrec v1) <? atof (format_f maxPrec 0))%float eqn:L1;
    [eexists; reflexivity|].
  mcall ltac:(apply dble_less_than_total; assumption). rewrite Hpp.
  destruct (atof (format_f maxPrec v2) <? atof (format_f maxPrec 0))%float eqn:L2;
    [eexists; reflexivity|].
  mcall ltac:(apply dble_less_than_total; assumption). rewrite Hpp.
  destruct (atof (format_f maxPrec v3) <? atof (format_f maxPrec 0))%float eqn:L3;
    [eexists; reflexivity|].
  mcall ltac:(apply dble_less_than_total; assumption). rewrite Hpp.
  destruct (atof (format_f maxPrec v4) <? atof (format_f maxPrec 0))%float eqn:L4;
    [eexists; reflexivity|].
  exfalso.
  pose proof (sentinel_is_negative maxPrec ltac:(lia)) as Hneg.
  destruct Hdeg as [H|[H|[H|H]]];
    [apply D1 in H | apply D2 in H | apply D3 in H | apply D4 in H];
    subst; congruence.
Qed.

Lemma verify_triangle_rejects_degenerate_witness :
  sane initial_world /\ 1 <= 15 <= 766
  /\ (degenerate 0 0 4 0 2 0 \/ degenerate 4 0 0 4 2 0
      \/ degenerate 0 4 0 0 2 0 \/ degenerate 0 0 4 0 0 4)
  /\ exists w',
       verify_triangle 0 0 4 0 0 4 2 0 15 initial_world = Some (false, w').
Proof.
  assert (Hp : 1 <= 15 <= 766) by lia.
  assert (Hd : degenerate 0 0 4 0 2 0 \/ degenerate 4 0 0 4 2 0
               \/ degenerate 0 4 0 0 2 0 \/ degenerate 0 0 4 0 0 4).
  { left. right. right. split; reflexivity. }
  split; [exact sane_initial_world|]. split; [exact Hp|]. split; [exact Hd|].
  apply (verify_triangle_rejects_degenerate 0 0 4 0 0 4 2 0 15 initial_world
           sane_initial_world Hp Hd).
Defined.

End TriangleProperties.

(** * Integers as doubles *)

Module IntegerDoubles.
Import Libm Libc World Harklemath Spec CIntFacts.
Local Open Scope Z_scope.
#[local] Set Warnings "-inexact-float".

Lemma digits2_pos_iter_xO (p d : positive) :
  digits2_pos (Pos.iter xO p d) = (digits2_pos p + d)%positive.
Proof.
  induction d as [|d IH] using Pos.peano_ind.
  - simpl. rewrite Pos.add_1_r. reflexivity.
  - rewrite Pos.iter_succ. simpl. rewrite IH, Pos.add_succ_r. reflexivity.
Qed.

Lemma binary_round_short (sx : bool) (p : positive) :
  Z.pos (digits2_pos p) < 53 ->
  binary_round prec emax sx p 0
  = S754_finite sx (Pos.iter xO p (Z.to_pos (53 - Z.pos (digits2_pos p))))
                (Z.pos (digits2_pos p) - 53).
Proof.
  intros Hd. unfold binary_round, shl_align.
  assert (Hf : fexp prec emax (Z.pos (digits2_pos p) + 0)
               = Z.pos (digits2_pos p) - 53).
  { unfold fexp, emin, prec, emax. lia. }
  rewrite Hf.
  destruct (Z.pos (digits2_pos p) - 53 - 0) as [|k|k] eqn:Hk; try lia.
  set (mz := Pos.iter xO p k). set (ez := Z.pos (digits2_pos p) - 53).
  assert (Hdz : Zdigits2 (Z.pos mz) = 53).
  { unfold Zdigits2, mz. rewrite digits2_pos_iter_xO. lia. }
  assert (Hsh : fexp prec emax (Zdigits2 (Z.pos mz) + ez) - ez = 0).
  { rewrite Hdz. unfold fexp, emin, prec, emax, ez. lia. }
  unfold binary_round_aux, shr_fexp. rewrite Hsh.
  cbn [shr shr_record_of_loc shr_m loc_of_shr_record round_nearest_even].
  rewrite Hsh.
  cbn [shr shr_record_of_loc shr_m].
  replace (ez <=? emax - prec) with true
    by (symmetry; apply Z.leb_le; unfold emax, prec, ez; lia).
  unfold mz. replace (Z.to_pos (53 - Z.pos (digits2_pos p))) with k by lia.
  reflexivity.
Qed.

Lemma digits2_pos_le (p : positive) (k : nat) :
  Z.pos p < 2 ^ Z.of_nat k -> (Z.pos (digits2_pos p) <= Z.of_nat k)%Z.
Proof.
  revert p. induction k as [|k IH]; intros p Hp.
  - simpl in Hp. lia.
  - rewrite Nat2Z.inj_succ, Z.pow_succ_r in Hp by lia.
    destruct p as [p|p|]; simpl digits2_pos.
    + specialize (IH p ltac:(lia)). lia.
    + specialize (IH p ltac:(lia)). lia.
    + lia.
Qed.

(** A nonzero [int] converts to a nonzero finite double. *)
Lemma of_int_finite (n : Z) :
  n <> 0 -> CInt.INT_MIN <= n <= CInt.INT_MAX ->
  exists m e, Prim2SF (of_int n) = S754_finite (n <? 0) m e.
Proof.
  unfold CInt.INT_MIN, CInt.INT_MAX. intros Hn Hr.
  assert (Hpos : forall k, 0 < k <= 2147483648 ->
            exists m e,
              Prim2SF (PrimFloat.of_uint63 (Uint63.of_Z k)) = S754_finite false m e).
  { intros k Hk. rewrite of_uint63_spec, Uint63.of_Z_spec.
    change Uint63.wB with 9223372036854775808. rewrite Z.mod_small by lia.
    destruct k as [|p|p]; try lia. unfold binary_normalize.
    eexists _, _. apply binary_round_short.
    pose proof (digits2_pos_le p 32 ltac:(simpl; lia)). lia. }
  unfold of_int. destruct (n <? 0) eqn:Hneg.
  - apply Z.ltb_lt in Hneg.
    destruct (Hpos (- n) ltac:(lia)) as (m & e & H).
    exists m, e. rewrite opp_spec, H. reflexivity.
  - apply Z.ltb_ge in Hneg. apply Hpos. lia.
Qed.

End IntegerDoubles.

(** * Segments *)

Module SegmentProperties.
Import Libm Libc World Harklemath Spec CIntFacts Run Precision Comparators.
Import MidPointClaims IntegerDoubles.
Local Open Scope Z_scope.
#[local] Set Warnings "-inexact-float".

Lemma opp_opp (x : double) : PrimFloat.opp (PrimFloat.opp x) = x.
Proof.
  apply Prim2SF_inj. rewrite !opp_spec.
  destruct (Prim2SF x) as [s|s| |s m e]; simpl; rewrite ?negb_involutive;
    reflexivity.
Qed.

Lemma pow2_opp (x : double) : pow2 (PrimFloat.opp x) = pow2 x.
Proof.
  apply Prim2SF_inj. unfold pow2. rewrite !mul_spec, opp_spec.
  destruct (Prim2SF x) as [s|s| |s m e]; simpl; try destruct s; reflexivity.
Qed.

Lemma of_int_opp (n : Z) : n <> 0 -> of_int (- n) = PrimFloat.opp (of_int n).
Proof.
  intros Hn. unfold of_int.
  destruct (n <? 0) eqn:H1; destruct (- n <? 0) eqn:H2;
    try (apply Z.ltb_lt in H1); try (apply Z.ltb_ge in H1);
    try (apply Z.ltb_lt in H2); try (apply Z.ltb_ge in H2); try lia.
  - rewrite opp_opp. reflexivity.
  - rewrite Z.opp_involutive. reflexivity.
Qed.

Lemma wrap_opp (d : Z) :
  CInt.wrap (- d) = - CInt.wrap d
  \/ (CInt.wrap d = CInt.INT_MIN /\ CInt.wrap (- d) = CInt.INT_MIN).
Proof.
  unfold CInt.wrap, CInt.INT_MIN.
  pose proof (Z.div_mod (d + 2147483648) 4294967296 ltac:(lia)) as H1.
  pose proof (Z.mod_pos_bound (d + 2147483648) 4294967296 ltac:(lia)) as B1.
  pose proof (Z.div_mod (- d + 2147483648) 4294967296 ltac:(lia)) as H2.
  pose proof (Z.mod_pos_bound (- d + 2147483648) 4294967296 ltac:(lia)) as B2.
  lia.
Qed.

Lemma pow2_of_int_wrap_opp (d : Z) :
  pow2 (of_int (CInt.wrap (- d))) = pow2 (of_int (CInt.wrap d)).
Proof.
  destruct (wrap_opp d) as [H | [H1 H2]].
  - rewrite H. destruct (Z.eq_dec (CInt.wrap d) 0) as [H0 | H0].
    + rewrite H0. reflexivity.
    + rewrite of_int_opp by assumption. apply pow2_opp.
  - rewrite H1, H2. reflexivity.
Qed.

Lemma abs_wrap_opp (d : Z) :
  CInt.abs (CInt.wrap (- d)) = CInt.abs (CInt.wrap d).
Proof.
  destruct (wrap_opp d) as [H | [H1 H2]].
  - rewrite H. unfold CInt.abs. rewrite Z.abs_opp. reflexivity.
  - rewrite H1, H2. reflexivity.
Qed.

Lemma calc_int_point_dist_swap (xCoord1 yCoord1 xCoord2 yCoord2 : Z) :
  calc_int_point_dist xCoord1 yCoord1 xCoord2 yCoord2
  = calc_int_point_dist xCoord2 yCoord2 xCoord1 yCoord1.
Proof.
  unfold calc_int_point_dist.
  rewrite (Z.eqb_sym xCoord1 xCoord2), (Z.eqb_sym yCoord1 yCoord2).
  destruct (negb (xCoord2 =? xCoord1) || negb (yCoord2 =? yCoord1));
    [|reflexivity].
  unfold CInt.sub.
  replace (xCoord2 - xCoord1) with (- (xCoord1 - xCoord2)) by lia.
  replace (yCoord2 - yCoord1) with (- (yCoord1 - yCoord2)) by lia.
  rewrite !pow2_of_int_wrap_opp. reflexivity.
Qed.

Lemma mid_point_of_swap (l1 l2 : hmLineLen) (rndDbl : Z) :
  mid_point_of l1 l2 rndDbl = mid_point_of l2 l1 rndDbl.
Proof.
  unfold mid_point_of, CInt.sub.
  replace (xCoord l2 - xCoord l1) with (- (xCoord l1 - xCoord l2)) by lia.
  replace (yCoord l2 - yCoord l1) with (- (yCoord l1 - yCoord l2)) by lia.
  rewrite !abs_wrap_opp.
  rewrite (Z.min_comm (xCoord l1)), (Z.min_comm (yCoord l1)).
  rewrite (calc_int_point_dist_swap (xCoord l1)). reflexivity.
Qed.

(** The distance between two points does not depend on the order in which
    they are given, and it is 0 exactly as the code has it for two
    identical points. *)
Theorem calc_int_point_dist_symmetric (xCoord1 yCoord1 xCoord2 yCoord2 : Z) :
  calc_int_point_dist xCoord1 yCoord1 xCoord2 yCoord2
  = calc_int_point_dist xCoord2 yCoord2 xCoord1 yCoord1
  /\ calc_int_point_dist xCoord1 yCoord1 xCoord1 yCoord1 = 0%float.
Proof.
  split; [apply calc_int_point_dist_swap|].
  unfold calc_int_point_dist. rewrite !Z.eqb_refl. reflexivity.
Qed.

(** The midpoint does not depend on the order of the two end points: stored
    apart from them, [determine_mid_point] writes the same midpoint for
    (point1, point2) and for (point2, point1). *)
Theorem determine_mid_point_order_free (a1 a2 am : addr)
    (l1 l2 lm : hmLineLen) (rndDbl : Z) (w : world) :
  lines w !! a1 = Some l1 -> lines w !! a2 = Some l2 -> lines w !! am = Some lm ->
  a1 <> a2 -> am <> a1 -> am <> a2 ->
  (xCoord l1 <> xCoord l2 \/ yCoord l1 <> yCoord l2) ->
  exists w1 w2,
    determine_mid_point (Some a1) (Some a2) (Some am) rndDbl w = Some (true, w1)
    /\ determine_mid_point (Some a2) (Some a1) (Some am) rndDbl w = Some (true, w2)
    /\ lines w1 = lines w2
    /\ lines w1 !! am = Some (mid_point_of l1 l2 rndDbl).
Proof.
  intros H1 H2 Hm H12 Hm1 Hm2 Hc.
  destruct (determine_mid_point_apart a1 a2 am l1 l2 lm rndDbl w)
    as (w1 & E1 & L1 & _); try assumption.
  destruct (determine_mid_point_apart a2 a1 am l2 l1 lm rndDbl w)
    as (w2 & E2 & L2 & _); try assumption; try congruence.
  { destruct Hc as [Hc|Hc]; [left|right]; congruence. }
  exists w1, w2. split; [exact E1|]. split; [exact E2|].
  rewrite L1, L2, (mid_point_of_swap l2 l1). split; [reflexivity|].
  apply lookup_insert_eq.
Qed.

Lemma determine_mid_point_order_free_witness :
  let l1 := mk_hmLineLen 1 7 0%float in
  let l2 := mk_hmLineLen 6 2 0%float in
  let lm := mk_hmLineLen 0 0 0%float in
  let w := set_lines {[ 1%positive := l1; 2%positive := l2; 3%positive := lm ]}
                     initial_world in
  exists w1 w2,
    determine_mid_point (Some 1%positive) (Some 2%positive) (Some 3%positive)
                        HM_RND w = Some (true, w1)
    /\ determine_mid_point (Some 2%positive) (Some 1%positive) (Some 3%positive)
                           HM_RND w = Some (true, w2)
    /\ lines w1 = lines w2
    /\ lines w1 !! 3%positive = Some (mid_point_of l1 l2 HM_RND).
Proof.
  intros l1 l2 lm w.
  apply (determine_mid_point_order_free 1%positive 2%positive 3%positive
           l1 l2 lm HM_RND w);
    try reflexivity; try discriminate.
  left. discriminate.
Defined.

Lemma slope_of_level_segment (xCoord1 xCoord2 yCoord : Z) :
  exists s, Prim2SF (calc_int_point_slope xCoord1 yCoord xCoord2 yCoord)
            = S754_zero s.
Proof.
  unfold calc_int_point_slope.
  destruct ((negb (xCoord1 =? xCoord2) || negb (yCoord =? yCoord))
            && negb (CInt.sub xCoord2 xCoord1 =? 0)) eqn:Hg;
    [|exists false; reflexivity].
  apply andb_true_iff in Hg as [_ Hnz].
  apply negb_true_iff, Z.eqb_neq in Hnz.
  destruct (of_int_finite (CInt.sub xCoord2 xCoord1) Hnz (wrap_range _))
    as (m & e & Hfin).
  unfold CInt.sub at 1. rewrite Z.sub_diag.
  rewrite div_spec, Hfin.
  change (Prim2SF (of_int (CInt.wrap 0))) with (S754_zero false).
  eexists. reflexivity.
Qed.

Lemma window_zero (c : double) (s : bool) :
  Prim2SF c = S754_zero s ->
  window 0%float c (mask DBL_PRECISION) = true.
Proof.
  intros Hc. rewrite <- (SF2Prim_Prim2SF c), Hc.
  destruct s; vm_compute; reflexivity.
Qed.

(** [verify_slope] never verifies a horizontal segment: its slope is a zero,
    which is taken for a failure of [calc_int_point_slope] and reported,
    whatever slope and precision are proposed. *)
Theorem verify_slope_horizontal (xCoord1 xCoord2 yCoord : Z) (slope : double)
    (maxPrec : Z) (w : world) :
  sane w ->
  verify_slope xCoord1 yCoord xCoord2 yCoord slope maxPrec w
  = Some (false,
          reported "Harkleswarm" "verify_slope" "calc_int_point_slope failed"
            (primed w)).
Proof.
  intros Hs. unfold verify_slope.
  destruct (slope_of_level_segment xCoord1 xCoord2 yCoord) as (s & Hzero).
  mcall ltac:(apply dble_equal_to_valid;
              [assumption | unfold DBL_PRECISION; lia]).
  rewrite (window_zero _ s Hzero). reflexivity.
Qed.

Lemma verify_slope_horizontal_witness :
  sane initial_world
  /\ verify_slope 1 5 9 5 0%float 15 initial_world
     = Some (false,
             reported "Harkleswarm" "verify_slope" "calc_int_point_slope failed"
               (primed initial_world)).
Proof.
  split; [exact sane_initial_world|].
  apply (verify_slope_horizontal 1 9 5 0%float 15 initial_world
           sane_initial_world).
Defined.

End SegmentProperties.

(** * The centroid of a triangle *)

Module CentroidProperties.
Import Libm Libc World Harklemath Spec CIntFacts Run Precision Comparators.
Import MidPointClaims TriangleClaims RoundingProperties.
Local Open Scope Z_scope.
#[local] Set Warnings "-inexact-float".

Lemma after_round_fields (x : double) (w : world) :
  lines (after_round x w) = lines w /\ ints (after_round x w) = ints w
  /\ rounding (after_round x w) = rounding w.
Proof.
  unfold after_round.
  destruct (of_int CInt.INT_MAX * 1.0 <? x)%float; [repeat split|].
  destruct (x <? of_int CInt.INT_MIN * 1.0)%float; repeat split.
Qed.

(** Given three distinct points with distinct coordinates,
    [determine_triangle_centroid] stores the rounded means of the three
    abscissas and of the three ordinates, leaves the distance of the
    destination and every other object untouched, and prints the result to
    stderr. The destination may be one of the three points. *)
Theorem determine_triangle_centroid_stores_mean (a1 a2 a3 ac : addr)
    (l1 l2 l3 lc : hmLineLen) (rndDbl : Z) (w : world) :
  supported_rounding (rounding w) ->
  lines w !! a1 = Some l1 -> lines w !! a2 = Some l2 ->
  lines w !! a3 = Some l3 -> lines w !! ac = Some lc ->
  a1 <> a2 -> a1 <> a3 -> a2 <> a3 ->
  ~ two_coincide (xCoord l1) (yCoord l1) (xCoord l2) (yCoord l2)
                 (xCoord l3) (yCoord l3) ->
  let x := round_value
             (of_int (CInt.add (CInt.add (xCoord l1) (xCoord l2)) (xCoord l3)) / 3)%float
             rndDbl in
  let y := round_value
             (of_int (CInt.add (CInt.add (yCoord l1) (yCoord l2)) (yCoord l3)) / 3)%float
             rndDbl in
  exists w',
    determine_triangle_centroid (Some a1) (Some a2) (Some a3) (Some ac) rndDbl w
    = Some (true, w')
    /\ lines w' = <[ac := mk_hmLineLen x y (dist lc)]> (lines w)
    /\ ints w' = ints w
    /\ rounding w' = rounding w
    /\ head (events w') = Some (to_stderr (centroid_line x y)).
Proof.
  intros Hr H1 H2 H3 Hc H12 H13 H23 Hdup x y.
  unfold determine_triangle_centroid.
  rewrite !bool_decide_eq_false_2 by (unfold NULL; congruence).
  cbn [orb]. mred.
  mcall ltac:(apply load_line_ok; exact H1).
  mcall ltac:(apply load_line_ok; exact H2).
  mcall ltac:(apply load_line_ok; exact H3).
  destruct (((xCoord l1 =? xCoord l2) && (yCoord l1 =? yCoord l2))
            || ((xCoord l1 =? xCoord l3) && (yCoord l1 =? yCoord l3))
            || ((xCoord l2 =? xCoord l3) && (yCoord l2 =? yCoord l3))) eqn:Ed;
    [apply two_coincide_test in Ed; contradiction|].
  mret.
  mcall ltac:(apply load_line_ok; exact H1).
  mcall ltac:(apply load_line_ok; exact H2).
  mcall ltac:(apply load_line_ok; exact H3).
  fold x.
  set (tmpX := (of_int (CInt.add (CInt.add (xCoord l1) (xCoord l2)) (xCoord l3)) / 3)%float).
  set (tmpY := (of_int (CInt.add (CInt.add (yCoord l1) (yCoord l2)) (yCoord l3)) / 3)%float).
  destruct (after_round_fields tmpX w) as (L1 & I1 & R1).
  mcall ltac:(apply round_a_dble_frame; exact Hr).
  fold x.
  set (w1 := after_round tmpX w) in *.
  mcall ltac:(apply (store_xCoord_ok ac _ lc); rewrite L1; exact Hc).
  set (w2 := set_lines (<[ac := mk_hmLineLen x (yCoord lc) (dist lc)]> (lines w1)) w1).
  destruct (after_round_fields tmpY w2) as (L2 & I2 & R2).
  assert (Hr2 : supported_rounding (rounding w2))
    by (change (rounding w2) with (rounding w1); rewrite R1; exact Hr).
  mcall ltac:(apply round_a_dble_frame; exact Hr2).
  fold y.
  set (w3 := after_round tmpY w2) in *.
  assert (Hc3 : lines w3 !! ac = Some (mk_hmLineLen x (yCoord lc) (dist lc))).
  { rewrite L2. apply lookup_insert_eq. }
  mcall ltac:(apply (store_yCoord_ok ac _ _ _ Hc3)).
  cbn [xCoord yCoord dist].
  set (w4 := set_lines (<[ac := mk_hmLineLen x y (dist lc)]> (lines w3)) w3).
  mcall ltac:(apply (load_line_ok ac (mk_hmLineLen x y (dist lc)));
              apply lookup_insert_eq).
  cbn [xCoord yCoord].
  eexists. split; [reflexivity|].
  cbn [lines ints rounding events set_events set_lines w4].
  rewrite L2. cbn [lines set_lines w2]. rewrite L1, insert_insert_eq.
  split; [reflexivity|]. split; [rewrite I2; exact I1|].
  split; [rewrite R2; exact R1|]. reflexivity.
Qed.

Lemma determine_triangle_centroid_stores_mean_witness :
  let l1 := mk_hmLineLen 0 0 0%float in
  let l2 := mk_hmLineLen 6 0 0%float in
  let l3 := mk_hmLineLen 0 9 1.5%float in
  let w := set_lines {[ 1%positive := l1; 2%positive := l2; 3%positive := l3 ]}
                     initial_world in
  exists w',
    determine_triangle_centroid (Some 1%positive) (Some 2%positive)
      (Some 3%positive) (Some 3%positive) HM_RND w = Some (true, w')
    /\ lines w' = <[3%positive := mk_hmLineLen 2 3 1.5%float]> (lines w)
    /\ ints w' = ints w
    /\ rounding w' = rounding w
    /\ head (events w') = Some (to_stderr (centroid_line 2 3)).
Proof.
  intros l1 l2 l3 w.
  apply (determine_triangle_centroid_stores_mean 1%positive 2%positive 3%positive
           3%positive l1 l2 l3 l3 HM_RND w);
    try reflexivity; try discriminate.
  - left. reflexivity.
  - unfold two_coincide. cbn. lia.
Defined.

(** Refused arguments: a NULL pointer, the same pointer for two of the three
    points, or two points with the same coordinates. One report is made
    (under the name determine_triangle_center) and nothing is written. *)
Theorem determine_triangle_centroid_refusals
    (point1_ptr point2_ptr point3_ptr centerPoint_ptr : pointer) (rndDbl : Z)
    (w : world) :
  centroid_refused point1_ptr point2_ptr point3_ptr centerPoint_ptr w ->
  exists reason,
    determine_triangle_centroid point1_ptr point2_ptr point3_ptr centerPoint_ptr
                                rndDbl w
    = Some (false, reported "Harkleswarm" "determine_triangle_center" reason w).
Proof.
  intros Href. unfold determine_triangle_centroid.
  destruct (bool_decide (point1_ptr = NULL)) eqn:E1; [eexists; reflexivity|].
  destruct (bool_decide (point2_ptr = NULL)) eqn:E2; [eexists; reflexivity|].
  destruct (bool_decide (point3_ptr = NULL)) eqn:E3; [eexists; reflexivity|].
  destruct (bool_decide (centerPoint_ptr = NULL)) eqn:Ec; [eexists; reflexivity|].
  destruct (bool_decide (point1_ptr = point2_ptr)
            || bool_decide (point1_ptr = point3_ptr)
            || bool_decide (point2_ptr = point3_ptr)) eqn:Ed;
    [eexists; reflexivity|].
  apply bool_decide_eq_false in E1, E2, E3, Ec.
  apply orb_false_iff in Ed as [Ed E23].
  apply orb_false_iff in Ed as [E12 E13].
  apply bool_decide_eq_false in E12, E13, E23.
  destruct Href as [H|[H|[H|[H|[H|[H|[H|H]]]]]]]; try contradiction.
  destruct H as (a1 & a2 & a3 & l1 & l2 & l3 & -> & -> & -> & H1 & H2 & H3 & Hdup).
  mred.
  mcall ltac:(apply load_line_ok; exact H1).
  mcall ltac:(apply load_line_ok; exact H2).
  mcall ltac:(apply load_line_ok; exact H3).
  apply two_coincide_test in Hdup. rewrite Hdup.
  eexists. reflexivity.
Qed.

Lemma determine_triangle_centroid_refusals_witness :
  let w := set_lines {[ 1%positive := mk_hmLineLen 2 2 0%float;
                        2%positive := mk_hmLineLen 5 1 0%float;
                        3%positive := mk_hmLineLen 2 2 0%float ]}
                     initial_world in
  centroid_refused (Some 1%positive) (Some 2%positive) (Some 3%positive)
                   (Some 1%positive) w
  /\ exists reason,
       determine_triangle_centroid (Some 1%positive) (Some 2%positive)
         (Some 3%positive) (Some 1%positive) HM_RND w
       = Some (false, reported "Harkleswarm" "determine_triangle_center" reason w).
Proof.
  intros w.
  assert (H : centroid_refused (Some 1%positive) (Some 2%positive)
                (Some 3%positive) (Some 1%positive) w).
  { do 7 right.
    exists 1%positive, 2%positive, 3%positive,
      (mk_hmLineLen 2 2 0%float), (mk_hmLineLen 5 1 0%float),
      (mk_hmLineLen 2 2 0%float).
    repeat (split; [reflexivity|]).
    right. left. split; reflexivity. }
  split; [exact H|].
  apply (determine_triangle_centroid_refusals _ _ _ _ HM_RND w H).
Defined.

End CentroidProperties.

(** * Points of an ellipse *)

Module EllipseProperties.
Import Libm Libc World Harklemath Spec CIntFacts Run Precision Comparators.
Import RoundingClaims CenterClaims EllipseClaims ComparatorProperties.
Local Open Scope Z_scope.
#[local] Set Warnings "-inexact-float".

Lemma calc_ellipse_x_coord_returns (aVal bVal yVal : double) (w : world) :
  exists x w',
    calc_ellipse_x_coord aVal bVal yVal w = Some (x, w') /\ ints w' = ints w.
Proof.
  unfold calc_ellipse_x_coord.
  destruct (DBL_EQUAL aVal 0%float); [eexists _, _; split; reflexivity|].
  destruct (DBL_EQUAL bVal 0%float); [eexists _, _; split; reflexivity|].
  destruct (DBL_GRTR yVal bVal); eexists _, _; split; reflexivity.
Qed.

Lemma calc_ellipse_y_coord_returns (aVal bVal xVal : double) (w : world) :
  exists y w',
    calc_ellipse_y_coord aVal bVal xVal w = Some (y, w') /\ ints w' = ints w.
Proof.
  unfold calc_ellipse_y_coord.
  destruct (DBL_EQUAL aVal 0%float); [eexists _, _; split; reflexivity|].
  destruct (DBL_EQUAL bVal 0%float); [eexists _, _; split; reflexivity|].
  destruct (DBL_GRTR xVal aVal); eexists _, _; split; reflexivity.
Qed.

Lemma store_elem_inside (buf : list double) (i : Z) (v : double) (w : world) :
  0 <= i < Z.of_nat (length buf) ->
  store_elem (Some buf) i v w = Some (Some (<[Z.to_nat i := v]> buf), w).
Proof.
  intros Hi. unfold store_elem.
  replace ((0 <=? i) && (i <? Z.of_nat (length buf))) with true; [reflexivity|].
  symmetry. apply andb_true_iff. split; [apply Z.leb_le|apply Z.ltb_lt]; lia.
Qed.

Lemma store_elem_outside (buf : list double) (i : Z) (v : double) (w : world) :
  Z.of_nat (length buf) <= i ->
  store_elem (Some buf) i v w = None.
Proof.
  intros Hi. unfold store_elem.
  replace (i <? Z.of_nat (length buf)) with false
    by (symmetry; apply Z.ltb_ge; lia).
  rewrite andb_false_r. reflexivity.
Qed.

(** The coordinate loop along the y axis advances [count] by one a turn,
    and writes at [count] and at [count + 1]: its last turn writes one
    element past the end of the buffer. *)
Lemma y_major_loop_overruns (aAbs bAbs : double) (majAbs numPoints : Z)
    (n : nat) :
  numPoints <= CInt.INT_MAX ->
  forall (fuel : nat) (l : plot_locals) (w : world) (buf : list double),
    (n < fuel)%nat ->
    count l = numPoints - 1 - Z.of_nat n -> 0 <= count l ->
    retVal l = Some buf -> Z.of_nat (length buf) = numPoints ->
    while fuel (fun l => count l <? numPoints)
      (plot_ellipse_step false aAbs bAbs majAbs numPoints) l w = None.
Proof.
  unfold CInt.INT_MAX. intros Hmax.
  induction n as [|n IH]; intros fuel l w buf Hfuel Hcount Hpos Hbuf Hlen;
    (destruct fuel as [|fuel]; [lia|]);
    destruct l as [c mp fl rv]; cbn [count retVal] in *; subst rv;
    cbn [while count];
    (replace (c <? numPoints) with true by (symmetry; apply Z.ltb_lt; lia));
    unfold plot_ellipse_step at 1;
    set (majPnt := if c =? 0 then 0%float else mp);
    set (flipIt := if c =? 0 then (-1)%float else fl);
    destruct (calc_ellipse_x_coord_returns aAbs bAbs majPnt w)
      as (x & w1 & Hx & _);
    mcall ltac:(exact Hx);
    mcall ltac:(apply store_elem_inside; lia);
    (assert (Hadd : CInt.add c 1 = c + 1)
       by (apply wrap_id; unfold CInt.INT_MIN, CInt.INT_MAX; lia));
    rewrite Hadd.
  - unfold bind. rewrite store_elem_outside; [reflexivity|].
    rewrite length_insert. lia.
  - mcall ltac:(apply store_elem_inside; rewrite length_insert; lia).
    assert (Hnext : forall mp' fl',
      while fuel (fun l => count l <? numPoints)
        (plot_ellipse_step false aAbs bAbs majAbs numPoints)
        (mk_plot_locals (c + 1) mp' fl'
           (Some (<[Z.to_nat (c + 1) := majPnt]>
                    (<[Z.to_nat c := (flipIt * x)%float]> buf)))) w1 = None).
    { intros mp' fl'. eapply IH; cbn [count retVal]; try reflexivity; try lia.
      rewrite !length_insert. exact Hlen. }
    destruct (c + 1 <=? CInt.div numPoints 4);
      [mret; apply Hnext|].
    destruct (c + 1 <=? CInt.div (CInt.mul 3 numPoints) 4);
      mret; apply Hnext.
Qed.

(** The coordinate loop along the x axis advances [count] by two a turn
    and stays within the buffer. *)
Lemma x_major_loop_returns (aAbs bAbs : double) (majAbs numPoints : Z)
    (n : nat) :
  numPoints <= CInt.INT_MAX ->
  forall (fuel : nat) (l : plot_locals) (w : world) (buf : list double),
    (n <= fuel)%nat ->
    count l = numPoints - 2 * Z.of_nat n -> 0 <= count l ->
    retVal l = Some buf -> Z.of_nat (length buf) = numPoints ->
    exists final w' buf',
      while fuel (fun l => count l <? numPoints)
        (plot_ellipse_step true aAbs bAbs majAbs numPoints) l w
      = Some (final, w')
      /\ retVal final = Some buf' /\ Z.of_nat (length buf') = numPoints
      /\ ints w' = ints w.
Proof.
  unfold CInt.INT_MAX. intros Hmax.
  induction n as [|n IH]; intros fuel l w buf Hfuel Hcount Hpos Hbuf Hlen.
  - exists l, w, buf.
    assert (Hdone : (count l <? numPoints) = false)
      by (apply Z.ltb_ge; lia).
    destruct fuel; cbn [while]; rewrite Hdone; repeat split; assumption.
  - destruct fuel as [|fuel]; [lia|].
    destruct l as [c mp fl rv]. cbn [count retVal] in *. subst rv.
    cbn [while count].
    replace (c <? numPoints) with true by (symmetry; apply Z.ltb_lt; lia).
    unfold plot_ellipse_step at 1.
    set (majPnt := if c =? 0 then of_int (CInt.mul (-1) majAbs) else mp).
    mcall ltac:(apply store_elem_inside; lia).
    assert (Hadd : CInt.add c 1 = c + 1)
      by (apply wrap_id; unfold CInt.INT_MIN, CInt.INT_MAX; lia).
    assert (Hadd2 : CInt.add (c + 1) 1 = c + 2)
      by (unfold CInt.add; replace (c + 1 + 1) with (c + 2) by lia;
          apply wrap_id; unfold CInt.INT_MIN, CInt.INT_MAX; lia).
    rewrite Hadd, Hadd2.
    destruct (calc_ellipse_y_coord_returns aAbs bAbs majPnt w)
      as (y & w1 & Hy & Hints).
    mcall ltac:(exact Hy).
    mcall ltac:(apply store_elem_inside; rewrite length_insert; lia).
    assert (Hnext : forall mp' fl',
      exists final w' buf',
        while fuel (fun l => count l <? numPoints)
          (plot_ellipse_step true aAbs bAbs majAbs numPoints)
          (mk_plot_locals (c + 2) mp' fl'
             (Some (<[Z.to_nat (c + 1) := (fl * y)%float]>
                      (<[Z.to_nat c := majPnt]> buf)))) w1
        = Some (final, w')
        /\ retVal final = Some buf' /\ Z.of_nat (length buf') = numPoints
        /\ ints w' = ints w).
    { intros mp' fl'.
      destruct (IH fuel
                  (mk_plot_locals (c + 2) mp' fl'
                     (Some (<[Z.to_nat (c + 1) := (fl * y)%float]>
                              (<[Z.to_nat c := majPnt]> buf)))) w1
                  (<[Z.to_nat (c + 1) := (fl * y)%float]>
                     (<[Z.to_nat c := majPnt]> buf)))
        as (final & w' & buf' & Hw & Hb & Hl & Hi);
        cbn [count retVal]; try reflexivity; try lia.
      { rewrite !length_insert. exact Hlen. }
      exists final, w', buf'. rewrite Hi. repeat split; assumption. }
    destruct (CInt.div numPoints 2 <? c + 2); mret; apply Hnext.
Qed.

Lemma num_points_eq (m : Z) :
  1 <= m <= 268435455 ->
  CInt.mul (CInt.mul m 4) 2 = 8 * m
  /\ (8 * m <? 8) || negb (CInt.rem (8 * m) 4 =? 0) = false.
Proof.
  intros Hm. split.
  - unfold CInt.mul.
    rewrite (wrap_id (m * 4)) by (unfold CInt.INT_MIN, CInt.INT_MAX; lia).
    rewrite wrap_id by (unfold CInt.INT_MIN, CInt.INT_MAX; lia). lia.
  - replace (8 * m <? 8) with false by (symmetry; apply Z.ltb_ge; lia).
    unfold CInt.rem. replace (8 * m) with (2 * m * 4) by lia.
    rewrite Z.rem_mul by lia. reflexivity.
Qed.

Lemma events_primed (w : world) : events (primed w) = events w.
Proof. unfold primed. destruct (maxPrec_static w =? 0); reflexivity. Qed.

(** The steps of [plot_ellipse_points] up to the allocation, for axes it
    accepts. *)
Ltac ellipse_prefix aVal bVal numPnts w Hs Hnum Hacc :=
  let Hp := fresh "Hp" in
  let Hq := fresh "Hq" in
  let Hs1 := fresh "Hs1" in
  let Hpp := fresh "Hpp" in
  assert (Hp : 1 <= DBL_PRECISION) by (unfold DBL_PRECISION; lia);
  assert (Hq : 1 <= DBL_PRECISION <= 766) by (unfold DBL_PRECISION; lia);
  assert (Hs1 : sane (primed w)) by (apply sane_primed; assumption);
  assert (Hpp : primed (primed w) = primed w)
    by (apply primed_primed; assumption);
  destruct Hacc as (Ha & Hb & Hm);
  unfold plot_ellipse_points;
  mcall ltac:(apply dble_equal_to_valid; assumption);
  rewrite Ha; mred;
  mcall ltac:(apply dble_equal_to_valid; assumption);
  rewrite Hpp, Hb; mred;
  rewrite bool_decide_eq_false_2 by discriminate; mred;
  mcall ltac:(apply store_int_ok; rewrite ints_primed; assumption);
  mret;
  set (w2 := set_ints (<[numPnts := 0]> (ints (primed w))) (primed w));
  assert (Hs2 : sane w2) by (apply sane_set_ints; assumption);
  assert (Hp2 : primed w2 = w2)
    by (apply primed_fixed; unfold w2; cbn [maxPrec_static set_ints];
        apply maxPrec_primed; assumption);
  mcall ltac:(apply dble_less_than_total; assumption);
  rewrite Hp2;
  change (atof (format_f DBL_PRECISION aVal) <? atof (format_f DBL_PRECISION bVal))%float
    with (y_major aVal bVal);
  mcall ltac:(apply dble_not_equal_valid; assumption); rewrite Hp2;
  mcall ltac:(apply dble_not_equal_valid; assumption); rewrite Hp2.

(** An ellipse taller than wide: the coordinate loop writes one element past
    the end of the buffer it allocated, whatever the two semi-axes are. In
    the model the call has no outcome. *)
Theorem plot_ellipse_points_tall_overruns (aVal bVal : double) (numPnts : addr)
    (w : world) :
  sane w -> is_Some (ints w !! numPnts) -> calloc_succeeds w ->
  accepted_axes aVal bVal -> y_major aVal bVal = true ->
  plot_ellipse_points aVal bVal (Some numPnts) w = None.
Proof.
  intros Hs Hnum Halloc Hacc Hy.
  ellipse_prefix aVal bVal numPnts w Hs Hnum Hacc.
  unfold half_axis in Hm. rewrite Hy in Hm. rewrite Hy. cbn [negb].
  destruct (num_points_eq _ Hm) as (-> & ->). mret.
  destruct (allocation_loop (8 * to_int (PrimFloat.abs bVal)) w2)
    as (numTries & rest & Hcalloc).
  { unfold calloc_succeeds, w2. cbn [calloc_outcomes set_ints].
    rewrite calloc_outcomes_primed. exact Halloc. }
  mcall ltac:(exact Hcalloc).
  rewrite bool_decide_eq_true_2 by eauto. cbn [negb]. mret.
  unfold bind at 1.
  rewrite (y_major_loop_overruns _ _ _ (8 * to_int (PrimFloat.abs bVal))
             (Z.to_nat (8 * to_int (PrimFloat.abs bVal)) - 1) ltac:(unfold CInt.INT_MAX; lia)
             _ _ _ (replicate (Z.to_nat (8 * to_int (PrimFloat.abs bVal))) PrimFloat.zero));
    cbn [count retVal]; try reflexivity; try lia.
  rewrite length_replicate. lia.
Qed.

Lemma plot_ellipse_points_tall_overruns_witness :
  let w := set_calloc_outcomes [true]
             (set_ints {[ 1%positive := 7 ]} initial_world) in
  sane w /\ is_Some (ints w !! 1%positive) /\ calloc_succeeds w
  /\ accepted_axes 3%float 5%float /\ y_major 3%float 5%float = true
  /\ plot_ellipse_points 3%float 5%float (Some 1%positive) w = None.
Proof.
  intros w.
  assert (Hs : sane w) by (unfold sane; simpl; repeat split; left; reflexivity).
  assert (Hnum : is_Some (ints w !! 1%positive)) by (exists 7; reflexivity).
  assert (Halloc : calloc_succeeds w).
  { exists [], []. split; [reflexivity|]. split; [constructor|].
    unfold HARKLEMATH_MAX_TRIES. simpl. lia. }
  assert (Hacc : accepted_axes 3%float 5%float).
  { split; [vm_compute; reflexivity|]. split; [vm_compute; reflexivity|].
    vm_compute. split; discriminate. }
  assert (Hy : y_major 3%float 5%float = true) by (vm_compute; reflexivity).
  split; [exact Hs|]. split; [exact Hnum|]. split; [exact Halloc|].
  split; [exact Hacc|]. split; [exact Hy|].
  apply (plot_ellipse_points_tall_overruns 3%float 5%float 1%positive w
           Hs Hnum Halloc Hacc Hy).
Defined.

(** An ellipse at least as wide as tall: for all accepted semi-axes and an
    allocation that succeeds, [plot_ellipse_points] returns a buffer of
    eight doubles for each unit of the major half axis, and stores that
    count, and nothing else, in [*numPnts]. *)
Theorem plot_ellipse_points_wide_returns (aVal bVal : double) (numPnts : addr)
    (w : world) :
  sane w -> is_Some (ints w !! numPnts) -> calloc_succeeds w ->
  accepted_axes aVal bVal -> y_major aVal bVal = false ->
  exists buf w',
    plot_ellipse_points aVal bVal (Some numPnts) w = Some (Some buf, w')
    /\ Z.of_nat (length buf) = 8 * half_axis aVal bVal
    /\ ints w' = <[numPnts := 8 * half_axis aVal bVal]> (ints w).
Proof.
  intros Hs Hnum Halloc Hacc Hy.
  ellipse_prefix aVal bVal numPnts w Hs Hnum Hacc.
  unfold half_axis in *. rewrite Hy in *. cbn [negb].
  destruct (num_points_eq _ Hm) as (-> & ->). mret.
  set (numPoints := 8 * to_int (PrimFloat.abs aVal)) in *.
  destruct (allocation_loop numPoints w2) as (numTries & rest & Hcalloc).
  { unfold calloc_succeeds, w2. cbn [calloc_outcomes set_ints].
    rewrite calloc_outcomes_primed. exact Halloc. }
  mcall ltac:(exact Hcalloc).
  rewrite bool_decide_eq_true_2 by eauto. cbn [negb]. mret.
  destruct (x_major_loop_returns (PrimFloat.abs aVal) (PrimFloat.abs bVal)
              (to_int (PrimFloat.abs aVal)) numPoints
              (Z.to_nat (4 * to_int (PrimFloat.abs aVal)))
              ltac:(unfold CInt.INT_MAX, numPoints; lia)
              (Z.to_nat numPoints)
              (mk_plot_locals 0 0%float 1%float
                 (Some (replicate (Z.to_nat numPoints) PrimFloat.zero)))
              (set_calloc_outcomes rest w2)
              (replicate (Z.to_nat numPoints) PrimFloat.zero))
    as (final & w3 & buf & Hloop & Hbuf & Hlen & Hints);
    cbn [count retVal]; try reflexivity; try (unfold numPoints; lia).
  { rewrite length_replicate. unfold numPoints. lia. }
  mcall ltac:(exact Hloop).
  assert (Hints3 : ints w3 = <[numPnts := 0]> (ints w)).
  { rewrite Hints. unfold w2. cbn [ints set_calloc_outcomes set_ints].
    rewrite ints_primed. reflexivity. }
  mcall ltac:(apply store_int_ok; rewrite Hints3, lookup_insert_eq; eauto).
  exists buf. eexists. split; [rewrite Hbuf; reflexivity|].
  split; [exact Hlen|].
  cbn [ints set_ints]. rewrite Hints3, insert_insert_eq. reflexivity.
Qed.

Lemma plot_ellipse_points_wide_returns_witness :
  let w := set_calloc_outcomes [false; false; true]
             (set_ints {[ 1%positive := 7 ]} initial_world) in
  sane w /\ is_Some (ints w !! 1%positive) /\ calloc_succeeds w
  /\ accepted_axes 7.5%float (-2)%float /\ y_major 7.5%float (-2)%float = false
  /\ exists buf w',
       plot_ellipse_points 7.5%float (-2)%float (Some 1%positive) w
       = Some (Some buf, w')
       /\ Z.of_nat (length buf) = 8 * half_axis 7.5%float (-2)%float
       /\ ints w' = <[1%positive := 8 * half_axis 7.5%float (-2)%float]> (ints w).
Proof.
  intros w.
  assert (Hs : sane w) by (unfold sane; simpl; repeat split; left; reflexivity).
  assert (Hnum : is_Some (ints w !! 1%positive)) by (exists 7; reflexivity).
  assert (Halloc : calloc_succeeds w).
  { exists [false; false], []. split; [reflexivity|]. split.
    - repeat constructor.
    - unfold HARKLEMATH_MAX_TRIES. simpl. lia. }
  assert (Hacc : accepted_axes 7.5%float (-2)%float).
  { split; [vm_compute; reflexivity|]. split; [vm_compute; reflexivity|].
    vm_compute. split; discriminate. }
  assert (Hy : y_major 7.5%float (-2)%float = false) by (vm_compute; reflexivity).
  split; [exact Hs|]. split; [exact Hnum|]. split; [exact Halloc|].
  split; [exact Hacc|]. split; [exact Hy|].
  apply (plot_ellipse_points_wide_returns 7.5%float (-2)%float 1%positive w
           Hs Hnum Halloc Hacc Hy).
Defined.

Lemma allocation_loop_fails (n : Z) (w : world) :
  calloc_fails w ->
  exists numTries w',
    while (Z.to_nat HARKLEMATH_MAX_TRIES)
      (fun '(retVal, numTries) =>
         (numTries <? HARKLEMATH_MAX_TRIES) && negb (bool_decide (is_Some retVal)))
      (fun '(retVal, numTries) =>
         bind (calloc n) (fun retVal => ret (retVal, CInt.add numTries 1)))
      (None, 0) w
    = Some ((None, numTries), w').
Proof.
  unfold calloc_fails, HARKLEMATH_MAX_TRIES.
  destruct w as [mp rv rm ev hi hl co]. cbn [calloc_outcomes].
  change (Z.to_nat 3) with 3%nat.
  intros Hall.
  destruct co as [|c1 [|c2 [|c3 rest]]]; cbn [take] in Hall;
    repeat match goal with
           | H : Forall _ (_ :: _) |- _ => apply Forall_cons in H as [-> H]
           end;
    eexists _, _; cbn [while]; unfold bind, calloc, ret; cbn; reflexivity.
Qed.

Lemma coordinate_loop_null (chooseX : bool) (aAbs bAbs : double)
    (majAbs numPoints : Z) (mp fl : double) (w : world) :
  0 < numPoints ->
  while (Z.to_nat numPoints) (fun l => count l <? numPoints)
    (plot_ellipse_step chooseX aAbs bAbs majAbs numPoints)
    (mk_plot_locals 0 mp fl None) w = None.
Proof.
  intros Hn. destruct (Z.to_nat numPoints) as [|k] eqn:Hk; [lia|].
  cbn [while count].
  replace (0 <? numPoints) with true by (symmetry; apply Z.ltb_lt; lia).
  unfold plot_ellipse_step at 1. destruct chooseX.
  - reflexivity.
  - cbn [Z.eqb].
    destruct (calc_ellipse_x_coord_returns aAbs bAbs 0%float w)
      as (x & w1 & Hx & _).
    mcall ltac:(exact Hx). reflexivity.
Qed.

(** When every allocation attempt fails, the failure is reported and the
    coordinate loop runs all the same: its first turn writes through the
    NULL buffer. In the model the call has no outcome. *)
Theorem plot_ellipse_points_allocation_failure (aVal bVal : double)
    (numPnts : addr) (w : world) :
  sane w -> is_Some (ints w !! numPnts) -> calloc_fails w ->
  accepted_axes aVal bVal ->
  plot_ellipse_points aVal bVal (Some numPnts) w = None.
Proof.
  intros Hs Hnum Halloc Hacc.
  ellipse_prefix aVal bVal numPnts w Hs Hnum Hacc.
  unfold half_axis in Hm.
  set (majAbs := if negb (y_major aVal bVal) then to_int (PrimFloat.abs aVal)
                 else to_int (PrimFloat.abs bVal)).
  assert (Hmaj : 1 <= majAbs <= 268435455)
    by (unfold majAbs; destruct (y_major aVal bVal); exact Hm).
  destruct (num_points_eq _ Hmaj) as (-> & ->). mret.
  destruct (allocation_loop_fails (8 * majAbs) w2) as (numTries & w3 & Hcalloc).
  { unfold calloc_fails, w2. cbn [calloc_outcomes set_ints].
    rewrite calloc_outcomes_primed. exact Halloc. }
  mcall ltac:(exact Hcalloc).
  rewrite bool_decide_eq_false_2 by (intros [? ?]; discriminate).
  cbn [negb]. unfold bind at 1. unfold bind at 1. unfold report at 1. mred.
  unfold ret at 1. mred. unfold bind at 1.
  rewrite coordinate_loop_null by lia. reflexivity.
Qed.

Lemma plot_ellipse_points_allocation_failure_witness :
  let w := set_calloc_outcomes [false; false; false; true]
             (set_ints {[ 1%positive := 7 ]} initial_world) in
  sane w /\ is_Some (ints w !! 1%positive) /\ calloc_fails w
  /\ accepted_axes 5%float 3%float
  /\ plot_ellipse_points 5%float 3%float (Some 1%positive) w = None.
Proof.
  intros w.
  assert (Hs : sane w) by (unfold sane; simpl; repeat split; left; reflexivity).
  assert (Hnum : is_Some (ints w !! 1%positive)) by (exists 7; reflexivity).
  assert (Halloc : calloc_fails w) by (repeat constructor).
  assert (Hacc : accepted_axes 5%float 3%float).
  { split; [vm_compute; reflexivity|]. split; [vm_compute; reflexivity|].
    vm_compute. split; discriminate. }
  split; [exact Hs|]. split; [exact Hnum|]. split; [exact Halloc|].
  split; [exact Hacc|].
  apply (plot_ellipse_points_allocation_failure 5%float 3%float 1%positive w
           Hs Hnum Halloc Hacc).
Defined.

Lemma bind_report {A} (l f r : string) (k : unit -> M A) (w : world) :
  bind (report l f r) k w = k tt (reported l f r w).
Proof. reflexivity. Qed.

(** Refused arguments: a semi-axis within the tolerance of zero, or a NULL
    [numPnts]. [plot_ellipse_points] makes one report and returns NULL; it
    allocates nothing and writes nothing. *)
Theorem plot_ellipse_points_refusals (aVal bVal : double) (numPnts : pointer)
    (w : world) :
  sane w ->
  window aVal 0%float (mask DBL_PRECISION) = true
  \/ window bVal 0%float (mask DBL_PRECISION) = true
  \/ numPnts = NULL ->
  exists reason w',
    plot_ellipse_points aVal bVal numPnts w = Some (None, w')
    /\ events w' = HARKLE_ERROR "Harklemath" "plot_ellipse_points" reason :: events w
    /\ ints w' = ints w
    /\ calloc_outcomes w' = calloc_outcomes w.
Proof.
  intros Hs Href.
  assert (Hp : 1 <= DBL_PRECISION <= 766) by (unfold DBL_PRECISION; lia).
  assert (Hs1 : sane (primed w)) by (apply sane_primed; assumption).
  assert (Hpp : primed (primed w) = primed w) by (apply primed_primed; assumption).
  assert (Hfin : forall reason,
    exists w',
      Some (@None (list double),
            primed (reported "Harklemath" "plot_ellipse_points" reason (primed w)))
      = Some (None, w')
      /\ events w'
         = HARKLE_ERROR "Harklemath" "plot_ellipse_points" reason :: events w
      /\ ints w' = ints w
      /\ calloc_outcomes w' = calloc_outcomes w).
  { intros reason. eexists. split; [reflexivity|].
    rewrite events_primed, ints_primed, calloc_outcomes_primed.
    cbn [events ints calloc_outcomes reported set_events].
    rewrite events_primed, ints_primed, calloc_outcomes_primed.
    repeat split. }
  unfold plot_ellipse_points.
  mcall ltac:(apply dble_equal_to_valid; [assumption | lia]).
  destruct (window aVal 0%float (mask DBL_PRECISION)) eqn:Ea.
  { exists "aVal is zero"%string.
    rewrite bind_assoc, bind_report. mred. mret.
    mcall ltac:(apply dble_less_than_total; [exact Hs1 | exact Hp]).
    apply Hfin. }
  mred.
  mcall ltac:(apply dble_equal_to_valid; [assumption | lia]). rewrite Hpp.
  destruct (window bVal 0%float (mask DBL_PRECISION)) eqn:Eb.
  { exists "bVal is zero"%string.
    rewrite bind_assoc, bind_report. mred. mret.
    mcall ltac:(apply dble_less_than_total; [exact Hs1 | exact Hp]).
    apply Hfin. }
  destruct Href as [H|[H|H]]; try discriminate. subst numPnts.
  exists "NULL pointer"%string.
  rewrite bool_decide_eq_true_2 by reflexivity. mred.
  rewrite bind_assoc, bind_report. mred. mret.
  mcall ltac:(apply dble_less_than_total; [exact Hs1 | exact Hp]).
  apply Hfin.
Qed.

Lemma plot_ellipse_points_refusals_witness :
  let w := set_ints {[ 1%positive := 7 ]} initial_world in
  sane w
  /\ (window 5%float 0%float (mask DBL_PRECISION) = true
      \/ window 0%float 0%float (mask DBL_PRECISION) = true
      \/ Some 1%positive = NULL)
  /\ exists reason w',
       plot_ellipse_points 5%float 0%float (Some 1%positive) w = Some (None, w')
       /\ events w'
          = HARKLE_ERROR "Harklemath" "plot_ellipse_points" reason :: events w
       /\ ints w' = ints w
       /\ calloc_outcomes w' = calloc_outcomes w.
Proof.
  intros w.
  assert (Hs : sane w) by (unfold sane; simpl; repeat split; left; reflexivity).
  assert (Href : window 5%float 0%float (mask DBL_PRECISION) = true
                 \/ window 0%float 0%float (mask DBL_PRECISION) = true
                 \/ Some 1%positive = NULL)
    by (right; left; vm_compute; reflexivity).
  split; [exact Hs|]. split; [exact Href|].
  apply (plot_ellipse_points_refusals 5%float 0%float (Some 1%positive) w Hs Href).
Defined.

(** A major semi-axis whose integral part is 0 gives no point to plot:
    [plot_ellipse_points] zeroes [*numPnts], reports a miscalculated number
    of points and returns NULL without allocating. (Both magnitudes are
    taken within the range of [int], where the conversions the code makes
    are defined.) *)
Theorem plot_ellipse_points_no_unit (aVal bVal : double) (numPnts : addr)
    (w : world) :
  sane w -> is_Some (ints w !! numPnts) ->
  int_convertible (PrimFloat.abs aVal) -> int_convertible (PrimFloat.abs bVal) ->
  window aVal 0%float (mask DBL_PRECISION) = false ->
  window bVal 0%float (mask DBL_PRECISION) = false ->
  half_axis aVal bVal = 0 ->
  exists w',
    plot_ellipse_points aVal bVal (Some numPnts) w = Some (None, w')
    /\ events w'
       = HARKLE_ERROR "Harklemath" "plot_ellipse_points"
                      "Number of points miscalculated" :: events w
    /\ ints w' = <[numPnts := 0]> (ints w)
    /\ calloc_outcomes w' = calloc_outcomes w.
Proof.
  intros Hs Hnum _ _ Hwa Hwb Hhalf.
  assert (Hacc : window aVal 0%float (mask DBL_PRECISION) = false
                 /\ window bVal 0%float (mask DBL_PRECISION) = false
                 /\ half_axis aVal bVal = 0)
    by (split; [exact Hwa|split; [exact Hwb|exact Hhalf]]).
  clear Hwa Hwb Hhalf.
  ellipse_prefix aVal bVal numPnts w Hs Hnum Hacc.
  unfold half_axis in Hm.
  set (majAbs := if negb (y_major aVal bVal) then to_int (PrimFloat.abs aVal)
                 else to_int (PrimFloat.abs bVal)).
  assert (Hmaj : majAbs = 0)
    by (unfold majAbs; destruct (y_major aVal bVal); exact Hm).
  rewrite Hmaj. change (CInt.mul (CInt.mul 0 4) 2) with 0.
  eexists. split; [reflexivity|].
  cbn [events ints calloc_outcomes set_events].
  unfold w2. cbn [events ints calloc_outcomes set_ints].
  rewrite events_primed, ints_primed, calloc_outcomes_primed.
  repeat split.
Qed.

Lemma plot_ellipse_points_no_unit_witness :
  let w := set_ints {[ 1%positive := 7 ]} initial_world in
  sane w /\ is_Some (ints w !! 1%positive)
  /\ int_convertible (PrimFloat.abs 0.5%float)
  /\ int_convertible (PrimFloat.abs 0.25%float)
  /\ window 0.5%float 0%float (mask DBL_PRECISION) = false
  /\ window 0.25%float 0%float (mask DBL_PRECISION) = false
  /\ half_axis 0.5%float 0.25%float = 0
  /\ exists w',
       plot_ellipse_points 0.5%float 0.25%float (Some 1%positive) w
       = Some (None, w')
       /\ events w'
          = HARKLE_ERROR "Harklemath" "plot_ellipse_points"
                         "Number of points miscalculated" :: events w
       /\ ints w' = <[1%positive := 0]> (ints w)
       /\ calloc_outcomes w' = calloc_outcomes w.
Proof.
  intros w.
  assert (Hs : sane w) by (unfold sane; simpl; repeat split; left; reflexivity).
  assert (Hnum : is_Some (ints w !! 1%positive)) by (exists 7; reflexivity).
  assert (Hca : int_convertible (PrimFloat.abs 0.5%float))
    by (split; vm_compute; reflexivity).
  assert (Hcb : int_convertible (PrimFloat.abs 0.25%float))
    by (split; vm_compute; reflexivity).
  assert (Hwa : window 0.5%float 0%float (mask DBL_PRECISION) = false)
    by (vm_compute; reflexivity).
  assert (Hwb : window 0.25%float 0%float (mask DBL_PRECISION) = false)
    by (vm_compute; reflexivity).
  assert (Hhalf : half_axis 0.5%float 0.25%float = 0)
    by (vm_compute; reflexivity).
  split; [exact Hs|]. split; [exact Hnum|]. split; [exact Hca|].
  split; [exact Hcb|]. split; [exact Hwa|]. split; [exact Hwb|].
  split; [exact Hhalf|].
  apply (plot_ellipse_points_no_unit 0.5%float 0.25%float 1%positive w
           Hs Hnum Hca Hcb Hwa Hwb Hhalf).
Defined.

End EllipseProperties.

(** * Coordinates on an ellipse *)

Module EllipseCoordinates.
Import Libm Libc World Harklemath Spec Run.
Local Open Scope Z_scope.
#[local] Set Warnings "-inexact-float".

Lemma abs_not_negative (z : double) : (PrimFloat.abs z <? 0)%float = false.
Proof.
  rewrite ltb_spec, abs_spec.
  change (Prim2SF 0%float) with (S754_zero false).
  destruct (Prim2SF z) as [s|s| |s m e]; reflexivity.
Qed.

(** Whatever they are given, [calc_ellipse_x_coord] and
    [calc_ellipse_y_coord] return, and what they return is never negative
    (0 when the arguments are refused); they write to no object. *)
Theorem calc_ellipse_coords_never_negative (aVal bVal val : double) (w : world) :
  (exists x w',
     calc_ellipse_x_coord aVal bVal val w = Some (x, w')
     /\ (x <? 0)%float = false
     /\ ints w' = ints w /\ lines w' = lines w)
  /\ (exists y w',
        calc_ellipse_y_coord aVal bVal val w = Some (y, w')
        /\ (y <? 0)%float = false
        /\ ints w' = ints w /\ lines w' = lines w).
Proof.
  split.
  - unfold calc_ellipse_x_coord.
    destruct (DBL_EQUAL aVal 0%float);
      [eexists _, _; repeat split; reflexivity|].
    destruct (DBL_EQUAL bVal 0%float);
      [eexists _, _; repeat split; reflexivity|].
    destruct (DBL_GRTR val bVal);
      [eexists _, _; repeat split; reflexivity|].
    eexists _, _. split; [reflexivity|].
    split; [apply abs_not_negative|split; reflexivity].
  - unfold calc_ellipse_y_coord.
    destruct (DBL_EQUAL aVal 0%float);
      [eexists _, _; repeat split; reflexivity|].
    destruct (DBL_EQUAL bVal 0%float);
      [eexists _, _; repeat split; reflexivity|].
    destruct (DBL_GRTR val aVal);
      [eexists _, _; repeat split; reflexivity|].
    eexists _, _. split; [reflexivity|].
    split; [apply abs_not_negative|split; reflexivity].
Qed.

End EllipseCoordinates.

(** * The sign of an area *)

Module AreaProperties.
Import Libm Libc World Harklemath Spec Run Precision Comparators TriangleClaims.
Local Open Scope Z_scope.
#[local] Set Warnings "-inexact-float".

Lemma sqrt_not_negative (x : double) : (PrimFloat.sqrt x <? 0)%float = false.
Proof.
  rewrite ltb_spec, sqrt_spec.
  change (Prim2SF 0%float) with (S754_zero false).
  unfold SF64sqrt, SFsqrt.
  destruct (Prim2SF x) as [s|s| |s m e]; try destruct s; try reflexivity.
  destruct (SFsqrt_core_binary prec emax (Z.pos m) e) as [[mz ez] lz].
  unfold binary_round_aux.
  destruct (shr_fexp prec emax mz ez lz) as [mrs e'].
  destruct (shr_fexp prec emax
              (round_nearest_even (shr_m mrs) (loc_of_shr_record mrs)) e'
              loc_Exact) as [mrs2 e2].
  destruct (shr_m mrs2); [reflexivity| |reflexivity].
  destruct (e2 <=? emax - prec); reflexivity.
Qed.

(** [calculate_triangle_area] always returns, and its result is negative
    exactly for the points it refuses (two of them coincide, or the three
    share a row or a column): a caller can test the sign for the sentinel. *)
Theorem calculate_triangle_area_negative_iff_refused
    (AX AY BX BY CX CY : Z) (w : world) :
  sane w ->
  exists area w',
    calculate_triangle_area AX AY BX BY CX CY w = Some (area, w')
    /\ ((area <? 0)%float = true <-> degenerate AX AY BX BY CX CY).
Proof.
  intros Hs.
  destruct (((AX =? BX) && (AY =? BY)) || ((AX =? CX) && (AY =? CY))
            || ((BX =? CX) && (BY =? CY))) eqn:Ed.
  { eexists _, _. unfold calculate_triangle_area. rewrite Ed.
    split; [reflexivity|]. split; [|reflexivity].
    intros _. left. apply two_coincide_test. exact Ed. }
  destruct (((AX =? BX) && (AX =? CX)) || ((AY =? BY) && (AY =? CY))) eqn:El.
  { eexists _, _. unfold calculate_triangle_area. rewrite Ed, El.
    split; [reflexivity|]. split; [|reflexivity].
    intros _. right. apply axis_aligned_test. exact El. }
  assert (Hdup : ~ two_coincide AX AY BX BY CX CY).
  { intros H. apply two_coincide_test in H. congruence. }
  assert (Hline : ~ axis_aligned AX AY BX BY CX CY).
  { intros H. apply axis_aligned_test in H. congruence. }
  eexists _, _.
  split; [apply (calculate_triangle_area_heron _ _ _ _ _ _ w Hs Hdup Hline)|].
  unfold heron. rewrite sqrt_not_negative. split; [discriminate|].
  intros [H|H]; contradiction.
Qed.

Lemma calculate_triangle_area_negative_iff_refused_witness :
  sane initial_world
  /\ exists area w',
       calculate_triangle_area 0 0 4 0 9 0 initial_world = Some (area, w')
       /\ ((area <? 0)%float = true <-> degenerate 0 0 4 0 9 0).
Proof.
  split; [exact sane_initial_world|].
  apply (calculate_triangle_area_negative_iff_refused 0 0 4 0 9 0 initial_world
           sane_initial_world).
Defined.

End AreaProperties.

(** * Rounding an integral double *)

Module IntegralRounding.
Import Libm Libc World Harklemath Spec CIntFacts Run.
Import IntegerDoubles RoundingProperties.
Local Open Scope Z_scope.
#[local] Set Warnings "-inexact-float".

Lemma pos_iter_xO_value (p k : positive) :
  Z.pos (Pos.iter xO p k) = Z.pos p * 2 ^ Z.pos k.
Proof.
  induction k as [|k IH] using Pos.peano_ind.
  - cbn [Pos.iter]. rewrite Pos2Z.inj_xO. change (2 ^ 1) with 2. lia.
  - rewrite Pos.iter_succ, Pos2Z.inj_xO, IH, Pos2Z.inj_succ,
      Z.pow_succ_r by lia.
    ring.
Qed.

(** The double of a positive [int] magnitude: the magnitude shifted to 53
    bits, and the exponent that undoes the shift. *)
Lemma of_uint63_shape (p : positive) :
  Z.pos p <= 2147483648 ->
  exists k,
    Prim2SF (PrimFloat.of_uint63 (Uint63.of_Z (Z.pos p)))
    = S754_finite false (Pos.iter xO p k) (- Z.pos k)
    /\ 21 <= Z.pos k
    /\ (Z.pos p <= 2147483647 -> 22 <= Z.pos k).
Proof.
  intros Hp. rewrite of_uint63_spec, Uint63.of_Z_spec.
  change Uint63.wB with 9223372036854775808. rewrite Z.mod_small by lia.
  unfold binary_normalize.
  pose proof (digits2_pos_le p 32 ltac:(simpl; lia)) as Hd.
  rewrite binary_round_short by lia.
  exists (Z.to_pos (53 - Z.pos (digits2_pos p))).
  split; [f_equal; lia|]. split; [lia|].
  intros Hmax. pose proof (digits2_pos_le p 31 ltac:(simpl; lia)). lia.
Qed.

Lemma shifted_quotient (p k : positive) :
  Z.pos (Pos.iter xO p k) / two_pow (- - Z.pos k) = Z.pos p
  /\ Z.pos (Pos.iter xO p k) mod two_pow (- - Z.pos k) = 0.
Proof.
  rewrite pos_iter_xO_value, Z.opp_involutive. unfold two_pow.
  assert (0 < 2 ^ Z.pos k) by (apply Z.pow_pos_nonneg; lia).
  rewrite Z.div_mul, Z.mod_mul by lia. split; reflexivity.
Qed.

Lemma to_int_of_int (n : Z) :
  CInt.INT_MIN <= n <= CInt.INT_MAX -> to_int (of_int n) = n.
Proof.
  unfold CInt.INT_MIN, CInt.INT_MAX. intros Hn. unfold of_int, to_int.
  destruct (n <? 0) eqn:Hneg.
  - apply Z.ltb_lt in Hneg. destruct n as [|p|p]; try lia.
    destruct (of_uint63_shape p ltac:(lia)) as (k & Hshape & _).
    rewrite opp_spec. change (- Z.neg p) with (Z.pos p).
    rewrite Hshape. cbn [SFopp negb].
    replace (0 <=? - Z.pos k) with false by (symmetry; apply Z.leb_gt; lia).
    destruct (shifted_quotient p k) as [-> _].
    replace (CInt.in_range (- Z.pos p)) with true; [reflexivity|].
    symmetry. unfold CInt.in_range, CInt.INT_MIN, CInt.INT_MAX.
    apply andb_true_iff. split; apply Z.leb_le; lia.
  - apply Z.ltb_ge in Hneg. destruct n as [|p|p]; try lia; [reflexivity|].
    destruct (of_uint63_shape p ltac:(lia)) as (k & Hshape & _).
    rewrite Hshape.
    replace (0 <=? - Z.pos k) with false by (symmetry; apply Z.leb_gt; lia).
    destruct (shifted_quotient p k) as [-> _].
    replace (CInt.in_range (Z.pos p)) with true; [reflexivity|].
    symmetry. unfold CInt.in_range, CInt.INT_MIN, CInt.INT_MAX.
    apply andb_true_iff. split; apply Z.leb_le; lia.
Qed.

(** [ceil], [floor] and [round] leave the double of an [int] as it is. *)
Lemma integral_of_int (n : Z) :
  CInt.INT_MIN <= n <= CInt.INT_MAX ->
  ceil (of_int n) = of_int n /\ floor (of_int n) = of_int n
  /\ round (of_int n) = of_int n.
Proof.
  unfold CInt.INT_MIN, CInt.INT_MAX. intros Hn.
  destruct n as [|p|p].
  - repeat split; reflexivity.
  - destruct (of_uint63_shape p ltac:(lia)) as (k & Hshape & _).
    assert (Hx : Prim2SF (of_int (Z.pos p))
                 = S754_finite false (Pos.iter xO p k) (- Z.pos k))
      by exact Hshape.
    destruct (shifted_quotient p k) as [Hq Hr].
    assert (Hd : 0 < two_pow (- - Z.pos k))
      by (unfold two_pow; apply Z.pow_pos_nonneg; lia).
    unfold ceil, floor, round. rewrite Hx.
    replace (0 <=? - Z.pos k) with false by (symmetry; apply Z.leb_gt; lia).
    cbv zeta. rewrite Hq, Hr. cbn [Z.eqb]. change (2 * 0) with 0.
    replace (two_pow (- - Z.pos k) <=? 0) with false
      by (symmetry; apply Z.leb_gt; lia).
    repeat split; reflexivity.
  - destruct (of_uint63_shape p ltac:(lia)) as (k & Hshape & _).
    assert (Hx : Prim2SF (of_int (Z.neg p))
                 = S754_finite true (Pos.iter xO p k) (- Z.pos k))
      by (change (of_int (Z.neg p))
            with (PrimFloat.opp (PrimFloat.of_uint63 (Uint63.of_Z (Z.pos p))));
          rewrite opp_spec, Hshape; reflexivity).
    destruct (shifted_quotient p k) as [Hq Hr].
    assert (Hd : 0 < two_pow (- - Z.pos k))
      by (unfold two_pow; apply Z.pow_pos_nonneg; lia).
    unfold ceil, floor, round. rewrite Hx.
    replace (0 <=? - Z.pos k) with false by (symmetry; apply Z.leb_gt; lia).
    cbv zeta. rewrite Hq, Hr. cbn [Z.eqb]. change (2 * 0) with 0.
    replace (two_pow (- - Z.pos k) <=? 0) with false
      by (symmetry; apply Z.leb_gt; lia).
    repeat split; reflexivity.
Qed.

(** The double of an [int] is within the bounds [round_a_dble] checks. *)
Lemma of_int_within_bounds (n : Z) :
  CInt.INT_MIN <= n <= CInt.INT_MAX ->
  (of_int CInt.INT_MAX * 1.0 <? of_int n)%float = false
  /\ (of_int n <? of_int CInt.INT_MIN * 1.0)%float = false.
Proof.
  unfold CInt.INT_MIN, CInt.INT_MAX. intros Hn.
  assert (Hmax : Prim2SF (of_int 2147483647 * 1.0)%float
                 = S754_finite false 9007199250546688 (-22))
    by (vm_compute; reflexivity).
  assert (Hmin : Prim2SF (of_int (-2147483648) * 1.0)%float
                 = S754_finite true 4503599627370496 (-21))
    by (vm_compute; reflexivity).
  rewrite !ltb_spec, Hmax, Hmin.
  destruct n as [|p|p].
  - split; reflexivity.
  - destruct (of_uint63_shape p ltac:(lia)) as (k & Hshape & _ & Hk).
    specialize (Hk ltac:(lia)).
    change (of_int (Z.pos p))
      with (PrimFloat.of_uint63 (Uint63.of_Z (Z.pos p))).
    rewrite Hshape. split; [|reflexivity].
    unfold SFltb, SFcompare.
    destruct (Z.compare_spec (-22) (- Z.pos k)) as [He|He|He];
      [|lia|reflexivity].
    assert (k = 22%positive) by lia. subst k.
    rewrite Pos.compare_cont_spec.
    destruct (Pos.compare_spec 9007199250546688 (Pos.iter xO p 22))
      as [Hc|Hc|Hc]; try reflexivity.
    exfalso. apply Pos2Z.pos_lt_pos in Hc.
    rewrite pos_iter_xO_value in Hc. change (2 ^ 22) with 4194304 in Hc. lia.
  - destruct (of_uint63_shape p ltac:(lia)) as (k & Hshape & Hk & _).
    assert (Hx : Prim2SF (of_int (Z.neg p))
                 = S754_finite true (Pos.iter xO p k) (- Z.pos k))
      by (change (of_int (Z.neg p))
            with (PrimFloat.opp (PrimFloat.of_uint63 (Uint63.of_Z (Z.pos p))));
          rewrite opp_spec, Hshape; reflexivity).
    rewrite Hx. split; [reflexivity|].
    unfold SFltb, SFcompare.
    destruct (Z.compare_spec (- Z.pos k) (-21)) as [He|He|He];
      [|reflexivity|lia].
    assert (k = 21%positive) by lia. subst k.
    rewrite Pos.compare_cont_spec.
    destruct (Pos.compare_spec (Pos.iter xO p 21) 4503599627370496)
      as [Hc|Hc|Hc]; try reflexivity.
    exfalso. apply Pos2Z.pos_lt_pos in Hc.
    rewrite pos_iter_xO_value in Hc. change (2 ^ 21) with 2097152 in Hc. lia.
Qed.

(** Rounding is the identity on the [int]s: whatever the direction asked
    for, [round_a_dble] returns [n] for the double of [n], reports nothing
    and leaves the world as it is. *)
Theorem round_a_dble_of_int (n rndDir : Z) (w : world) :
  supported_rounding (rounding w) ->
  CInt.INT_MIN <= n <= CInt.INT_MAX ->
  round_a_dble (of_int n) rndDir w = Some (n, w).
Proof.
  intros Hr Hn. rewrite round_a_dble_frame by exact Hr.
  destruct (of_int_within_bounds n Hn) as [Hover Hunder].
  destruct (integral_of_int n Hn) as (Hceil & Hfloor & Hround).
  unfold round_value, after_round.
  rewrite Hover, Hunder, Hceil, Hfloor, Hround, to_int_of_int by exact Hn.
  destruct (rndDir =? HM_UP); [reflexivity|].
  destruct (rndDir =? HM_DWN); reflexivity.
Qed.

Lemma round_a_dble_of_int_witness :
  supported_rounding (rounding initial_world)
  /\ CInt.INT_MIN <= -7 <= CInt.INT_MAX
  /\ round_a_dble (of_int (-7)) HM_UP initial_world = Some (-7, initial_world).
Proof.
  assert (Hr : supported_rounding (rounding initial_world)) by (left; reflexivity).
  assert (Hn : CInt.INT_MIN <= -7 <= CInt.INT_MAX)
    by (unfold CInt.INT_MIN, CInt.INT_MAX; lia).
  split; [exact Hr|]. split; [exact Hn|].
  apply (round_a_dble_of_int (-7) HM_UP initial_world Hr Hn).
Defined.

End IntegralRounding.
